(** * Numbering points along streams: a model of [streams_point_numerator.py]

    The development embeds the class [StreamsPointNumerator] of
    [src/streams_point_numerator.py]: the merge of stream fragments into one
    directed polyline per mark ([union_stream_geometries]), the assignment of
    points to streams ([assign_points_to_streams]) and the three-zone
    numbering ([numerate_points] and its helpers).

    Conventions.
    - A Python [int] is a [Z]; [//] and [%] with a positive divisor are
      [Z.div] and [Z.modulo] (both round towards minus infinity).
    - A Python [str] is a [string]; an [ascii] stands for one character, so
      the model covers strings whose characters have code points below 256.
    - A raised exception is a value [Raise e] of the type [result]; every
      stage wraps whatever is raised inside it into a [RuntimeError].
    - The limits of the interpreter (recursion depth, memory, the cap on the
      number of digits of an integer conversion) are not part of the model. *)

From Equations Require Import Equations.
From Stdlib Require Import ZArith QArith Lia String Ascii DecimalString DecimalZ.
From stdpp Require Import gmap strings list fin_maps sorting.

Local Open Scope string_scope.
Local Open Scope list_scope.
Local Open Scope Z_scope.

(** ** Exceptions *)

Inductive exn : Set :=
| IndexError
| KeyError
| ValueError
| TypeError
| RuntimeError.

Inductive result (A : Type) : Type :=
| Ok (a : A)
| Raise (e : exn).
Arguments Ok {A} a.
Arguments Raise {A} e.

#[global] Instance result_ret : MRet result := fun A a => Ok a.
#[global] Instance result_bind : MBind result := fun A B f r =>
  match r with Ok a => f a | Raise e => Raise e end.

Definition is_Ok {A} (r : result A) : Prop := exists a, r = Ok a.

(** [try: ... except Exception as e: raise RuntimeError(...)] *)
Definition except_RuntimeError {A} (r : result A) : result A :=
  match r with Ok a => Ok a | Raise _ => Raise RuntimeError end.

(** A [for] loop whose body may raise: the state is threaded through the
    iterations and the first exception leaves the loop. *)
Fixpoint for_each {S X : Type} (body : S -> X -> result S) (xs : list X) (s : S)
  : result S :=
  match xs with
  | [] => Ok s
  | x :: xs' => s' ← body s x; for_each body xs' s'
  end.

(** ** Python primitives on integers and strings *)

(** [range(n)] and [range(a, b)] *)
Definition range (n : Z) : list Z := seqZ 0 n.
Definition range2 (a b : Z) : list Z := seqZ a (b - a).

(** [str(n)] for an [int], as an f-string formats it *)
Definition str (n : Z) : string := NilZero.string_of_int (Z.to_int n).

(** [s[:-1]]: all characters but the last (the empty string stays empty) *)
Fixpoint strip_last (s : string) : string :=
  match s with
  | EmptyString => EmptyString
  | String c EmptyString => EmptyString
  | String c rest => String c (strip_last rest)
  end.

(** [chr(c)] for a code point below 256; a negative argument raises
    [ValueError].  The numerator only calls it below 123. *)
Definition chr (c : Z) : result string :=
  if c <? 0 then Raise ValueError
  else Ok (String (ascii_of_N (Z.to_N c)) EmptyString).

(** [ord("a")] *)
Definition ord_a : Z := 97.

(** *** [int(s)] on a string

    Surrounding white space is dropped, one sign is accepted, and the rest
    must be decimal digits, where single underscores may separate digits.
    Anything else raises [ValueError].

    The white space that [int] drops is the tabulator, the line feed, the
    vertical tabulator, the form feed, the carriage return and the space,
    and, above the ASCII range, the next-line character and the no-break
    space.  The separators U+001C to U+001F are not dropped, although
    [str.isspace] holds of them: a character below 127 reaches the parser as
    it is, and the parser only skips the six ASCII characters. *)

Definition is_space (c : ascii) : bool :=
  let n := N_of_ascii c in
  ((9 <=? n) && (n <=? 13) || (n =? 32) || (n =? 133) || (n =? 160))%N.

Definition digit_value (c : ascii) : option Z :=
  let n := N_of_ascii c in
  if ((48 <=? n) && (n <=? 57))%N then Some (Z.of_N n - 48) else None.

Fixpoint skip_spaces (s : string) : string :=
  match s with
  | String c rest => if is_space c then skip_spaces rest else s
  | EmptyString => EmptyString
  end.

(** [read_digits acc after_digit s]: the digits of [s] continue the number
    [acc]; [after_digit] tells whether the previous character was a digit,
    which is where an underscore or the end of the number may stand. *)
Fixpoint read_digits (acc : Z) (after_digit : bool) (s : string) : option Z :=
  match s with
  | EmptyString => if after_digit then Some acc else None
  | String c rest =>
      match digit_value c with
      | Some d => read_digits (10 * acc + d) true rest
      | None =>
          if after_digit then
            if Ascii.eqb c "_" then
              match rest with
              | String c' _ =>
                  match digit_value c' with
                  | Some _ => read_digits acc false rest
                  | None => None
                  end
              | EmptyString => None
              end
            else if is_space c then
              match skip_spaces rest with
              | EmptyString => Some acc
              | _ => None
              end
            else None
          else None
      end
  end.

Definition int (s : string) : result Z :=
  let body := skip_spaces s in
  let '(sign, digits) :=
    match body with
    | String "-" rest => (-1, rest)
    | String "+" rest => (1, rest)
    | _ => (1, body)
    end in
  match read_digits 0 false digits with
  | Some n => Ok (sign * n)
  | None => Raise ValueError
  end.

(** [sys.int_max_str_digits]: from Python 3.11 on the interpreter refuses,
    with a [ValueError], to convert between [str] and [int] a number of more
    digits than this limit, 4300 unless it is set otherwise.  [int] and [str]
    above have no limit; a statement about what the numerator parses and
    writes says with this constant that the numbers keep below it. *)
Definition int_max_str_digits : Z := 4300.

(** ** The letter suffix *)

(** [suffix_call m n]: a call of [generate_letter_suffix] with argument [n]
    makes its recursive call with argument [m]. *)
Definition suffix_call (m n : Z) : Prop := 26 <= n /\ m = n / 26 - 1.

Lemma suffix_call_smaller (m n : Z) : suffix_call m n -> 0 <= m < n.
Proof.
  intros [Hn ->].
  pose proof (Z.div_le_lower_bound n 26 1 ltac:(lia) ltac:(lia)).
  pose proof (Z.div_lt_upper_bound n 26 n ltac:(lia) ltac:(lia)).
  lia.
Qed.

Lemma suffix_call_wf : well_founded suffix_call.
Proof.
  assert (H : forall k n, n < k -> Acc suffix_call n).
  { intros k. destruct (Z_lt_le_dec k 0) as [Hk | Hk].
    - intros n Hn. constructor. intros m Hm.
      apply suffix_call_smaller in Hm as Hm'. destruct Hm as [? _]. lia.
    - revert k Hk. apply (natlike_ind (fun k => forall n, n < k -> Acc suffix_call n)).
      + intros n Hn. constructor. intros m [? _]. lia.
      + intros k Hk IH n Hn. constructor. intros m Hm.
        apply IH. apply suffix_call_smaller in Hm. lia. }
  intros n. apply (H (n + 1)). lia.
Qed.

Equations generate_letter_suffix (num : Z) : result string by wf (Z.to_nat num) lt :=
generate_letter_suffix num with Z_lt_dec num 26 := {
  | left _ => chr (ord_a + num)
  | right _ =>
      mbind (fun prefix => mbind (fun letter => Ok (prefix +:+ letter))
                                 (chr (ord_a + num mod 26)))
            (generate_letter_suffix (num / 26 - 1)) }.
Next Obligation.
  intros num Hge _.
  assert (Hcall : suffix_call (num / 26 - 1) num) by (split; [lia | reflexivity]).
  apply suffix_call_smaller in Hcall. lia.
Qed.

(** ** Stream points *)

(** The dictionary built for a point assigned to a stream.  The key
    ["index"] is absent ([None]) until the points of the stream are sorted;
    [old_number] and [new_number] hold Python's [None] as [None]. *)
Record StreamPoint : Type := mkStreamPoint {
  point_id : Z;
  distance : Q;
  old_number : option string;
  new_number : option string;
  index : option Z }.

Definition set_new_number (v : option string) (p : StreamPoint) : StreamPoint :=
  mkStreamPoint (point_id p) (distance p) (old_number p) v (index p).

Definition set_index (i : Z) (p : StreamPoint) : StreamPoint :=
  mkStreamPoint (point_id p) (distance p) (old_number p) (new_number p) (Some i).

(** [len(l)] *)
Definition len {A} (l : list A) : Z := Z.of_nat (length l).

(** The position that [l[i]] denotes: a negative [i] counts from the end;
    outside the list there is none. *)
Definition position {A} (l : list A) (i : Z) : option nat :=
  let k := if i <? 0 then i + len l else i in
  if (0 <=? k) && (k <? len l) then Some (Z.to_nat k) else None.

(** [l[i]], raising [IndexError] outside the list *)
Definition getitem {A} (l : list A) (i : Z) : result A :=
  match position l i with
  | Some k => match l !! k with Some x => Ok x | None => Raise IndexError end
  | None => Raise IndexError
  end.

(** [point["index"]] *)
Definition get_index (p : StreamPoint) : result Z :=
  match index p with Some i => Ok i | None => Raise KeyError end.

(** [point["old_number"][:-1]]: slicing [None] raises [TypeError] *)
Definition old_number_base (p : StreamPoint) : result string :=
  match old_number p with
  | Some s => Ok (strip_last s)
  | None => Raise TypeError
  end.

(** [stream_points[i]["new_number"] = v]: the dictionary at position [i] is
    updated in place, the list keeps its length. *)
Definition assign_new_number (stream_points : list StreamPoint) (i : Z) (v : string)
  : result (list StreamPoint) :=
  match position stream_points i with
  | Some k =>
      match stream_points !! k with
      | Some p => Ok (<[k := set_new_number (Some v) p]> stream_points)
      | None => Raise IndexError
      end
  | None => Raise IndexError
  end.

(** ** The Sequencer *)

Definition numerate_points_before_old (stream_points old_points : list StreamPoint)
  : result (list StreamPoint) :=
  first ← getitem old_points 0;
  first_old_index ← get_index first;
  if 0 <? first_old_index then
    for_each (fun sp i => assign_new_number sp i (str (i + 1) +:+ "Pnowy"))
             (range first_old_index) stream_points
  else Ok stream_points.

Definition numerate_points_after_old (stream_points old_points : list StreamPoint)
  : result (list StreamPoint) :=
  last ← getitem old_points (-1);
  last_old_index ← get_index last;
  if last_old_index <? len stream_points - 1 then
    base ← old_number_base last;
    last_base_number ← int base;
    for_each (fun sp i =>
                let offset := i - last_old_index in
                let new_number := last_base_number + offset in
                assign_new_number sp i (str new_number +:+ "P"))
             (range2 (last_old_index + 1) (len stream_points)) stream_points
  else Ok stream_points.

(** The body of the loop of [numerate_points_between_old] over the positions
    [i] of [old_points]. *)
Definition between_iteration (old_points stream_points : list StreamPoint) (i : Z)
  : result (list StreamPoint) :=
  current_old_point ← getitem old_points i;
  current_old_index ← get_index current_old_point;
  next_old_point ← getitem old_points (i + 1);
  next_old_index ← get_index next_old_point;
  let points_between_count := next_old_index - current_old_index - 1 in
  if 0 <? points_between_count then
    base_number ← old_number_base current_old_point;
    for_each (fun sp j =>
                letter_suffix ← generate_letter_suffix j;
                let point_index := current_old_index + j + 1 in
                assign_new_number sp point_index (base_number +:+ "P" +:+ letter_suffix))
             (range points_between_count) stream_points
  else Ok stream_points.

Definition numerate_points_between_old (stream_points old_points : list StreamPoint)
  : result (list StreamPoint) :=
  for_each (between_iteration old_points) (range (len old_points - 1)) stream_points.

(** The body of the loop of [numerate_points] for one stream. *)
Definition numerate_stream (stream_points old_points : list StreamPoint)
  : result (list StreamPoint) :=
  match old_points with
  | [] =>
      Ok (imap (fun i point => set_new_number (Some (str (Z.of_nat i + 1) +:+ "P")) point)
               stream_points)
  | _ =>
      sp1 ← numerate_points_before_old stream_points old_points;
      sp2 ← numerate_points_between_old sp1 old_points;
      numerate_points_after_old sp2 old_points
  end.

(** [numerate_points]: every stream of [streams_points] is numbered with the
    old points recorded for its mark ([stream_old_points] is a
    [defaultdict], a missing mark reads as the empty list).  The items are
    visited once each; the order of the visits does not change the
    outcome, since an iteration only touches the list of its own mark. *)
Definition numerate_points
    (streams_points stream_old_points : gmap string (list StreamPoint))
  : result (gmap string (list StreamPoint)) :=
  except_RuntimeError
    (for_each (fun (st : gmap string (list StreamPoint)) '(stream_mark, stream_points) =>
                 let old_points := stream_old_points !!! stream_mark in
                 numbered ← numerate_stream stream_points old_points;
                 Ok (<[stream_mark := numbered]> st))
              (map_to_list streams_points) streams_points).

(** ** Geometry

    QGIS stores coordinates as doubles.  The numerator never computes with
    them itself: it compares vertices for equality and hands geometries to
    the geometry service.  A vertex is therefore modelled as a pair of
    integers (a point of a fixed grid). *)

Definition QgsPointXY : Type := Z * Z.

Inductive QgsGeometry : Type :=
| NullGeometry
| LineString (vertices : list QgsPointXY)
| MultiLineString (parts : list (list QgsPointXY)).

#[global] Instance QgsGeometry_eq_dec : EqDecision QgsGeometry.
Proof. solve_decision. Defined.

Definition isEmpty (g : QgsGeometry) : bool :=
  match g with
  | NullGeometry => true
  | LineString vertices => bool_decide (vertices = [])
  | MultiLineString parts => forallb (fun part => bool_decide (part = [])) parts
  end.

Definition isMultipart (g : QgsGeometry) : bool :=
  match g with MultiLineString _ => true | _ => false end.

(** Only the first part of a multi-part geometry is retained; a geometry
    without parts is left as it is. *)
Definition convertToSingleType (g : QgsGeometry) : QgsGeometry :=
  match g with
  | MultiLineString (part :: _) => LineString part
  | _ => g
  end.

(** The Python binding raises on a null geometry ([ValueError]) and on a
    geometry that is not a single line ([TypeError]). *)
Definition asPolyline (g : QgsGeometry) : result (list QgsPointXY) :=
  match g with
  | LineString vertices => Ok vertices
  | NullGeometry => Raise ValueError
  | MultiLineString _ => Raise TypeError
  end.

Definition fromPolylineXY (vertices : list QgsPointXY) : QgsGeometry :=
  LineString vertices.

(** The value of an attribute of a feature: QGIS's [NULL], Python's [None],
    or a text. *)
Inductive attribute : Type :=
| NULL
| PyNone
| Text (s : string).

Record StreamFeature : Type := mkStreamFeature {
  stream_mark_attribute : attribute;
  stream_geometry : QgsGeometry }.

(** A point feature; [point_geometry] is [None] for an empty geometry. *)
Record PointFeature : Type := mkPointFeature {
  point_geometry : option QgsPointXY;
  point_old_number : attribute }.

(** The services that the numerator takes from QGIS and that are left
    abstract: the merge of a group of lines, the query of the spatial index
    of the points with the bounding box of a geometry, the incidence test
    against the buffered line and the arc length of a point on a line. *)
Class GeometryService : Type := {
  (** [QgsGeometry.mergeLines(QgsGeometry.unaryUnion(gs))] *)
  unaryUnion_mergeLines : list QgsGeometry -> QgsGeometry;
  (** [point_index.intersects(g.boundingBox())] *)
  index_intersects : QgsGeometry -> list Z;
  (** [point_geom.intersects(g.buffer(0.0000001, 5))] *)
  intersects_buffered : QgsPointXY -> QgsGeometry -> bool;
  (** [g.lineLocatePoint(point_geom)] *)
  lineLocatePoint : QgsGeometry -> QgsPointXY -> Q }.

(** ** The Geometry Unifier *)

(** The three dictionaries filled by the first loop of
    [union_stream_geometries]; all three are [defaultdict]s. *)
Record collected : Type := mkCollected {
  streams_geoms : gmap string (list QgsGeometry);
  stream_start_points : gmap string (gset QgsPointXY);
  stream_end_points : gmap string (gset QgsPointXY) }.

Definition collected_empty : collected := mkCollected ∅ ∅ ∅.

(** [stream_mark is None or stream_mark == NULL or stream_mark == ""] *)
Definition valid_mark (a : attribute) : option string :=
  match a with
  | Text s => if decide (s = "") then None else Some s
  | _ => None
  end.

(** The body of the first loop. *)
Definition collect_stream (acc : collected) (stream : StreamFeature) : result collected :=
  match valid_mark (stream_mark_attribute stream) with
  | None => Ok acc
  | Some stream_mark =>
      let stream_geom := stream_geometry stream in
      if isEmpty stream_geom then Ok acc
      else
        let stream_geom :=
          if isMultipart stream_geom then convertToSingleType stream_geom
          else stream_geom in
        stream_polyline ← asPolyline stream_geom;
        if len stream_polyline <? 2 then Ok acc
        else
          first ← getitem stream_polyline 0;
          last ← getitem stream_polyline (-1);
          Ok (mkCollected
                (<[stream_mark := (streams_geoms acc !!! stream_mark) ++ [stream_geom]]>
                   (streams_geoms acc))
                (<[stream_mark := (stream_start_points acc !!! stream_mark) ∪ {[first]}]>
                   (stream_start_points acc))
                (<[stream_mark := (stream_end_points acc !!! stream_mark) ∪ {[last]}]>
                   (stream_end_points acc)))
  end.

Section Pipeline.
Context {service : GeometryService}.

(** The body of the second loop: the geometry stored for one mark. *)
Definition merge_group (stream_geometries : list QgsGeometry) : QgsGeometry :=
  if decide (len stream_geometries = 1) then
    match stream_geometries with
    | g :: _ => g
    | [] => NullGeometry
    end
  else
    let merged_geom := unaryUnion_mergeLines stream_geometries in
    if isMultipart merged_geom then convertToSingleType merged_geom else merged_geom.

(** The body of the third loop: the direction check of one mark. *)
Definition correct_direction (ends : gmap string (gset QgsPointXY))
    (unified : gmap string QgsGeometry) (item : string * QgsGeometry)
  : result (gmap string QgsGeometry) :=
  let '(stream_mark, unified_geom) := item in
  unified_polyline ← asPolyline unified_geom;
  unified_start_point ← getitem unified_polyline 0;
  if decide (unified_start_point ∈ ends !!! stream_mark) then
    let reversed_polyline := reverse unified_polyline in
    Ok (<[stream_mark := fromPolylineXY reversed_polyline]> unified)
  else Ok unified.

(** [union_stream_geometries].  The second loop stores one geometry for each
    mark of [streams_geoms] and cannot raise; the third loop replaces values
    of the dictionary it iterates over, one key at a time. *)
Definition union_stream_geometries (streams : list StreamFeature)
  : result (gmap string QgsGeometry) :=
  except_RuntimeError
    (acc ← for_each collect_stream streams collected_empty;
     let unified := merge_group <$> streams_geoms acc in
     for_each (correct_direction (stream_end_points acc)) (map_to_list unified) unified).

(** ** The Point Assigner *)

(** The old number of a point as the assigner reads it: a text that is not
    empty, otherwise [None]. *)
Definition read_old_number (a : attribute) : option string :=
  match a with
  | Text s => if decide (s = "") then None else Some s
  | _ => None
  end.

(** The body of the loop over the candidates of one stream. *)
Definition assign_candidate (point_features : gmap Z PointFeature)
    (stream_mark : string) (unified_geom : QgsGeometry)
    (streams_points : gmap string (list StreamPoint)) (point_id : Z)
  : result (gmap string (list StreamPoint)) :=
  match point_features !! point_id with
  | None => Raise KeyError
  | Some point_feat =>
      match point_geometry point_feat with
      | None => Ok streams_points
      | Some point_geom =>
          if negb (intersects_buffered point_geom unified_geom) then Ok streams_points
          else
            let distance := lineLocatePoint unified_geom point_geom in
            let point_old_number := read_old_number (point_old_number point_feat) in
            let point_new_number := point_old_number in
            let stream_point :=
              mkStreamPoint point_id distance point_old_number point_new_number None in
            Ok (<[stream_mark := (streams_points !!! stream_mark) ++ [stream_point]]>
                  streams_points)
      end
  end.

(** The body of the loop over the unified streams. *)
Definition assign_stream (point_features : gmap Z PointFeature)
    (streams_points : gmap string (list StreamPoint)) (item : string * QgsGeometry)
  : result (gmap string (list StreamPoint)) :=
  let '(stream_mark, unified_geom) := item in
  if isEmpty unified_geom then Ok streams_points
  else
    let point_candidate_ids := index_intersects unified_geom in
    for_each (assign_candidate point_features stream_mark unified_geom)
             point_candidate_ids streams_points.

End Pipeline.

(** [stream_points.sort(key=itemgetter("distance"))]: the sort is stable and
    compares keys with [<] only. *)
Definition distance_lt (p q : StreamPoint) : bool :=
  negb (Qle_bool (distance q) (distance p)).

Fixpoint insert_by_distance (p : StreamPoint) (l : list StreamPoint) : list StreamPoint :=
  match l with
  | [] => [p]
  | q :: l' => if distance_lt q p then q :: insert_by_distance p l' else p :: l
  end.

Definition sort_by_distance (l : list StreamPoint) : list StreamPoint :=
  foldr insert_by_distance [] l.

(** [for i, stream_point in enumerate(stream_points): stream_point["index"] = i] *)
Definition index_points (stream_points : list StreamPoint) : list StreamPoint :=
  imap (fun i stream_point => set_index (Z.of_nat i) stream_point) stream_points.

(** The points appended to [stream_old_points]: those whose ["old_number"]
    is not [None], in the order of the stream. *)
Definition has_old_number (p : StreamPoint) : Prop := old_number p <> None.

#[global] Instance has_old_number_dec (p : StreamPoint) : Decision (has_old_number p).
Proof. unfold has_old_number. apply _. Defined.

Definition old_points_of (stream_points : list StreamPoint) : list StreamPoint :=
  filter has_old_number stream_points.

(** The second loop of [assign_points_to_streams]: every list is sorted and
    indexed, and its old points are recorded.  The result is the pair
    [(streams_points, stream_old_points)]. *)
Definition sort_and_index (assigned : gmap string (list StreamPoint))
  : gmap string (list StreamPoint) * gmap string (list StreamPoint) :=
  let streams_points := (fun l => index_points (sort_by_distance l)) <$> assigned in
  (streams_points, old_points_of <$> streams_points).

(** [assign_points_to_streams]: the first loop fills [streams_points], the
    second is [sort_and_index]. *)
Definition assign_points_to_streams {service : GeometryService}
    (unified : gmap string QgsGeometry) (point_features : gmap Z PointFeature)
  : result (gmap string (list StreamPoint) * gmap string (list StreamPoint)) :=
  except_RuntimeError
    (assigned ← for_each (assign_stream point_features) (map_to_list unified)
                         (∅ : gmap string (list StreamPoint));
     Ok (sort_and_index assigned)).

(** ** A geometry service on the integer grid

    A concrete service for the examples, over polylines whose segments are
    parallel to an axis and join grid points a few units apart.  There the
    services are exact: a grid point meets the line buffered by 1e-7 exactly
    when it lies on a segment, the arc length is the sum of the coordinate
    differences, and the bounding-box query returns the points inside the
    box of the vertices.  The merge joins consecutive fragments that share
    an end point and keeps fragments that do not touch as separate parts. *)

Definition on_segment (a b p : QgsPointXY) : bool :=
  let '(ax, ay) := a in
  let '(bx, by_) := b in
  let '(px, py) := p in
  ((bx - ax) * (py - ay) =? (by_ - ay) * (px - ax))
  && (Z.min ax bx <=? px) && (px <=? Z.max ax bx)
  && (Z.min ay by_ <=? py) && (py <=? Z.max ay by_).

Fixpoint on_polyline (vertices : list QgsPointXY) (p : QgsPointXY) : bool :=
  match vertices with
  | a :: rest =>
      match rest with
      | b :: _ => on_segment a b p || on_polyline rest p
      | [] => false
      end
  | [] => false
  end.

Definition grid_length (a b : QgsPointXY) : Z :=
  Z.abs (b.1 - a.1) + Z.abs (b.2 - a.2).

Fixpoint grid_locate (vertices : list QgsPointXY) (p : QgsPointXY) : Z :=
  match vertices with
  | a :: rest =>
      match rest with
      | b :: _ =>
          if on_segment a b p then grid_length a p
          else grid_length a b + grid_locate rest p
      | [] => 0
      end
  | [] => 0
  end.

Definition grid_vertices (g : QgsGeometry) : list QgsPointXY :=
  match g with
  | NullGeometry => []
  | LineString vertices => vertices
  | MultiLineString parts => concat parts
  end.

Definition in_bounding_box (vertices : list QgsPointXY) (p : QgsPointXY) : bool :=
  match vertices with
  | [] => false
  | v :: vs =>
      let xmin := foldr (fun q m => Z.min q.1 m) v.1 vs in
      let xmax := foldr (fun q m => Z.max q.1 m) v.1 vs in
      let ymin := foldr (fun q m => Z.min q.2 m) v.2 vs in
      let ymax := foldr (fun q m => Z.max q.2 m) v.2 vs in
      (xmin <=? p.1) && (p.1 <=? xmax) && (ymin <=? p.2) && (p.2 <=? ymax)
  end.

Fixpoint chain_merge (current : list QgsPointXY) (fragments : list (list QgsPointXY))
  : list (list QgsPointXY) :=
  match fragments with
  | [] => [current]
  | f :: fragments' =>
      if decide (last current = head f) then chain_merge (current ++ tail f) fragments'
      else current :: chain_merge f fragments'
  end.

Definition grid_merge (gs : list QgsGeometry) : QgsGeometry :=
  match grid_vertices <$> gs with
  | [] => NullGeometry
  | f :: fragments =>
      match chain_merge f fragments with
      | [line] => LineString line
      | parts => MultiLineString parts
      end
  end.

(** The service over the points [points], given with their identifiers. *)
Definition grid_service (points : list (Z * QgsPointXY)) : GeometryService := {|
  unaryUnion_mergeLines := grid_merge;
  index_intersects g :=
    (filter (fun ip => in_bounding_box (grid_vertices g) ip.2 = true) points).*1;
  intersects_buffered p g := on_polyline (grid_vertices g) p;
  lineLocatePoint g p := inject_Z (grid_locate (grid_vertices g) p) |}.

(** * Properties *)

(** ** The result monad and loops *)

Lemma result_bind_Ok {A B} (r : result A) (f : A -> result B) (b : B) :
  r ≫= f = Ok b <-> exists a, r = Ok a /\ f a = Ok b.
Proof.
  destruct r as [a | e]; simpl; split.
  - eauto.
  - intros (a' & [= <-] & H). exact H.
  - discriminate.
  - intros (a' & [=] & _).
Qed.

Lemma for_each_app {S X} (body : S -> X -> result S) (xs ys : list X) (s : S) :
  for_each body (xs ++ ys) s = for_each body xs s ≫= for_each body ys.
Proof.
  revert s. induction xs as [| x xs IH]; intros s; simpl; [reflexivity |].
  destruct (body s x) as [s' | e]; simpl; [apply IH | reflexivity].
Qed.

Lemma for_each_fmap {S X Y} (body : S -> Y -> result S) (f : X -> Y) (xs : list X) (s : S) :
  for_each body (f <$> xs) s = for_each (fun s x => body s (f x)) xs s.
Proof.
  revert s. induction xs as [| x xs IH]; intros s; simpl; [reflexivity |].
  destruct (body s (f x)); simpl; [apply IH | reflexivity].
Qed.

(** Two bodies that agree on the elements of the list, in the states that
    satisfy an invariant of the first one, give the same loop. *)
Lemma for_each_ext_inv {S X} (I : S -> Prop) (body body' : S -> X -> result S)
    (xs : list X) (s : S) :
  I s ->
  (forall s x s', x ∈ xs -> I s -> body s x = Ok s' -> I s') ->
  (forall s x, x ∈ xs -> I s -> body s x = body' s x) ->
  for_each body xs s = for_each body' xs s.
Proof.
  revert s. induction xs as [| x xs IH]; intros s Hs Hinv Hext; simpl; [reflexivity |].
  rewrite <- (Hext s x) by (auto; left).
  destruct (body s x) as [s' | e] eqn:Hb; simpl; [| reflexivity].
  apply IH.
  - eapply Hinv; [left | exact Hs | exact Hb].
  - intros s0 x0 s0' Hx0. apply Hinv. by right.
  - intros s0 x0 Hx0. apply Hext. by right.
Qed.

Lemma for_each_ext {S X} (body body' : S -> X -> result S) (xs : list X) (s : S) :
  (forall s x, x ∈ xs -> body s x = body' s x) ->
  for_each body xs s = for_each body' xs s.
Proof.
  intros H. apply (for_each_ext_inv (fun _ => True)); auto.
Qed.

(** ** The letter suffix *)

Lemma generate_letter_suffix_step (num : Z) :
  generate_letter_suffix num =
    if Z_lt_dec num 26 then chr (ord_a + num)
    else prefix ← generate_letter_suffix (num / 26 - 1);
         letter ← chr (ord_a + num mod 26);
         Ok (prefix +:+ letter).
Proof.
  rewrite (generate_letter_suffix_equation_1 num).
  destruct (Z_lt_dec num 26); reflexivity.
Qed.

(** The single letter at offset [n] from ["a"]. *)
Definition letter (n : Z) : string :=
  String (ascii_of_N (Z.to_N (ord_a + n))) EmptyString.

Lemma chr_letter (n : Z) : 0 <= n -> chr (ord_a + n) = Ok (letter n).
Proof.
  intros Hn. unfold chr, letter, ord_a.
  destruct (97 + n <? 0) eqn:Hneg; [lia | reflexivity].
Qed.

Lemma suffix_call_Acc (num : Z) : Acc suffix_call num.
Proof. apply suffix_call_wf. Qed.

Lemma generate_letter_suffix_returns (num : Z) :
  0 <= num -> exists s, generate_letter_suffix num = Ok s /\ s <> "".
Proof.
  induction (suffix_call_Acc num) as [num _ IH]. intros Hnum.
  rewrite generate_letter_suffix_step.
  destruct (Z_lt_dec num 26) as [Hlt | Hge].
  - rewrite chr_letter by done. eexists; split; [reflexivity | discriminate].
  - assert (Hcall : suffix_call (num / 26 - 1) num) by (split; [lia | reflexivity]).
    destruct (IH _ Hcall) as (prefix & -> & Hne).
    { apply suffix_call_smaller in Hcall. lia. }
    simpl. rewrite chr_letter by (apply Z.mod_pos_bound; lia). simpl.
    eexists; split; [reflexivity |].
    destruct prefix; [done | discriminate].
Qed.

(** The suffix as a total function on the arguments that return. *)
Definition letter_suffix (num : Z) : string :=
  match generate_letter_suffix num with
  | Ok s => s
  | Raise _ => ""
  end.

Lemma generate_letter_suffix_total (num : Z) :
  0 <= num -> generate_letter_suffix num = Ok (letter_suffix num).
Proof.
  intros Hnum. unfold letter_suffix.
  destruct (generate_letter_suffix_returns num Hnum) as (s & -> & _). reflexivity.
Qed.

(** C2. The letter suffix of a natural number [n] below 26 is the single
    letter at offset [n] from ["a"]; from 26 on it is the suffix of
    [n / 26 - 1] followed by the letter of [n mod 26].  In particular the
    suffixes of 0, 25, 26, 27, 701 and 702 are ["a"], ["z"], ["aa"], ["ab"],
    ["zz"] and ["aaa"]. *)
Theorem letter_suffix_law (n : nat) :
  let num := Z.of_nat n in
  (if decide (num < 26) then generate_letter_suffix num = Ok (letter num)
   else exists prefix : string,
       generate_letter_suffix (num / 26 - 1) = Ok prefix
       /\ generate_letter_suffix (num mod 26) = Ok (letter (num mod 26))
       /\ generate_letter_suffix num = Ok (prefix +:+ letter (num mod 26)))
  /\ generate_letter_suffix 0 = Ok "a"
  /\ generate_letter_suffix 25 = Ok "z"
  /\ generate_letter_suffix 26 = Ok "aa"
  /\ generate_letter_suffix 27 = Ok "ab"
  /\ generate_letter_suffix 701 = Ok "zz"
  /\ generate_letter_suffix 702 = Ok "aaa".
Proof.
  intros num. split; [| repeat split; vm_compute; reflexivity].
  assert (Hnum : 0 <= num) by (unfold num; lia).
  case_decide as Hlt.
  - rewrite generate_letter_suffix_step.
    destruct (Z_lt_dec num 26); [| lia]. by apply chr_letter.
  - assert (Hmod : 0 <= num mod 26 < 26) by (apply Z.mod_pos_bound; lia).
    assert (Hcall : suffix_call (num / 26 - 1) num) by (split; [lia | reflexivity]).
    apply suffix_call_smaller in Hcall.
    destruct (generate_letter_suffix_returns (num / 26 - 1)) as (prefix & Hp & _);
      [lia |].
    exists prefix. split; [exact Hp |]. split.
    + rewrite generate_letter_suffix_step.
      destruct (Z_lt_dec (num mod 26) 26); [| lia]. apply chr_letter. lia.
    + rewrite (generate_letter_suffix_step num).
      destruct (Z_lt_dec num 26); [lia |].
      rewrite Hp. simpl. rewrite chr_letter by lia. reflexivity.
Qed.

(** C10. The recursion of the letter suffix terminates on every integer
    that is not negative: from 26 on, the argument [num / 26 - 1] of the
    recursive call is not negative and strictly below [num], the calls
    started from [num] are well founded, and the call returns a string
    (no exception), which is not empty. *)
Theorem generate_letter_suffix_terminates (num : Z) (Hnum : 0 <= num) :
  (num < 26 \/ 0 <= num / 26 - 1 < num)
  /\ Acc suffix_call num
  /\ exists s : string, generate_letter_suffix num = Ok s /\ s <> "".
Proof.
  split; [| split].
  - destruct (Z_lt_dec num 26) as [Hlt | Hge]; [by left | right].
    apply (suffix_call_smaller (num / 26 - 1) num). split; [lia | reflexivity].
  - apply suffix_call_Acc.
  - by apply generate_letter_suffix_returns.
Qed.

Lemma generate_letter_suffix_terminates_witness :
  0 <= 18277
  /\ ((18277 < 26 \/ 0 <= 18277 / 26 - 1 < 18277)
      /\ Acc suffix_call 18277
      /\ exists s : string, generate_letter_suffix 18277 = Ok s /\ s <> "").
Proof.
  split; [lia | apply (generate_letter_suffix_terminates 18277); lia].
Defined.

(** ** Lists indexed by Python integers *)

Lemma len_app {A} (l1 l2 : list A) : len (l1 ++ l2) = len l1 + len l2.
Proof. unfold len. rewrite length_app. lia. Qed.

Lemma len_cons {A} (x : A) (l : list A) : len (x :: l) = 1 + len l.
Proof. unfold len. simpl. lia. Qed.

Lemma len_nonneg {A} (l : list A) : 0 <= len l.
Proof. unfold len. lia. Qed.

Lemma position_in_range {A} (l : list A) (i : Z) :
  0 <= i < len l -> position l i = Some (Z.to_nat i).
Proof.
  intros Hi. unfold position.
  destruct (i <? 0) eqn:Hneg; [lia |].
  destruct (0 <=? i) eqn:H0; [| lia].
  destruct (i <? len l) eqn:H1; [reflexivity | lia].
Qed.

Lemma getitem_nat {A} (l : list A) (k : nat) (x : A) :
  l !! k = Some x -> getitem l (Z.of_nat k) = Ok x.
Proof.
  intros Hk. unfold getitem.
  rewrite position_in_range.
  - by rewrite Nat2Z.id, Hk.
  - apply lookup_lt_Some in Hk. unfold len. lia.
Qed.

Lemma getitem_head {A} (x : A) (l : list A) : getitem (x :: l) 0 = Ok x.
Proof. by apply (getitem_nat (x :: l) 0). Qed.

Lemma getitem_tail {A} (x : A) (l : list A) (i : Z) :
  0 <= i -> getitem (x :: l) (i + 1) = getitem l i.
Proof.
  intros Hi. unfold getitem, position. rewrite len_cons.
  destruct (i <? 0) eqn:H0; [lia |].
  destruct (i + 1 <? 0) eqn:H1; [lia |].
  destruct (0 <=? i) eqn:H2; [| lia].
  destruct (0 <=? i + 1) eqn:H3; [| lia].
  destruct (i <? len l) eqn:H4, (i + 1 <? 1 + len l) eqn:H5; try lia; simpl;
    [| reflexivity].
  replace (Z.to_nat (i + 1)) with (S (Z.to_nat i)) by lia. reflexivity.
Qed.

Lemma getitem_last {A} (l : list A) (x : A) : getitem (l ++ [x]) (-1) = Ok x.
Proof.
  unfold getitem, position. rewrite len_app. change (len [x]) with 1.
  pose proof (len_nonneg l).
  destruct (-1 <? 0) eqn:H0; [| lia].
  destruct (0 <=? -1 + (len l + 1)) eqn:H1; [| lia].
  destruct (-1 + (len l + 1) <? len l + 1) eqn:H2; [| lia]. simpl.
  replace (Z.to_nat (-1 + (len l + 1))) with (length l + 0)%nat by (unfold len; lia).
  by rewrite lookup_app_r, Nat.add_comm, Nat.add_sub by lia.
Qed.

Lemma getitem_nil {A} (i : Z) : getitem (@nil A) i = Raise IndexError.
Proof.
  unfold getitem, position. change (len (@nil A)) with 0.
  destruct (i <? 0) eqn:H0.
  - destruct (0 <=? i + 0) eqn:H1; [lia | reflexivity].
  - destruct (0 <=? i) eqn:H1; [| reflexivity].
    destruct (i <? 0) eqn:H2; [lia | reflexivity].
Qed.

(** ** Writes of new numbers *)

(** The effect of a sequence of assignments [stream_points[i]["new_number"]
    = v] with indices inside the list. *)
Definition write (l : list StreamPoint) (iv : Z * string) : list StreamPoint :=
  alter (set_new_number (Some iv.2)) (Z.to_nat iv.1) l.

Definition apply_writes (W : list (Z * string)) (l : list StreamPoint)
  : list StreamPoint :=
  foldl write l W.

Lemma length_write (l : list StreamPoint) (iv : Z * string) :
  length (write l iv) = length l.
Proof. apply length_alter. Qed.

Lemma length_apply_writes (W : list (Z * string)) (l : list StreamPoint) :
  length (apply_writes W l) = length l.
Proof.
  revert l. induction W as [| iv W IH]; intros l; simpl; [reflexivity |].
  unfold apply_writes in *. simpl. by rewrite IH, length_write.
Qed.

Lemma len_apply_writes (W : list (Z * string)) (l : list StreamPoint) :
  len (apply_writes W l) = len l.
Proof. unfold len. by rewrite length_apply_writes. Qed.

Lemma apply_writes_app (W1 W2 : list (Z * string)) (l : list StreamPoint) :
  apply_writes (W1 ++ W2) l = apply_writes W2 (apply_writes W1 l).
Proof. apply foldl_app. Qed.

Lemma assign_new_number_write (l : list StreamPoint) (i : Z) (v : string) :
  0 <= i < len l -> assign_new_number l i v = Ok (write l (i, v)).
Proof.
  intros Hi. unfold assign_new_number. rewrite position_in_range by done.
  destruct (lookup_lt_is_Some_2 l (Z.to_nat i)) as [p Hp]; [unfold len in Hi; lia |].
  rewrite Hp. unfold write. simpl. f_equal.
  apply list_eq. intros k.
  destruct (decide (Z.to_nat i = k)) as [<- | Hne].
  - rewrite list_lookup_alter_eq, list_lookup_insert_eq by (by eapply lookup_lt_Some).
    by rewrite Hp.
  - by rewrite list_lookup_alter_ne, list_lookup_insert_ne by done.
Qed.

(** A loop of assignments whose indices stay inside the list. *)
Lemma for_each_assign {X} (target : X -> Z) (value : X -> string) (xs : list X)
    (l : list StreamPoint) :
  (forall x, x ∈ xs -> 0 <= target x < len l) ->
  for_each (fun sp x => assign_new_number sp (target x) (value x)) xs l
  = Ok (apply_writes ((fun x => (target x, value x)) <$> xs) l).
Proof.
  revert l. induction xs as [| x xs IH]; intros l Hin; simpl; [reflexivity |].
  rewrite assign_new_number_write by (apply Hin; left). simpl.
  rewrite IH; [reflexivity |].
  intros y Hy. unfold len. rewrite length_write. apply Hin. by right.
Qed.

(** ** The writes of the three zones *)

(** The index and the base of an old point, read as total functions. *)
Definition order_index (p : StreamPoint) : Z := default 0 (index p).
Definition old_base (p : StreamPoint) : string := strip_last (default "" (old_number p)).

(** An old point of a stream of [n] points: it has an index inside the
    stream and an old number. *)
Definition old_point_ok (n : Z) (o : StreamPoint) : Prop :=
  (exists k, index o = Some k /\ 0 <= k < n) /\ (exists s, old_number o = Some s).

Definition before_writes (old_points : list StreamPoint) : list (Z * string) :=
  match old_points with
  | first :: _ => (fun i => (i, str (i + 1) +:+ "Pnowy")) <$> seqZ 0 (order_index first)
  | [] => []
  end.

Definition pair_writes (current next : StreamPoint) : list (Z * string) :=
  (fun j => (order_index current + j + 1, old_base current +:+ "P" +:+ letter_suffix j))
    <$> seqZ 0 (order_index next - order_index current - 1).

Fixpoint between_writes (old_points : list StreamPoint) : list (Z * string) :=
  match old_points with
  | current :: rest =>
      match rest with
      | next :: _ => pair_writes current next ++ between_writes rest
      | [] => []
      end
  | [] => []
  end.

Definition after_writes (base last_index n : Z) : list (Z * string) :=
  (fun i => (i, str (base + (i - last_index)) +:+ "P"))
    <$> seqZ (last_index + 1) (n - (last_index + 1)).

Lemma get_index_ok (n : Z) (o : StreamPoint) :
  old_point_ok n o -> get_index o = Ok (order_index o) /\ 0 <= order_index o < n.
Proof.
  intros [(k & Hk & Hr) _]. unfold get_index, order_index. rewrite Hk. by split.
Qed.

Lemma old_number_base_ok (n : Z) (o : StreamPoint) :
  old_point_ok n o -> old_number_base o = Ok (old_base o).
Proof.
  intros [_ (s & Hs)]. unfold old_number_base, old_base. by rewrite Hs.
Qed.

Lemma seqZ_nonpos (m n : Z) : n <= 0 -> seqZ m n = [].
Proof.
  intros Hn. unfold seqZ. replace (Z.to_nat n) with 0%nat by lia. reflexivity.
Qed.

Lemma numerate_points_before_old_writes (sp old_points : list StreamPoint) :
  old_points <> [] ->
  Forall (old_point_ok (len sp)) old_points ->
  numerate_points_before_old sp old_points = Ok (apply_writes (before_writes old_points) sp).
Proof.
  intros Hne Hok. destruct old_points as [| first rest]; [done |].
  apply Forall_cons in Hok as [Hfirst _].
  destruct (get_index_ok _ _ Hfirst) as [Hidx Hrange].
  unfold numerate_points_before_old. rewrite getitem_head. simpl. rewrite Hidx. simpl.
  destruct (0 <? order_index first) eqn:Hpos.
  - unfold range. rewrite for_each_assign; [reflexivity |].
    intros i Hi. apply elem_of_seqZ in Hi. lia.
  - rewrite seqZ_nonpos by lia. reflexivity.
Qed.

Lemma between_iteration_writes (sp old_points : list StreamPoint) (i : Z)
    (current next : StreamPoint) :
  getitem old_points i = Ok current ->
  getitem old_points (i + 1) = Ok next ->
  old_point_ok (len sp) current -> old_point_ok (len sp) next ->
  between_iteration old_points sp i = Ok (apply_writes (pair_writes current next) sp).
Proof.
  intros Hcur Hnext Hc Hn.
  destruct (get_index_ok _ _ Hc) as [Hci Hcr], (get_index_ok _ _ Hn) as [Hni Hnr].
  unfold between_iteration. rewrite Hcur. simpl. rewrite Hci. simpl.
  rewrite Hnext. simpl. rewrite Hni. simpl. unfold pair_writes.
  destruct (0 <? order_index next - order_index current - 1) eqn:Hpos.
  - rewrite (old_number_base_ok _ _ Hc). simpl. unfold range.
    rewrite <- for_each_assign.
    + apply for_each_ext. intros s j Hj. apply elem_of_seqZ in Hj.
      rewrite generate_letter_suffix_total by lia. reflexivity.
    + intros j Hj. apply elem_of_seqZ in Hj. lia.
  - rewrite seqZ_nonpos by lia. reflexivity.
Qed.

Lemma numerate_points_between_old_writes (sp old_points : list StreamPoint) :
  Forall (old_point_ok (len sp)) old_points ->
  numerate_points_between_old sp old_points = Ok (apply_writes (between_writes old_points) sp).
Proof.
  unfold numerate_points_between_old, range.
  revert sp. induction old_points as [| current rest IH]; intros sp Hok.
  - reflexivity.
  - apply Forall_cons in Hok as [Hcur Hrest].
    destruct rest as [| next rest'].
    + reflexivity.
    + pose proof Hrest as Hrest'. apply Forall_cons in Hrest' as [Hnext _].
      rewrite !len_cons.
      rewrite seqZ_cons by (pose proof (len_nonneg rest'); lia). simpl.
      rewrite (between_iteration_writes sp _ 0 current next);
        [| apply getitem_head | apply (getitem_tail current (next :: rest') 0); lia
         | done | done ].
      simpl. rewrite apply_writes_app.
      change (match rest' with [] => [] | next0 :: _ => _ end)
        with (between_writes (next :: rest')).
      rewrite <- (IH (apply_writes (pair_writes current next) sp))
        by (by rewrite len_apply_writes).
      replace (Z.succ 0) with (1 + 0) by lia.
      rewrite <- fmap_add_seqZ, for_each_fmap, len_cons.
      replace (Z.pred (1 + (1 + len rest') - 1)) with (1 + len rest' - 1) by lia.
      apply for_each_ext. intros s i Hi. apply elem_of_seqZ in Hi.
      unfold between_iteration.
      replace (1 + i) with (i + 1) by lia.
      rewrite !(getitem_tail current (next :: rest')) by lia. reflexivity.
Qed.

(** The parse that the after-zone performs: only when a point follows the
    last old point. *)
Definition after_base (n : Z) (last : StreamPoint) : result Z :=
  if order_index last <? n - 1 then int (old_base last) else Ok 0.

Lemma numerate_points_after_old_writes (sp old_points : list StreamPoint)
    (last : StreamPoint) :
  Forall (old_point_ok (len sp)) (old_points ++ [last]) ->
  numerate_points_after_old sp (old_points ++ [last])
  = base ← after_base (len sp) last;
    Ok (apply_writes (after_writes base (order_index last) (len sp)) sp).
Proof.
  intros Hok. apply Forall_app in Hok as [_ Hlast].
  apply Forall_inv in Hlast.
  destruct (get_index_ok _ _ Hlast) as [Hidx Hrange].
  unfold numerate_points_after_old, after_base. rewrite getitem_last. simpl.
  rewrite Hidx. simpl.
  destruct (order_index last <? len sp - 1) eqn:Hpos.
  - rewrite (old_number_base_ok _ _ Hlast). simpl.
    destruct (int (old_base last)) as [base | e]; simpl; [| reflexivity].
    unfold range2, after_writes. rewrite for_each_assign; [reflexivity |].
    intros i Hi. apply elem_of_seqZ in Hi. lia.
  - simpl. unfold after_writes. rewrite seqZ_nonpos by lia. reflexivity.
Qed.

(** All the writes of one stream, in the order of the three zones. *)
Definition zone_writes (base n : Z) (old_points : list StreamPoint) (last : StreamPoint)
  : list (Z * string) :=
  before_writes (old_points ++ [last])
  ++ between_writes (old_points ++ [last])
  ++ after_writes base (order_index last) n.

Lemma numerate_stream_writes (sp old_points : list StreamPoint) (last : StreamPoint) :
  Forall (old_point_ok (len sp)) (old_points ++ [last]) ->
  numerate_stream sp (old_points ++ [last])
  = base ← after_base (len sp) last;
    Ok (apply_writes (zone_writes base (len sp) old_points last) sp).
Proof.
  intros Hok. unfold numerate_stream.
  destruct (old_points ++ [last]) as [| o rest] eqn:Hold.
  { by destruct old_points. }
  rewrite <- Hold in *.
  rewrite numerate_points_before_old_writes by (done || by destruct old_points).
  simpl.
  rewrite numerate_points_between_old_writes by (by rewrite len_apply_writes).
  simpl.
  rewrite numerate_points_after_old_writes by (by rewrite !len_apply_writes).
  rewrite !len_apply_writes.
  destruct (after_base (len sp) last) as [base | e]; simpl; [| reflexivity].
  unfold zone_writes. by rewrite !apply_writes_app.
Qed.

(** *** What a sequence of writes leaves at a position *)

Lemma write_lookup_ne (l : list StreamPoint) (iv : Z * string) (k : nat) :
  Z.to_nat iv.1 <> k -> write l iv !! k = l !! k.
Proof. intros Hne. unfold write. by rewrite list_lookup_alter_ne. Qed.

Lemma apply_writes_lookup_notin (W : list (Z * string)) (l : list StreamPoint) (k : nat) :
  Forall (fun iv => 0 <= iv.1) W ->
  Z.of_nat k ∉ W.*1 ->
  apply_writes W l !! k = l !! k.
Proof.
  revert l. induction W as [| iv W IH]; intros l Hpos Hnotin; [reflexivity |].
  apply Forall_cons in Hpos as [Hiv Hpos].
  rewrite fmap_cons, not_elem_of_cons in Hnotin. destruct Hnotin as [Hne Hnotin].
  change (apply_writes (iv :: W) l) with (apply_writes W (write l iv)).
  rewrite IH by done. apply write_lookup_ne. lia.
Qed.

Lemma apply_writes_lookup_in (W : list (Z * string)) (l : list StreamPoint)
    (k : nat) (v : string) :
  Forall (fun iv => 0 <= iv.1) W ->
  NoDup W.*1 ->
  (Z.of_nat k, v) ∈ W ->
  apply_writes W l !! k = set_new_number (Some v) <$> l !! k.
Proof.
  revert l. induction W as [| iv W IH]; intros l Hpos Hnodup Hin.
  { by apply elem_of_nil in Hin. }
  apply Forall_cons in Hpos as [Hiv Hpos].
  rewrite fmap_cons in Hnodup. apply NoDup_cons in Hnodup as [Hfresh Hnodup].
  change (apply_writes (iv :: W) l) with (apply_writes W (write l iv)).
  apply elem_of_cons in Hin as [<- | Hin].
  - rewrite apply_writes_lookup_notin by done.
    unfold write. simpl. rewrite Nat2Z.id. apply list_lookup_alter_eq.
  - rewrite IH by done. f_equal. apply write_lookup_ne.
    intros Heq. apply Hfresh.
    replace iv.1 with (Z.of_nat k) by lia.
    change (Z.of_nat k) with ((Z.of_nat k, v).1). by apply list_elem_of_fmap_2.
Qed.

(** Writes change nothing but the new number. *)
Definition same_point (p q : StreamPoint) : Prop :=
  point_id q = point_id p /\ distance q = distance p
  /\ old_number q = old_number p /\ index q = index p.

Lemma apply_writes_same_point (W : list (Z * string)) (l : list StreamPoint)
    (k : nat) (q : StreamPoint) :
  apply_writes W l !! k = Some q -> exists p, l !! k = Some p /\ same_point p q.
Proof.
  revert l. induction W as [| iv W IH]; intros l Hq.
  { exists q. by repeat split. }
  change (apply_writes (iv :: W) l) with (apply_writes W (write l iv)) in Hq.
  destruct (IH _ Hq) as (p' & Hp' & Hsame).
  unfold write in Hp'. rewrite list_lookup_alter in Hp'.
  case_decide as Heq.
  - subst k. destruct (l !! Z.to_nat iv.1) as [p |] eqn:Hp; [| done].
    injection Hp' as <-. exists p. split; [done |].
    destruct Hsame as (? & ? & ? & ?). by repeat split.
  - by exists p'.
Qed.

(** *** Which positions the zones write *)

Lemma elem_of_before_writes (first : StreamPoint) (rest : list StreamPoint)
    (i : Z) (v : string) :
  (i, v) ∈ before_writes (first :: rest)
  <-> 0 <= i < order_index first /\ v = str (i + 1) +:+ "Pnowy".
Proof.
  unfold before_writes. rewrite list_elem_of_fmap. split.
  - intros (i' & [= -> ->] & Hi). apply elem_of_seqZ in Hi. split; [lia | done].
  - intros [Hi ->]. exists i. split; [done |]. apply elem_of_seqZ. lia.
Qed.

Lemma elem_of_pair_writes (current next : StreamPoint) (i : Z) (v : string) :
  (i, v) ∈ pair_writes current next
  <-> order_index current < i < order_index next
      /\ v = old_base current +:+ "P" +:+ letter_suffix (i - order_index current - 1).
Proof.
  unfold pair_writes. rewrite list_elem_of_fmap. split.
  - intros (j & [= -> ->] & Hj). apply elem_of_seqZ in Hj. split; [lia |].
    do 3 f_equal. lia.
  - intros [Hi ->]. exists (i - order_index current - 1). split.
    + f_equal. lia.
    + apply elem_of_seqZ. lia.
Qed.

Lemma elem_of_after_writes (base last_index n i : Z) (v : string) :
  (i, v) ∈ after_writes base last_index n
  <-> last_index < i < n /\ v = str (base + (i - last_index)) +:+ "P".
Proof.
  unfold after_writes. rewrite list_elem_of_fmap. split.
  - intros (i' & [= -> ->] & Hi). apply elem_of_seqZ in Hi. split; [lia | done].
  - intros [Hi ->]. exists i. split; [done |]. apply elem_of_seqZ. lia.
Qed.

Lemma fst_tagged_fmap {X} (f : X -> Z) (g : X -> string) (xs : list X) :
  ((fun x => (f x, g x)) <$> xs).*1 = f <$> xs.
Proof. rewrite <- list_fmap_compose. reflexivity. Qed.

Lemma NoDup_before_writes (old_points : list StreamPoint) :
  NoDup (before_writes old_points).*1.
Proof.
  destruct old_points as [| first rest]; [constructor |].
  unfold before_writes. rewrite fst_tagged_fmap, list_fmap_id. apply NoDup_seqZ.
Qed.

Lemma NoDup_pair_writes (current next : StreamPoint) :
  NoDup (pair_writes current next).*1.
Proof.
  unfold pair_writes. rewrite fst_tagged_fmap.
  apply NoDup_fmap_2; [| apply NoDup_seqZ]. intros x y. lia.
Qed.

Lemma NoDup_after_writes (base last_index n : Z) :
  NoDup (after_writes base last_index n).*1.
Proof.
  unfold after_writes. rewrite fst_tagged_fmap, list_fmap_id. apply NoDup_seqZ.
Qed.

Lemma elem_of_fst (W : list (Z * string)) (i : Z) :
  i ∈ W.*1 <-> exists v, (i, v) ∈ W.
Proof.
  rewrite list_elem_of_fmap. split.
  - intros ([i' v] & -> & H). by exists v.
  - intros (v & H). by exists (i, v).
Qed.

(** The old points of a stream are listed by increasing index. *)
Definition index_lt (o o' : StreamPoint) : Prop := order_index o < order_index o'.

Lemma between_writes_indices (current : StreamPoint) (rest : list StreamPoint) (top : Z) :
  StronglySorted index_lt (current :: rest) ->
  Forall (fun o => order_index o <= top) (current :: rest) ->
  NoDup (between_writes (current :: rest)).*1
  /\ (forall i, i ∈ (between_writes (current :: rest)).*1 -> order_index current < i < top)
  /\ (forall o, o ∈ current :: rest -> order_index o ∉ (between_writes (current :: rest)).*1).
Proof.
  revert current. induction rest as [| next rest IH]; intros current Hsorted Htop.
  { simpl. split; [constructor |]. split.
    - intros i H. by apply elem_of_nil in H.
    - intros o _ H. by apply elem_of_nil in H. }
  apply StronglySorted_inv in Hsorted as [Hsorted Hlt].
  apply Forall_cons in Htop as [Hcur Htop].
  destruct (IH next Hsorted Htop) as (Hnodup & Hbound & Hold).
  pose proof Hlt as Hlt'. apply Forall_cons in Hlt' as [Hcn _]. unfold index_lt in Hcn.
  pose proof Htop as Htop'. apply Forall_cons in Htop' as [Hnt _].
  change (between_writes (current :: next :: rest))
    with (pair_writes current next ++ between_writes (next :: rest)).
  rewrite fmap_app. split; [| split].
  - apply NoDup_app. split; [apply NoDup_pair_writes |]. split; [| done].
    intros i Hi Hi'. apply elem_of_fst in Hi as (v & Hv).
    apply elem_of_pair_writes in Hv. apply Hbound in Hi'. lia.
  - intros i Hi. apply elem_of_app in Hi as [Hi | Hi].
    + apply elem_of_fst in Hi as (v & Hv). apply elem_of_pair_writes in Hv. lia.
    + apply Hbound in Hi. lia.
  - intros o Ho Hi. apply elem_of_app in Hi as [Hi | Hi].
    + apply elem_of_fst in Hi as (v & Hv). apply elem_of_pair_writes in Hv.
      apply elem_of_cons in Ho as [-> | Ho]; [lia |].
      apply elem_of_cons in Ho as [-> | Ho]; [lia |].
      apply StronglySorted_inv in Hsorted as [_ Hnext].
      rewrite Forall_forall in Hnext. specialize (Hnext o Ho). unfold index_lt in Hnext.
      lia.
    + apply elem_of_cons in Ho as [-> | Ho].
      * apply Hbound in Hi. lia.
      * by apply (Hold o).
Qed.

Lemma pair_writes_between (front : list StreamPoint) (current next : StreamPoint)
    (back : list StreamPoint) (iv : Z * string) :
  iv ∈ pair_writes current next ->
  iv ∈ between_writes (front ++ current :: next :: back).
Proof.
  intros Hiv. induction front as [| o front IH].
  - simpl. apply elem_of_app. by left.
  - change ((o :: front) ++ current :: next :: back)
      with (o :: (front ++ current :: next :: back)).
    destruct (front ++ current :: next :: back) as [| o' rest] eqn:Heq.
    { by destruct front. }
    change (between_writes (o :: o' :: rest))
      with (pair_writes o o' ++ between_writes (o' :: rest)).
    apply elem_of_app. by right.
Qed.

Lemma sorted_last_max (old_points : list StreamPoint) (last : StreamPoint) :
  StronglySorted index_lt (old_points ++ [last]) ->
  Forall (fun o => order_index o <= order_index last) (old_points ++ [last]).
Proof.
  intros Hsorted. apply Forall_forall. intros o Ho.
  apply elem_of_app in Ho as [Ho | Ho].
  - assert (Hlt : index_lt o last).
    { eapply StronglySorted_app_1_elem_of; [exact Hsorted | exact Ho | left]. }
    unfold index_lt in Hlt. lia.
  - apply list_elem_of_singleton in Ho as ->. lia.
Qed.

Lemma zone_writes_wf (base n : Z) (old_points : list StreamPoint) (last : StreamPoint) :
  StronglySorted index_lt (old_points ++ [last]) ->
  Forall (old_point_ok n) (old_points ++ [last]) ->
  Forall (fun iv => 0 <= iv.1) (zone_writes base n old_points last)
  /\ NoDup (zone_writes base n old_points last).*1
  /\ (forall o, o ∈ old_points ++ [last] ->
        order_index o ∉ (zone_writes base n old_points last).*1).
Proof.
  intros Hsorted Hok. unfold zone_writes.
  pose proof (sorted_last_max _ _ Hsorted) as Hmax.
  destruct (old_points ++ [last]) as [| first rest] eqn:Hold.
  { by destruct old_points. }
  destruct (between_writes_indices first rest (order_index last) Hsorted Hmax)
    as (Hnodup & Hbound & Hnotold).
  assert (Hfirst : 0 <= order_index first).
  { apply Forall_cons in Hok as [H _]. apply get_index_ok in H. lia. }
  assert (Hmin : forall o, o ∈ first :: rest -> order_index first <= order_index o).
  { intros o Ho. apply elem_of_cons in Ho as [-> | Ho]; [lia |].
    apply StronglySorted_inv in Hsorted as [_ Hlt].
    rewrite Forall_forall in Hlt. specialize (Hlt o Ho). unfold index_lt in Hlt. lia. }
  assert (Hfm : order_index first <= order_index last).
  { rewrite Forall_forall in Hmax. apply Hmax. left. }
  assert (Hb : forall i, i ∈ (before_writes (first :: rest)).*1 ->
                         0 <= i < order_index first).
  { intros i Hi. apply elem_of_fst in Hi as (v & Hv).
    apply elem_of_before_writes in Hv. lia. }
  assert (Ha : forall i, i ∈ (after_writes base (order_index last) n).*1 ->
                         order_index last < i).
  { intros i Hi. apply elem_of_fst in Hi as (v & Hv).
    apply elem_of_after_writes in Hv. lia. }
  split; [| split].
  - apply Forall_forall. intros [i v] Hiv. simpl.
    assert (Hi : i ∈ (before_writes (first :: rest) ++ between_writes (first :: rest)
                      ++ after_writes base (order_index last) n).*1).
    { apply elem_of_fst. by exists v. }
    rewrite !fmap_app, !elem_of_app in Hi. destruct Hi as [Hi | [Hi | Hi]].
    + apply Hb in Hi. lia.
    + apply Hbound in Hi. lia.
    + apply Ha in Hi. lia.
  - rewrite !fmap_app. apply NoDup_app. split; [apply NoDup_before_writes |]. split.
    + intros i Hi Hi'. apply Hb in Hi. apply elem_of_app in Hi' as [Hi' | Hi'].
      * apply Hbound in Hi'. lia.
      * apply Ha in Hi'. lia.
    + apply NoDup_app. split; [done |]. split; [| apply NoDup_after_writes].
      intros i Hi Hi'. apply Hbound in Hi. apply Ha in Hi'. lia.
  - intros o Ho Hi. rewrite !fmap_app, !elem_of_app in Hi.
    pose proof (Hmin o Ho) as Hlo.
    assert (Hhi : order_index o <= order_index last).
    { rewrite Forall_forall in Hmax. by apply Hmax. }
    destruct Hi as [Hi | [Hi | Hi]].
    + apply Hb in Hi. lia.
    + by apply (Hnotold o).
    + apply Ha in Hi. lia.
Qed.

(** ** Indexed streams and their old points *)

(** The stream [l] indexed from [off] on. *)
Definition index_from (off : nat) (l : list StreamPoint) : list StreamPoint :=
  imap (fun i p => set_index (Z.of_nat (off + i)) p) l.

Lemma index_points_from (l : list StreamPoint) : index_points l = index_from 0 l.
Proof. reflexivity. Qed.

Lemma index_from_cons (off : nat) (p : StreamPoint) (l : list StreamPoint) :
  index_from off (p :: l) = set_index (Z.of_nat off) p :: index_from (S off) l.
Proof.
  unfold index_from. simpl. rewrite Nat.add_0_r. f_equal.
  apply imap_ext. intros i x _. simpl. do 2 f_equal. lia.
Qed.

Lemma index_from_app (off : nat) (l1 l2 : list StreamPoint) :
  index_from off (l1 ++ l2) = index_from off l1 ++ index_from (off + length l1) l2.
Proof.
  unfold index_from. rewrite imap_app. f_equal.
  apply imap_ext. intros i x _. simpl. do 2 f_equal. lia.
Qed.

Lemma length_index_from (off : nat) (l : list StreamPoint) :
  length (index_from off l) = length l.
Proof. apply length_imap. Qed.

Lemma len_index_points (l : list StreamPoint) : len (index_points l) = len l.
Proof. unfold len, index_points. by rewrite length_imap. Qed.

Lemma index_points_lookup (l : list StreamPoint) (k : nat) :
  index_points l !! k = set_index (Z.of_nat k) <$> l !! k.
Proof. unfold index_points. rewrite list_lookup_imap. reflexivity. Qed.

Definition no_old_number (p : StreamPoint) : Prop := old_number p = None.

Lemma old_points_of_no_old (off : nat) (l : list StreamPoint) :
  Forall no_old_number l -> old_points_of (index_from off l) = [].
Proof.
  revert off. induction l as [| p l IH]; intros off Hall; [reflexivity |].
  apply Forall_cons in Hall as [Hp Hall].
  rewrite index_from_cons. unfold old_points_of.
  rewrite filter_cons_False.
  - by apply IH.
  - unfold has_old_number. simpl. unfold no_old_number in Hp. rewrite Hp.
    intros H. by apply H.
Qed.

Lemma old_points_of_cons_old (off : nat) (p : StreamPoint) (l : list StreamPoint) :
  has_old_number p ->
  old_points_of (index_from off (p :: l))
  = set_index (Z.of_nat off) p :: old_points_of (index_from (S off) l).
Proof.
  intros Hp. rewrite index_from_cons. unfold old_points_of.
  by rewrite filter_cons_True.
Qed.

Lemma old_points_of_app (l1 l2 : list StreamPoint) :
  old_points_of (l1 ++ l2) = old_points_of l1 ++ old_points_of l2.
Proof. apply filter_app. Qed.

Lemma order_index_set_index (i : Z) (p : StreamPoint) : order_index (set_index i p) = i.
Proof. reflexivity. Qed.

(** The old points of an indexed stream have their indices inside the
    stream, in increasing order. *)
Lemma old_points_of_index_from (off : nat) (l : list StreamPoint) :
  Forall (fun o => (exists k, index o = Some k /\ Z.of_nat off <= k < Z.of_nat (off + length l))
                   /\ (exists s, old_number o = Some s))
         (old_points_of (index_from off l))
  /\ StronglySorted index_lt (old_points_of (index_from off l)).
Proof.
  revert off. induction l as [| p l IH]; intros off.
  { split; constructor. }
  destruct (IH (S off)) as [Hall Hsorted].
  assert (Hall' : Forall (fun o =>
      (exists k, index o = Some k /\ Z.of_nat off <= k < Z.of_nat (off + length (p :: l)))
      /\ (exists s, old_number o = Some s)) (old_points_of (index_from (S off) l))).
  { eapply Forall_impl; [exact Hall |]. intros o [(k & Hk & Hr) Hs].
    split; [| done]. exists k. split; [done |]. simpl. lia. }
  destruct (decide (has_old_number p)) as [Hp | Hp].
  - rewrite old_points_of_cons_old by done. split.
    + constructor; [| done]. split.
      * exists (Z.of_nat off). split; [done |]. simpl. lia.
      * unfold has_old_number in Hp. simpl.
        destruct (old_number p) as [s |]; [by exists s | done].
    + constructor; [done |].
      eapply Forall_impl; [exact Hall |]. intros o [(k & Hk & Hr) _].
      unfold index_lt, order_index. rewrite Hk. simpl. lia.
  - rewrite index_from_cons. unfold old_points_of. rewrite filter_cons_False by done.
    by split.
Qed.

Lemma old_points_of_index_points (l : list StreamPoint) :
  Forall (old_point_ok (len l)) (old_points_of (index_points l))
  /\ StronglySorted index_lt (old_points_of (index_points l)).
Proof.
  destruct (old_points_of_index_from 0 l) as [Hall Hsorted]. split; [| done].
  eapply Forall_impl; [exact Hall |]. intros o [(k & Hk & Hr) Hs].
  split; [| done]. exists k. split; [done |]. unfold len. simpl in Hr. lia.
Qed.

(** ** Numbering one line *)

(** The numbering of a line given by its points in sorted order: the points
    are indexed and their old points collected as the second loop of
    [assign_points_to_streams] does, then numbered by the body of the loop of
    [numerate_points]. *)
Definition numerate_line (l : list StreamPoint) : result (list StreamPoint) :=
  numerate_stream (index_points l) (old_points_of (index_points l)).

Lemma snoc_of_nonempty {A} (l : list A) : l <> [] -> exists l' x, l = l' ++ [x].
Proof.
  intros Hne. destruct (exists_last Hne) as (l' & x & ->). by exists l', x.
Qed.

Lemma numerate_line_writes (l old_points : list StreamPoint) (last : StreamPoint) :
  old_points_of (index_points l) = old_points ++ [last] ->
  numerate_line l
  = base ← after_base (len l) last;
    Ok (apply_writes (zone_writes base (len l) old_points last) (index_points l)).
Proof.
  intros Hold. unfold numerate_line. rewrite Hold.
  rewrite numerate_stream_writes.
  - by rewrite len_index_points.
  - rewrite <- Hold, len_index_points. apply old_points_of_index_points.
Qed.

Lemma zone_writes_line (l old_points : list StreamPoint) (last : StreamPoint) (base : Z) :
  old_points_of (index_points l) = old_points ++ [last] ->
  Forall (fun iv => 0 <= iv.1) (zone_writes base (len l) old_points last)
  /\ NoDup (zone_writes base (len l) old_points last).*1
  /\ (forall o, o ∈ old_points ++ [last] ->
        order_index o ∉ (zone_writes base (len l) old_points last).*1).
Proof.
  intros Hold. destruct (old_points_of_index_points l) as [Hok Hsorted].
  rewrite Hold in Hok, Hsorted. by apply zone_writes_wf.
Qed.

(** A position that a zone writes holds the written number. *)
Lemma numerate_line_written (l old_points : list StreamPoint) (last : StreamPoint)
    (base : Z) (k : nat) (v : string) (p : StreamPoint) :
  old_points_of (index_points l) = old_points ++ [last] ->
  (Z.of_nat k, v) ∈ zone_writes base (len l) old_points last ->
  l !! k = Some p ->
  apply_writes (zone_writes base (len l) old_points last) (index_points l) !! k
  = Some (set_new_number (Some v) (set_index (Z.of_nat k) p)).
Proof.
  intros Hold Hin Hp. destruct (zone_writes_line l old_points last base Hold)
    as (Hpos & Hnodup & _).
  rewrite (apply_writes_lookup_in _ _ k v) by done.
  by rewrite index_points_lookup, Hp.
Qed.

(** The position of an old point keeps what it held. *)
Lemma numerate_line_old_kept (l old_points : list StreamPoint) (last : StreamPoint)
    (base : Z) (k : nat) (p : StreamPoint) :
  old_points_of (index_points l) = old_points ++ [last] ->
  l !! k = Some p -> has_old_number p ->
  apply_writes (zone_writes base (len l) old_points last) (index_points l) !! k
  = Some (set_index (Z.of_nat k) p).
Proof.
  intros Hold Hp Hhas. destruct (zone_writes_line l old_points last base Hold)
    as (Hpos & _ & Hkept).
  rewrite apply_writes_lookup_notin; [by rewrite index_points_lookup, Hp | done |].
  change (Z.of_nat k) with (order_index (set_index (Z.of_nat k) p)).
  apply Hkept. rewrite <- Hold. unfold old_points_of.
  apply list_elem_of_filter. split; [done |].
  apply list_elem_of_lookup. exists k. by rewrite index_points_lookup, Hp.
Qed.

Lemma numerate_line_Ok (l res : list StreamPoint) :
  numerate_line l = Ok res ->
  old_points_of (index_points l) <> [] ->
  exists old_points last base,
    old_points_of (index_points l) = old_points ++ [last]
    /\ after_base (len l) last = Ok base
    /\ res = apply_writes (zone_writes base (len l) old_points last) (index_points l).
Proof.
  intros Hres Hne. destruct (snoc_of_nonempty _ Hne) as (old_points & last & Hold).
  rewrite (numerate_line_writes l old_points last Hold) in Hres.
  apply result_bind_Ok in Hres as (base & Hbase & [= <-]).
  by exists old_points, last, base.
Qed.

(** The old points of a line cut at a legacy point. *)
Lemma old_points_of_split (pre : list StreamPoint) (p : StreamPoint)
    (post : list StreamPoint) :
  has_old_number p ->
  old_points_of (index_points (pre ++ p :: post))
  = old_points_of (index_from 0 pre)
    ++ set_index (len pre) p :: old_points_of (index_from (S (length pre)) post).
Proof.
  intros Hp. rewrite index_points_from, index_from_app, old_points_of_app.
  by rewrite old_points_of_cons_old.
Qed.

Lemma has_old_number_Some (p : StreamPoint) (s : string) :
  old_number p = Some s -> has_old_number p.
Proof. unfold has_old_number. by intros ->. Qed.

Lemma lookup_numbers_seqZ (f : Z -> option string) (m n : Z) (k : nat) :
  ((f <$> seqZ m n) !! k) = if decide (Z.of_nat k < n) then Some (f (m + Z.of_nat k)) else None.
Proof.
  rewrite list_lookup_fmap. case_decide as Hk.
  - by rewrite lookup_seqZ_lt by lia.
  - by rewrite lookup_seqZ_ge by lia.
Qed.

Definition unnumbered (id : Z) (d : Q) : StreamPoint := mkStreamPoint id d None None None.
Definition legacy (id : Z) (d : Q) (s : string) : StreamPoint :=
  mkStreamPoint id d (Some s) (Some s) None.

(** C3. On a line with a legacy point [last_old] that is followed only by
    points without legacy number, at least one, where the legacy identifier
    without its last character parses as the integer [B], the numbering
    returns and the point at offset [k] (from 1) after [last_old] receives
    the number [B + k] followed by ["P"] and nothing else.  The identifier
    and the last number written, [B + len post], keep within the digits that
    the interpreter converts. *)
Theorem after_zone_numbering (pre : list StreamPoint) (last_old : StreamPoint)
    (post : list StreamPoint) (s : string) (B : Z)
    (Hlegacy : old_number last_old = Some s)
    (Hpost : Forall no_old_number post)
    (Hsome : post <> [])
    (Hparse : int (strip_last s) = Ok B)
    (Hdigits : Z.of_nat (String.length s) <= int_max_str_digits)
    (Hwritten : B + len post < 10 ^ int_max_str_digits) :
  exists res,
    numerate_line (pre ++ last_old :: post) = Ok res
    /\ new_number <$> drop (S (length pre)) res
       = (fun k => Some (str (B + k) +:+ "P")) <$> seqZ 1 (len post).
Proof.
  set (l := pre ++ last_old :: post).
  set (last := set_index (len pre) last_old).
  assert (Hold : old_points_of (index_points l) = old_points_of (index_from 0 pre) ++ [last]).
  { unfold l. rewrite old_points_of_split by (by eapply has_old_number_Some).
    by rewrite (old_points_of_no_old _ post) by done. }
  assert (Hlen : len l = len pre + 1 + len post).
  { unfold l. rewrite len_app, len_cons. lia. }
  assert (Hposts : 0 < len post).
  { unfold len. destruct post; [congruence | simpl; lia]. }
  assert (Hbase : after_base (len l) last = Ok B).
  { unfold after_base, last. rewrite order_index_set_index.
    destruct (len pre <? len l - 1) eqn:Hlt; [| lia].
    unfold old_base. simpl. by rewrite Hlegacy. }
  rewrite (numerate_line_writes l _ last Hold), Hbase. simpl.
  eexists. split; [reflexivity |].
  apply list_eq. intros k.
  rewrite lookup_numbers_seqZ, list_lookup_fmap, lookup_drop.
  case_decide as Hk.
  - destruct (lookup_lt_is_Some_2 l (S (length pre) + k)) as [p Hp].
    { unfold len in Hlen, Hk. lia. }
    rewrite (numerate_line_written l _ last B _ (str (B + (1 + Z.of_nat k)) +:+ "P") p Hold);
      [reflexivity | | exact Hp].
    unfold zone_writes. rewrite !elem_of_app. right. right.
    apply elem_of_after_writes. unfold last. rewrite order_index_set_index.
    split; [unfold len in *; lia |]. do 3 f_equal. unfold len. lia.
  - rewrite lookup_ge_None_2; [reflexivity |].
    rewrite length_apply_writes. unfold len in *.
    assert (length (index_points l) = length l) by apply length_imap. lia.
Qed.

Lemma after_zone_numbering_witness :
  old_number (legacy 4 3 "12P") = Some "12P"
  /\ Forall no_old_number [unnumbered 8 5; unnumbered 9 6]
  /\ [unnumbered 8 5; unnumbered 9 6] <> []
  /\ int (strip_last "12P") = Ok 12
  /\ Z.of_nat (String.length "12P") <= int_max_str_digits
  /\ 12 + len [unnumbered 8 5; unnumbered 9 6] < 10 ^ int_max_str_digits
  /\ exists res,
      numerate_line ([unnumbered 1 0] ++ legacy 4 3 "12P" :: [unnumbered 8 5; unnumbered 9 6])
      = Ok res
      /\ new_number <$> drop 2 res = [Some "13P"; Some "14P"].
Proof.
  split; [reflexivity |]. split; [repeat constructor |]. split; [discriminate |].
  split; [reflexivity |]. split; [by vm_compute |]. split; [by vm_compute |].
  apply (after_zone_numbering [unnumbered 1 0] (legacy 4 3 "12P")
           [unnumbered 8 5; unnumbered 9 6] "12P" 12);
    [reflexivity | repeat constructor | discriminate | reflexivity
    | by vm_compute | by vm_compute].
Defined.

(** *** The zones of a line with legacy points *)

Lemma before_zone_numbers (pre : list StreamPoint) (first : StreamPoint)
    (post res : list StreamPoint) :
  Forall no_old_number pre -> has_old_number first ->
  numerate_line (pre ++ first :: post) = Ok res ->
  new_number <$> take (length pre) res
  = (fun i => Some (str (i + 1) +:+ "Pnowy")) <$> seqZ 0 (len pre).
Proof.
  intros Hpre Hfirst Hres. set (l := pre ++ first :: post) in *.
  assert (Hsplit : old_points_of (index_points l)
                   = set_index (len pre) first
                       :: old_points_of (index_from (S (length pre)) post)).
  { unfold l. rewrite old_points_of_split by done.
    by rewrite (old_points_of_no_old _ pre) by done. }
  destruct (numerate_line_Ok l res Hres) as (old_points & last & base & Hold & _ & ->).
  { by rewrite Hsplit. }
  apply list_eq. intros k.
  rewrite lookup_numbers_seqZ, list_lookup_fmap.
  case_decide as Hk.
  - rewrite lookup_take_lt by (unfold len in Hk; lia).
    destruct (lookup_lt_is_Some_2 pre k) as [p Hp]; [unfold len in Hk; lia |].
    rewrite (numerate_line_written l _ last base k (str (Z.of_nat k + 1) +:+ "Pnowy") p Hold).
    + simpl. do 3 f_equal.
    + unfold zone_writes. apply elem_of_app. left. rewrite <- Hold, Hsplit.
      apply elem_of_before_writes. rewrite order_index_set_index. split; [lia | done].
    + unfold l. by rewrite lookup_app_l by (by eapply lookup_lt_Some).
  - rewrite lookup_take_ge; [reflexivity | unfold len in Hk; lia].
Qed.

Lemma between_zone_numbers (pre : list StreamPoint) (current : StreamPoint) (s : string)
    (mid : list StreamPoint) (next : StreamPoint) (post res : list StreamPoint) :
  old_number current = Some s -> Forall no_old_number mid -> has_old_number next ->
  numerate_line (pre ++ current :: mid ++ next :: post) = Ok res ->
  new_number <$> take (length mid) (drop (S (length pre)) res)
  = (fun j => Some (strip_last s +:+ "P" +:+ letter_suffix j)) <$> seqZ 0 (len mid).
Proof.
  intros Hcur Hmid Hnext Hres. set (l := pre ++ current :: mid ++ next :: post) in *.
  set (a := set_index (len pre) current).
  set (b := set_index (Z.of_nat (S (length pre) + length mid)) next).
  assert (Hsplit : old_points_of (index_points l)
                   = old_points_of (index_from 0 pre) ++ a :: b
                       :: old_points_of (index_from (S (S (length pre) + length mid)) post)).
  { unfold l. rewrite old_points_of_split by (by eapply has_old_number_Some).
    rewrite index_from_app, old_points_of_app.
    rewrite (old_points_of_no_old _ mid) by done.
    by rewrite old_points_of_cons_old by done. }
  destruct (numerate_line_Ok l res Hres) as (old_points & last & base & Hold & _ & ->).
  { rewrite Hsplit. by destruct (old_points_of (index_from 0 pre)). }
  assert (Hlen : length l = (length pre + S (length mid + S (length post)))%nat).
  { unfold l. rewrite length_app. simpl. rewrite length_app. reflexivity. }
  apply list_eq. intros k.
  rewrite lookup_numbers_seqZ, list_lookup_fmap.
  case_decide as Hk.
  - rewrite lookup_take_lt by (unfold len in Hk; lia). rewrite lookup_drop.
    destruct (lookup_lt_is_Some_2 l (S (length pre) + k)) as [p Hp].
    { unfold len in Hk. lia. }
    rewrite (numerate_line_written l _ last base _
               (strip_last s +:+ "P" +:+ letter_suffix (Z.of_nat k)) p Hold);
      [reflexivity | | exact Hp].
    unfold zone_writes. apply elem_of_app. right. apply elem_of_app. left.
    rewrite <- Hold, Hsplit. apply pair_writes_between.
    apply elem_of_pair_writes. unfold a, b. rewrite !order_index_set_index. split.
    + unfold len in *. lia.
    + unfold old_base. simpl. rewrite Hcur. simpl. do 3 f_equal. unfold len. lia.
  - rewrite lookup_take_ge; [reflexivity | unfold len in Hk; lia].
Qed.

Lemma legacy_number_kept (l res : list StreamPoint) (k : nat) (p : StreamPoint) :
  numerate_line l = Ok res ->
  l !! k = Some p -> has_old_number p ->
  res !! k = Some (set_index (Z.of_nat k) p).
Proof.
  intros Hres Hp Hhas.
  destruct (numerate_line_Ok l res Hres) as (old_points & last & base & Hold & _ & ->).
  { intros Hnil.
    assert (Hin : set_index (Z.of_nat k) p ∈ old_points_of (index_points l)).
    { unfold old_points_of. apply list_elem_of_filter. split; [done |].
      apply list_elem_of_lookup. exists k. by rewrite index_points_lookup, Hp. }
    rewrite Hnil in Hin. by apply elem_of_nil in Hin. }
  by apply numerate_line_old_kept.
Qed.

(** C1. The line [unnumbered, "5P", unnumbered, unnumbered, "8P"] is numbered
    ["1Pnowy", "5P", "5Pa", "5Pb", "8P"].  In general, when the numbering of a
    line returns: the points before its first legacy point receive their
    position plus one followed by ["Pnowy"]; the points between two
    consecutive legacy points receive the identifier of the first of the two
    without its last character, then ["P"], then the letter suffix of their
    rank between the two, which starts at ["a"]; a legacy point keeps its
    identifier. *)
Theorem three_zone_numbering :
  (exists res,
      numerate_line [unnumbered 1 0; legacy 2 1 "5P"; unnumbered 3 2; unnumbered 4 3;
                     legacy 5 4 "8P"] = Ok res
      /\ new_number <$> res
         = [Some "1Pnowy"; Some "5P"; Some "5Pa"; Some "5Pb"; Some "8P"])
  /\ (forall pre first post res,
        Forall no_old_number pre -> has_old_number first ->
        numerate_line (pre ++ first :: post) = Ok res ->
        new_number <$> take (length pre) res
        = (fun i => Some (str (i + 1) +:+ "Pnowy")) <$> seqZ 0 (len pre))
  /\ (forall pre current s mid next post res,
        old_number current = Some s -> Forall no_old_number mid -> has_old_number next ->
        numerate_line (pre ++ current :: mid ++ next :: post) = Ok res ->
        new_number <$> take (length mid) (drop (S (length pre)) res)
        = (fun j => Some (strip_last s +:+ "P" +:+ letter_suffix j)) <$> seqZ 0 (len mid))
  /\ (forall j : nat, generate_letter_suffix (Z.of_nat j) = Ok (letter_suffix (Z.of_nat j)))
  /\ letter_suffix 0 = "a"
  /\ (forall l res k p s,
        numerate_line l = Ok res ->
        l !! k = Some p -> old_number p = Some s -> new_number p = Some s ->
        new_number <$> res !! k = Some (Some s)).
Proof.
  split; [| split; [| split; [| split; [| split]]]].
  - eexists. split; vm_compute; reflexivity.
  - apply before_zone_numbers.
  - apply between_zone_numbers.
  - intros j. apply generate_letter_suffix_total. lia.
  - vm_compute. reflexivity.
  - intros l res k p s Hres Hp Hold Hnew.
    rewrite (legacy_number_kept l res k p Hres Hp) by (by eapply has_old_number_Some).
    simpl. by rewrite Hnew.
Qed.

Lemma three_zone_numbering_witness :
  exists res,
    numerate_line ([unnumbered 1 0] ++ legacy 2 1 "5P"
                     :: [unnumbered 3 2; unnumbered 4 3] ++ legacy 5 4 "8P" :: []) = Ok res
    /\ new_number <$> take 1 res = [Some "1Pnowy"]
    /\ new_number <$> take 2 (drop 2 res) = [Some "5Pa"; Some "5Pb"]
    /\ new_number <$> res !! 1%nat = Some (Some "5P")
    /\ new_number <$> res !! 4%nat = Some (Some "8P").
Proof.
  destruct three_zone_numbering
    as ((res & Hres & _) & Hbefore & Hbetween & _ & _ & Hlegacy).
  exists res. split; [exact Hres |].
  split; [| split; [| split]].
  - apply (Hbefore [unnumbered 1 0] (legacy 2 1 "5P")
             ([unnumbered 3 2; unnumbered 4 3] ++ [legacy 5 4 "8P"]) res);
      [repeat constructor | discriminate | exact Hres].
  - apply (Hbetween [unnumbered 1 0] (legacy 2 1 "5P") "5P"
             [unnumbered 3 2; unnumbered 4 3] (legacy 5 4 "8P") [] res);
      [reflexivity | repeat constructor | discriminate | exact Hres].
  - by apply (Hlegacy _ res 1%nat (legacy 2 1 "5P") "5P" Hres).
  - by apply (Hlegacy _ res 4%nat (legacy 5 4 "8P") "8P" Hres).
Defined.

(** ** Loops over the items of a dictionary

    The loops of the stages visit the items of a dictionary and, for each
    item, replace at most the value stored under its own key.  [step k v o]
    is what an iteration makes of the value [o] found under [k]. *)

Section items_loop.
Context {V S : Type}.
Variable body : gmap string S -> string * V -> result (gmap string S).
Variable step : string -> V -> option S -> result (option S).
Hypothesis body_step : forall st k v,
  body st (k, v) = o ← step k v (st !! k); Ok (partial_alter (fun _ => o) k st).

Lemma for_each_items_Ok (items : list (string * V)) (st st' : gmap string S) :
  NoDup items.*1 ->
  for_each body items st = Ok st' ->
  (forall k v, (k, v) ∈ items -> step k v (st !! k) = Ok (st' !! k))
  /\ (forall k, k ∉ items.*1 -> st' !! k = st !! k).
Proof.
  revert st. induction items as [| [k0 v0] items IH]; intros st Hnodup Hrun.
  { injection Hrun as <-. split; [intros k v H; by apply elem_of_nil in H | done]. }
  rewrite fmap_cons in Hnodup. apply NoDup_cons in Hnodup as [Hfresh Hnodup].
  simpl in Hrun. apply result_bind_Ok in Hrun as (st1 & Hbody & Hrun).
  rewrite body_step in Hbody. apply result_bind_Ok in Hbody as (o & Hstep & [= <-]).
  destruct (IH _ Hnodup Hrun) as [Hitems Hother].
  split.
  - intros k v Hin. apply elem_of_cons in Hin as [[= -> ->] | Hin].
    + rewrite Hother by done. by rewrite lookup_partial_alter_eq.
    + assert (k <> k0).
      { intros ->. apply Hfresh. apply list_elem_of_fmap. by exists (k0, v). }
      rewrite <- (Hitems k v Hin). by rewrite lookup_partial_alter_ne.
  - intros k Hk. rewrite fmap_cons, not_elem_of_cons in Hk. destruct Hk as [Hne Hk].
    rewrite Hother by done. by rewrite lookup_partial_alter_ne.
Qed.

Lemma for_each_items_returns (items : list (string * V)) (st : gmap string S) :
  NoDup items.*1 ->
  (forall k v, (k, v) ∈ items -> is_Ok (step k v (st !! k))) ->
  is_Ok (for_each body items st).
Proof.
  revert st. induction items as [| [k0 v0] items IH]; intros st Hnodup Hall.
  { by eexists. }
  rewrite fmap_cons in Hnodup. apply NoDup_cons in Hnodup as [Hfresh Hnodup].
  simpl. rewrite body_step.
  destruct (Hall k0 v0) as [o Ho]; [left |]. rewrite Ho. simpl.
  apply IH; [done |]. intros k v Hin.
  assert (k <> k0).
  { intros ->. apply Hfresh. apply list_elem_of_fmap. by exists (k0, v). }
  rewrite lookup_partial_alter_ne by done. apply Hall. by right.
Qed.
End items_loop.

Lemma except_RuntimeError_Ok {A} (r : result A) (a : A) :
  except_RuntimeError r = Ok a <-> r = Ok a.
Proof. destruct r; simpl; split; congruence. Qed.

(** *** The stage [numerate_points] *)

Lemma numerate_points_Ok (streams_points stream_old_points final
    : gmap string (list StreamPoint)) :
  numerate_points streams_points stream_old_points = Ok final ->
  forall stream_mark,
    match streams_points !! stream_mark with
    | Some stream_points =>
        exists numbered,
          numerate_stream stream_points (stream_old_points !!! stream_mark) = Ok numbered
          /\ final !! stream_mark = Some numbered
    | None => final !! stream_mark = None
    end.
Proof.
  unfold numerate_points. rewrite except_RuntimeError_Ok. intros Hrun mark.
  eapply (for_each_items_Ok _
            (fun k sp _ => numbered ← numerate_stream sp (stream_old_points !!! k);
                           Ok (Some numbered))) in Hrun.
  - destruct Hrun as [Hitems Hother].
    destruct (streams_points !! mark) as [sp |] eqn:Hsp.
    + apply elem_of_map_to_list in Hsp. specialize (Hitems _ _ Hsp).
      apply result_bind_Ok in Hitems as (numbered & Hn & [= Hf]). by exists numbered.
    + rewrite Hother; [done |]. intros Hin.
      apply list_elem_of_fmap in Hin as ([k v] & -> & Hin).
      apply elem_of_map_to_list in Hin. simpl in Hsp. congruence.
  - intros st k v. simpl.
    destruct (numerate_stream v (stream_old_points !!! k)); reflexivity.
  - apply NoDup_fst_map_to_list.
Qed.

(** C4. In the stage [numerate_points], a line for which no legacy point is
    recorded is numbered in sequence: when the stage returns, the point at
    position [i] of the sorted line (counted from 0) has received the number
    [i + 1] followed by ["P"].  Such a line never makes the stage fail: the
    stage returns as soon as the numbering of the other lines returns. *)
Theorem no_legacy_sequential
    (streams_points stream_old_points : gmap string (list StreamPoint))
    (stream_mark : string) (stream_points : list StreamPoint)
    (Hline : streams_points !! stream_mark = Some stream_points)
    (Hnone : stream_old_points !!! stream_mark = []) :
  (forall final,
     numerate_points streams_points stream_old_points = Ok final ->
     exists numbered,
       final !! stream_mark = Some numbered
       /\ new_number <$> numbered
          = (fun i => Some (str (i + 1) +:+ "P")) <$> seqZ 0 (len stream_points))
  /\ ((forall other points,
         other <> stream_mark -> streams_points !! other = Some points ->
         is_Ok (numerate_stream points (stream_old_points !!! other)))
      -> is_Ok (numerate_points streams_points stream_old_points)).
Proof.
  split.
  - intros final Hrun.
    pose proof (numerate_points_Ok _ _ _ Hrun stream_mark) as Hmark.
    rewrite Hline, Hnone in Hmark. destruct Hmark as (numbered & Hnum & Hfinal).
    exists numbered. split; [done |].
    injection Hnum as <-.
    apply list_eq. intros k.
    rewrite lookup_numbers_seqZ, list_lookup_fmap, list_lookup_imap.
    case_decide as Hk.
    + destruct (lookup_lt_is_Some_2 stream_points k) as [p Hp]; [unfold len in Hk; lia |].
      rewrite Hp. simpl. do 3 f_equal.
    + rewrite lookup_ge_None_2; [reflexivity | unfold len in Hk; lia].
  - intros Hothers. unfold numerate_points.
    match goal with
    | |- is_Ok (except_RuntimeError ?loop) => assert (Hloop : is_Ok loop)
    end.
    { eapply (for_each_items_returns _
                (fun k sp _ => numbered ← numerate_stream sp (stream_old_points !!! k);
                               Ok (Some numbered))).
      - intros st k v. simpl.
        destruct (numerate_stream v (stream_old_points !!! k)); reflexivity.
      - apply NoDup_fst_map_to_list.
      - intros k v Hin. apply elem_of_map_to_list in Hin.
        destruct (decide (k = stream_mark)) as [-> | Hne].
        + rewrite Hnone. by eexists.
        + destruct (Hothers k v Hne Hin) as [numbered ->]. by eexists. }
    destruct Hloop as [final ->]. by eexists.
Qed.

(** Two lines, indexed as the assigner leaves them: ["A"] has no legacy
    point, ["B"] has one. *)
Definition sequential_streams : gmap string (list StreamPoint) :=
  {[ "A" := index_points [unnumbered 7 0; unnumbered 3 1; unnumbered 5 2];
     "B" := index_points [legacy 4 2 "12P"; unnumbered 8 5] ]}.

Definition sequential_old_points : gmap string (list StreamPoint) :=
  old_points_of <$> sequential_streams.

Lemma no_legacy_sequential_witness :
  sequential_streams !! "A"
  = Some (index_points [unnumbered 7 0; unnumbered 3 1; unnumbered 5 2])
  /\ sequential_old_points !!! "A" = []
  /\ exists final numbered,
      numerate_points sequential_streams sequential_old_points = Ok final
      /\ final !! "A" = Some numbered
      /\ new_number <$> numbered = [Some "1P"; Some "2P"; Some "3P"].
Proof.
  split; [by vm_compute |]. split; [by vm_compute |].
  destruct (no_legacy_sequential sequential_streams sequential_old_points "A"
              (index_points [unnumbered 7 0; unnumbered 3 1; unnumbered 5 2]))
    as [Hnumbers Hreturns]; [by vm_compute | by vm_compute |].
  destruct Hreturns as [final Hfinal].
  { intros other points Hne Hother.
    destruct (decide (other = "B")) as [-> | HneB].
    - vm_compute in Hother. injection Hother as <-. eexists. vm_compute. reflexivity.
    - exfalso. unfold sequential_streams in Hother.
      rewrite lookup_insert_ne in Hother by done.
      rewrite lookup_singleton_ne in Hother by done. done. }
  destruct (Hnumbers final Hfinal) as (numbered & Hnumbered & Hnew).
  by exists final, numbered.
Defined.

(** ** The Point Assigner *)

Section assigner.
Context {service : GeometryService}.
Variable point_features : gmap Z PointFeature.

(** What the loop over the candidates makes of one candidate: an
    exception, no point, or the point appended to the list of the stream. *)
Definition accept_candidate (unified_geom : QgsGeometry) (point_id : Z)
  : result (option StreamPoint) :=
  match point_features !! point_id with
  | None => Raise KeyError
  | Some point_feat =>
      match point_geometry point_feat with
      | None => Ok None
      | Some point_geom =>
          if negb (intersects_buffered point_geom unified_geom) then Ok None
          else
            let old := read_old_number (point_old_number point_feat) in
            Ok (Some (mkStreamPoint point_id (lineLocatePoint unified_geom point_geom)
                                    old old None))
      end
  end.

(** The points appended for a list of candidates, in their order. *)
Fixpoint accepted (unified_geom : QgsGeometry) (ids : list Z)
  : result (list StreamPoint) :=
  match ids with
  | [] => Ok []
  | point_id :: ids' =>
      o ← accept_candidate unified_geom point_id;
      rest ← accepted unified_geom ids';
      Ok (option_list o ++ rest)
  end.

Definition append_points (stream_mark : string) (pts : list StreamPoint)
    (streams_points : gmap string (list StreamPoint)) : gmap string (list StreamPoint) :=
  match pts with
  | [] => streams_points
  | _ => <[stream_mark := (streams_points !!! stream_mark) ++ pts]> streams_points
  end.

Lemma append_points_cons (stream_mark : string) (p : StreamPoint)
    (pts : list StreamPoint) (st : gmap string (list StreamPoint)) :
  append_points stream_mark pts (<[stream_mark := (st !!! stream_mark) ++ [p]]> st)
  = append_points stream_mark (p :: pts) st.
Proof.
  unfold append_points. destruct pts as [| q pts].
  - reflexivity.
  - rewrite lookup_total_insert_eq, insert_insert_eq. by rewrite <- app_assoc.
Qed.

Lemma assign_candidate_accept (stream_mark : string) (unified_geom : QgsGeometry)
    (st : gmap string (list StreamPoint)) (point_id : Z) :
  assign_candidate point_features stream_mark unified_geom st point_id
  = o ← accept_candidate unified_geom point_id;
    Ok (append_points stream_mark (option_list o) st).
Proof.
  unfold assign_candidate, accept_candidate.
  destruct (point_features !! point_id) as [feat |]; [| reflexivity].
  destruct (point_geometry feat) as [pg |]; [| reflexivity].
  by destruct (negb (intersects_buffered pg unified_geom)).
Qed.

Lemma for_each_assign_candidate (stream_mark : string) (unified_geom : QgsGeometry)
    (ids : list Z) (st : gmap string (list StreamPoint)) :
  for_each (assign_candidate point_features stream_mark unified_geom) ids st
  = pts ← accepted unified_geom ids; Ok (append_points stream_mark pts st).
Proof.
  revert st. induction ids as [| point_id ids IH]; intros st; [reflexivity |].
  simpl. rewrite assign_candidate_accept.
  destruct (accept_candidate unified_geom point_id) as [[p |] | e]; simpl;
    [| | reflexivity].
  - rewrite IH. destruct (accepted unified_geom ids) as [pts | e]; simpl;
      [| reflexivity].
    by rewrite append_points_cons.
  - rewrite IH. by destruct (accepted unified_geom ids).
Qed.

(** The step of the loop over the unified streams. *)
Definition assign_step (stream_mark : string) (unified_geom : QgsGeometry)
    (o : option (list StreamPoint)) : result (option (list StreamPoint)) :=
  if isEmpty unified_geom then Ok o
  else
    pts ← accepted unified_geom (index_intersects unified_geom);
    Ok (match pts with [] => o | _ => Some (default [] o ++ pts) end).

Lemma assign_stream_step (st : gmap string (list StreamPoint)) (k : string)
    (g : QgsGeometry) :
  assign_stream point_features st (k, g)
  = o ← assign_step k g (st !! k); Ok (partial_alter (fun _ => o) k st).
Proof.
  unfold assign_stream, assign_step.
  destruct (isEmpty g); simpl.
  { by rewrite partial_alter_self. }
  rewrite for_each_assign_candidate.
  destruct (accepted g (index_intersects g)) as [pts | e]; simpl; [| reflexivity].
  f_equal. destruct pts as [| p pts]; simpl.
  - by rewrite partial_alter_self.
  - by rewrite lookup_total_alt.
Qed.

Lemma elem_of_accepted (unified_geom : QgsGeometry) (ids : list Z)
    (pts : list StreamPoint) (p : StreamPoint) :
  accepted unified_geom ids = Ok pts ->
  p ∈ pts <-> exists point_id, point_id ∈ ids
                               /\ accept_candidate unified_geom point_id = Ok (Some p).
Proof.
  revert pts. induction ids as [| point_id ids IH]; intros pts Hacc.
  { injection Hacc as <-. split.
    - intros H. by apply elem_of_nil in H.
    - intros (? & H & _). by apply elem_of_nil in H. }
  simpl in Hacc. apply result_bind_Ok in Hacc as (o & Ho & Hacc).
  apply result_bind_Ok in Hacc as (rest & Hrest & [= <-]).
  rewrite elem_of_app, (IH rest Hrest). split.
  - intros [Hp | (id & Hid & Hacc)].
    + exists point_id. split; [left |]. destruct o as [q |]; simpl in Hp.
      * apply list_elem_of_singleton in Hp as ->. done.
      * by apply elem_of_nil in Hp.
    + exists id. split; [by right | done].
  - intros (id & Hid & Hacc). apply elem_of_cons in Hid as [-> | Hid].
    + left. rewrite Ho in Hacc. injection Hacc as ->. simpl. left.
    + right. by exists id.
Qed.

Lemma accepted_returns (unified_geom : QgsGeometry) (ids : list Z) :
  (forall point_id, point_id ∈ ids -> is_Some (point_features !! point_id)) ->
  is_Ok (accepted unified_geom ids).
Proof.
  induction ids as [| point_id ids IH]; intros Hall; [by eexists |].
  destruct IH as [rest Hrest]; [intros id Hid; apply Hall; by right |].
  destruct (Hall point_id) as [feat Hfeat]; [left |].
  simpl. unfold accept_candidate. rewrite Hfeat.
  destruct (point_geometry feat) as [pg |]; simpl.
  - destruct (negb (intersects_buffered pg unified_geom)); simpl;
      rewrite Hrest; by eexists.
  - rewrite Hrest. by eexists.
Qed.

(** A point is accepted for a stream when it is a candidate of the index
    query, its geometry is not empty and it meets the buffered line. *)
Definition matches (point_id : Z) (unified_geom : QgsGeometry) : Prop :=
  point_id ∈ index_intersects unified_geom
  /\ exists point_feat point_geom,
      point_features !! point_id = Some point_feat
      /\ point_geometry point_feat = Some point_geom
      /\ intersects_buffered point_geom unified_geom = true.


End assigner.

(** *** Every point without legacy number is written *)

Lemma between_writes_cover (current : StreamPoint) (rest : list StreamPoint) (i : Z) :
  order_index current < i ->
  (exists o, o ∈ rest /\ order_index o = i)
  \/ i ∈ (between_writes (current :: rest)).*1
  \/ (forall o, o ∈ current :: rest -> order_index o < i).
Proof.
  revert current. induction rest as [| next rest IH]; intros current Hi.
  { right. right. intros o Ho. apply list_elem_of_singleton in Ho as ->. done. }
  change (between_writes (current :: next :: rest))
    with (pair_writes current next ++ between_writes (next :: rest)).
  rewrite fmap_app.
  destruct (Z.lt_trichotomy i (order_index next)) as [Hlt | [Heq | Hgt]].
  - right. left. apply elem_of_app. left. apply elem_of_fst.
    eexists. apply elem_of_pair_writes. split; [lia | reflexivity].
  - left. exists next. split; [left | done].
  - destruct (IH next Hgt) as [(o & Ho & Hoi) | [Hin | Hall]].
    + left. exists o. split; [by right | done].
    + right. left. apply elem_of_app. by right.
    + right. right. intros o Ho. apply elem_of_cons in Ho as [-> | Ho]; [done |].
      by apply Hall.
Qed.

Lemma zone_writes_cover (base n : Z) (old_points : list StreamPoint) (last : StreamPoint)
    (i : Z) :
  0 <= i < n ->
  (exists o, o ∈ old_points ++ [last] /\ order_index o = i)
  \/ i ∈ (zone_writes base n old_points last).*1.
Proof.
  intros Hi. unfold zone_writes. rewrite !fmap_app.
  assert (Hlast : last ∈ old_points ++ [last]).
  { apply elem_of_app. right. left. }
  destruct (old_points ++ [last]) as [| first rest] eqn:Hold.
  { by destruct old_points. }
  destruct (Z.lt_trichotomy i (order_index first)) as [Hlt | [Heq | Hgt]].
  - right. apply elem_of_app. left. apply elem_of_fst.
    eexists. apply elem_of_before_writes. split; [lia | reflexivity].
  - left. exists first. split; [left | done].
  - destruct (between_writes_cover first rest i Hgt) as [(o & Ho & Hoi) | [Hin | Hall]].
    + left. exists o. split; [by right | done].
    + right. apply elem_of_app. right. apply elem_of_app. by left.
    + right. apply elem_of_app. right. apply elem_of_app. right.
      apply elem_of_fst. eexists. apply elem_of_after_writes.
      split; [| reflexivity]. specialize (Hall last Hlast). lia.
Qed.

Lemma elem_of_old_points_of_index_points (l : list StreamPoint) (o : StreamPoint) :
  o ∈ old_points_of (index_points l) ->
  exists k p, l !! k = Some p /\ has_old_number p /\ o = set_index (Z.of_nat k) p.
Proof.
  unfold old_points_of. intros Ho. apply list_elem_of_filter in Ho as [Hhas Ho].
  apply list_elem_of_lookup in Ho as (k & Hk). rewrite index_points_lookup in Hk.
  destruct (l !! k) as [p |] eqn:Hp; [| done]. injection Hk as <-.
  by exists k, p.
Qed.

(** What the numbering of a line leaves at each position. *)
Lemma numerate_line_point (l res : list StreamPoint) (k : nat) (r : StreamPoint) :
  numerate_line l = Ok res ->
  res !! k = Some r ->
  exists p,
    l !! k = Some p
    /\ point_id r = point_id p /\ old_number r = old_number p
    /\ (has_old_number p -> new_number r = new_number p)
    /\ (no_old_number p -> is_Some (new_number r)).
Proof.
  intros Hres Hr.
  destruct (decide (old_points_of (index_points l) = [])) as [Hnil | Hne].
  - unfold numerate_line in Hres. rewrite Hnil in Hres. injection Hres as <-.
    rewrite list_lookup_imap, index_points_lookup in Hr.
    destruct (l !! k) as [p |] eqn:Hp; [| done]. injection Hr as <-.
    exists p. repeat split; try done.
    intros Hhas. exfalso.
    assert (Hin : set_index (Z.of_nat k) p ∈ old_points_of (index_points l)).
    { unfold old_points_of. apply list_elem_of_filter. split; [done |].
      apply list_elem_of_lookup. exists k. by rewrite index_points_lookup, Hp. }
    rewrite Hnil in Hin. by apply elem_of_nil in Hin.
  - destruct (numerate_line_Ok l res Hres Hne) as (old_points & last & base & Hold & _ & ->).
    destruct (apply_writes_same_point _ _ _ _ Hr) as (q & Hq & Hsame).
    rewrite index_points_lookup in Hq.
    destruct (l !! k) as [p |] eqn:Hp; [| done]. injection Hq as <-.
    destruct Hsame as (Hid & _ & Hold_eq & _).
    exists p. split; [done |]. split; [done |]. split; [done |]. split.
    + intros Hhas.
      rewrite (numerate_line_old_kept l old_points last base k p Hold Hp Hhas) in Hr.
      by injection Hr as <-.
    + intros Hno.
      destruct (zone_writes_cover base (len l) old_points last (Z.of_nat k))
        as [(o & Ho & Hoi) | Hin].
      { apply lookup_lt_Some in Hp. unfold len. lia. }
      * rewrite <- Hold in Ho.
        apply elem_of_old_points_of_index_points in Ho as (j & p' & Hp' & Hhas & ->).
        rewrite order_index_set_index in Hoi.
        assert (j = k) by lia. subst j.
        rewrite Hp in Hp'. injection Hp' as <-.
        unfold has_old_number, no_old_number in *. done.
      * apply elem_of_fst in Hin as (v & Hv).
        rewrite (numerate_line_written l old_points last base k v p Hold Hv Hp) in Hr.
        injection Hr as <-. by eexists.
Qed.

(** *** Sorting keeps the points *)

Lemma insert_by_distance_Permutation (p : StreamPoint) (l : list StreamPoint) :
  insert_by_distance p l ≡ₚ p :: l.
Proof.
  induction l as [| q l IH]; [reflexivity |]. simpl.
  destruct (distance_lt q p); [| reflexivity].
  rewrite IH. apply Permutation_swap.
Qed.

Lemma sort_by_distance_Permutation (l : list StreamPoint) : sort_by_distance l ≡ₚ l.
Proof.
  induction l as [| p l IH]; [reflexivity |].
  unfold sort_by_distance in *. simpl.
  by rewrite insert_by_distance_Permutation, IH.
Qed.

(** *** The stage [assign_points_to_streams] *)

Section assigner_stage.
Context {service : GeometryService}.
Variable point_features : gmap Z PointFeature.

Lemma accept_candidate_Some (unified_geom : QgsGeometry) (point_id : Z) (p : StreamPoint) :
  accept_candidate point_features unified_geom point_id = Ok (Some p)
  <-> exists point_feat point_geom,
      point_features !! point_id = Some point_feat
      /\ point_geometry point_feat = Some point_geom
      /\ intersects_buffered point_geom unified_geom = true
      /\ p = mkStreamPoint point_id (lineLocatePoint unified_geom point_geom)
               (read_old_number (point_old_number point_feat))
               (read_old_number (point_old_number point_feat)) None.
Proof.
  unfold accept_candidate. split.
  - destruct (point_features !! point_id) as [feat |]; [| done].
    destruct (point_geometry feat) as [pg |] eqn:Hpg; [| done].
    destruct (intersects_buffered pg unified_geom) eqn:Hint; simpl; [| done].
    intros [= <-]. by exists feat, pg.
  - intros (feat & pg & -> & -> & -> & ->). reflexivity.
Qed.

(** The dictionary left by the first loop. *)
Lemma assign_loop_Ok (unified : gmap string QgsGeometry)
    (assigned : gmap string (list StreamPoint)) :
  for_each (assign_stream point_features) (map_to_list unified)
           (∅ : gmap string (list StreamPoint)) = Ok assigned ->
  forall stream_mark pts,
    assigned !! stream_mark = Some pts
    <-> exists g, unified !! stream_mark = Some g /\ isEmpty g = false
                  /\ accepted point_features g (index_intersects g) = Ok pts
                  /\ pts <> [].
Proof.
  intros Hrun mark pts.
  eapply (for_each_items_Ok _ (assign_step point_features)) in Hrun;
    [| apply assign_stream_step | apply NoDup_fst_map_to_list].
  destruct Hrun as [Hitems Hother].
  destruct (unified !! mark) as [g |] eqn:Hg.
  - apply elem_of_map_to_list in Hg. specialize (Hitems _ _ Hg).
    rewrite lookup_empty in Hitems. unfold assign_step in Hitems. split.
    + intros Hpts. exists g. split; [done |].
      destruct (isEmpty g); [rewrite Hpts in Hitems; done |].
      apply result_bind_Ok in Hitems as (pts' & Hacc & [= Heq]).
      rewrite Hpts in Heq. destruct pts' as [| p pts']; [done |].
      simpl in Heq. injection Heq as <-. by repeat split.
    + intros (g' & [= <-] & Hne & Hacc & Hpts).
      rewrite Hne, Hacc in Hitems. simpl in Hitems. injection Hitems as Heq.
      rewrite <- Heq. by destruct pts.
  - split.
    + intros Hpts. rewrite Hother, lookup_empty in Hpts; [done |].
      intros Hin. apply list_elem_of_fmap in Hin as ([k v] & -> & Hin).
      apply elem_of_map_to_list in Hin. simpl in Hg. congruence.
    + intros (g & [=] & _).
Qed.

Lemma assign_loop_returns (unified : gmap string QgsGeometry) :
  (forall stream_mark g point_id,
      unified !! stream_mark = Some g -> point_id ∈ index_intersects g ->
      is_Some (point_features !! point_id)) ->
  is_Ok (for_each (assign_stream point_features) (map_to_list unified)
                  (∅ : gmap string (list StreamPoint))).
Proof.
  intros Hindex.
  apply (for_each_items_returns _ (assign_step point_features));
    [apply assign_stream_step | apply NoDup_fst_map_to_list |].
  intros k g Hin. apply elem_of_map_to_list in Hin.
  unfold assign_step. destruct (isEmpty g); [by eexists |].
  destruct (accepted_returns point_features g (index_intersects g)) as [pts Hpts].
  { intros id Hid. by eapply Hindex. }
  rewrite Hpts. by eexists.
Qed.

Lemma assign_points_to_streams_Ok (unified : gmap string QgsGeometry)
    (streams_points stream_old_points : gmap string (list StreamPoint)) :
  assign_points_to_streams unified point_features = Ok (streams_points, stream_old_points) ->
  exists assigned,
    for_each (assign_stream point_features) (map_to_list unified)
             (∅ : gmap string (list StreamPoint)) = Ok assigned
    /\ streams_points = (fun l => index_points (sort_by_distance l)) <$> assigned
    /\ stream_old_points = old_points_of <$> streams_points.
Proof.
  unfold assign_points_to_streams. rewrite except_RuntimeError_Ok. intros Hrun.
  apply result_bind_Ok in Hrun as (assigned & Hloop & [= <- <-]).
  by exists assigned.
Qed.



End assigner_stage.

(** C5. After the assignment and the numbering, every point of every stream
    list comes from a point feature.  When the legacy field of the feature
    holds a text that is not empty, the point carries it as old number and
    its final new number is that text, unchanged.  When the field is [NULL],
    [None] or the empty text, the point has no old number and is numbered
    like any point without legacy number: it receives a computed number. *)
Theorem legacy_preserved {service : GeometryService}
    (point_features : gmap Z PointFeature) (unified : gmap string QgsGeometry)
    (streams_points stream_old_points final : gmap string (list StreamPoint))
    (stream_mark : string) (pts : list StreamPoint) (p : StreamPoint)
    (Hassign : assign_points_to_streams unified point_features
               = Ok (streams_points, stream_old_points))
    (Hnumerate : numerate_points streams_points stream_old_points = Ok final)
    (Hpts : final !! stream_mark = Some pts)
    (Hp : p ∈ pts) :
  exists point_feat,
    point_features !! point_id p = Some point_feat
    /\ match point_old_number point_feat with
       | Text s =>
           if decide (s = "") then old_number p = None /\ is_Some (new_number p)
           else old_number p = Some s /\ new_number p = Some s
       | _ => old_number p = None /\ is_Some (new_number p)
       end.
Proof.
  apply assign_points_to_streams_Ok in Hassign as (assigned & Hloop & -> & ->).
  pose proof (numerate_points_Ok _ _ _ Hnumerate stream_mark) as Hmark.
  rewrite lookup_fmap in Hmark.
  destruct (assigned !! stream_mark) as [raw |] eqn:Hraw; simpl in Hmark;
    [| congruence].
  destruct Hmark as (numbered & Hnum & Hfinal).
  rewrite Hpts in Hfinal. injection Hfinal as <-.
  rewrite lookup_total_alt, !lookup_fmap, Hraw in Hnum. simpl in Hnum.
  apply list_elem_of_lookup in Hp as (k & Hk).
  destruct (numerate_line_point (sort_by_distance raw) pts k p Hnum Hk)
    as (q & Hq & Hid & Hold & Hkeep & Hfresh).
  assert (Hin : q ∈ raw).
  { rewrite <- sort_by_distance_Permutation. apply list_elem_of_lookup. by exists k. }
  apply (assign_loop_Ok point_features unified assigned Hloop) in Hraw
    as (g & _ & _ & Hacc & _).
  apply (elem_of_accepted point_features g _ _ q Hacc) in Hin as (id & _ & Hq').
  apply accept_candidate_Some in Hq' as (feat & pg & Hfeat & _ & _ & ->).
  simpl in *. exists feat. rewrite Hid. split; [done |].
  unfold has_old_number, no_old_number in *. simpl in *.
  destruct (point_old_number feat) as [| | s]; simpl in *; try (split; auto; fail).
  destruct (decide (s = "")); [by auto |].
  split; [done |]. by apply Hkeep.
Qed.

(** ** A run on the grid

    One stream ["A"] from (0,0) to (10,0), and five points along it: an
    unnumbered point, the legacy point ["5P"], a point whose legacy field is
    the empty text, an unnumbered point and the legacy point ["8P"]; a sixth
    point lies off the stream. *)

Definition demo_points : list (Z * QgsPointXY) :=
  [(1, (1, 0)); (2, (3, 0)); (3, (4, 0)); (4, (6, 0)); (5, (9, 0)); (6, (5, 5))].

Definition demo_features : gmap Z PointFeature :=
  list_to_map
    [(1, mkPointFeature (Some (1, 0)) NULL);
     (2, mkPointFeature (Some (3, 0)) (Text "5P"));
     (3, mkPointFeature (Some (4, 0)) (Text ""));
     (4, mkPointFeature (Some (6, 0)) PyNone);
     (5, mkPointFeature (Some (9, 0)) (Text "8P"));
     (6, mkPointFeature (Some (5, 5)) (Text "1P"))].

Definition demo_streams : list StreamFeature :=
  [mkStreamFeature (Text "A") (MultiLineString [[(0, 0); (4, 0)]]);
   mkStreamFeature (Text "A") (MultiLineString [[(4, 0); (10, 0)]])].

Definition demo_unified : gmap string QgsGeometry :=
  {[ "A" := LineString [(0, 0); (4, 0); (10, 0)] ]}.

Definition demo_service : GeometryService := grid_service demo_points.

Definition demo_assigned
  : gmap string (list StreamPoint) * gmap string (list StreamPoint) :=
  Eval vm_compute in
    match @assign_points_to_streams demo_service demo_unified demo_features with
    | Ok st => st
    | Raise _ => (∅, ∅)
    end.

Definition demo_final : gmap string (list StreamPoint) :=
  Eval vm_compute in
    match numerate_points demo_assigned.1 demo_assigned.2 with
    | Ok st => st
    | Raise _ => ∅
    end.

Definition demo_numbered : list StreamPoint :=
  Eval vm_compute in demo_final !!! "A".

Lemma demo_index (stream_mark : string) (g : QgsGeometry) (id : Z) :
  demo_unified !! stream_mark = Some g ->
  id ∈ @index_intersects demo_service g ->
  is_Some (demo_features !! id).
Proof.
  intros Hg Hid. unfold demo_unified in Hg.
  apply lookup_singleton_Some in Hg as [_ <-].
  vm_compute in Hid.
  repeat (apply elem_of_cons in Hid as [-> | Hid]; [by eexists |]).
  by apply elem_of_nil in Hid.
Qed.

Lemma legacy_preserved_witness :
  @assign_points_to_streams demo_service demo_unified demo_features
  = Ok (demo_assigned.1, demo_assigned.2)
  /\ numerate_points demo_assigned.1 demo_assigned.2 = Ok demo_final
  /\ demo_final !! "A" = Some demo_numbered
  /\ new_number <$> demo_numbered
     = [Some "1Pnowy"; Some "5P"; Some "5Pa"; Some "5Pb"; Some "8P"]
  /\ Forall (fun p =>
        exists point_feat,
          demo_features !! point_id p = Some point_feat
          /\ match point_old_number point_feat with
             | Text s =>
                 if decide (s = "") then old_number p = None /\ is_Some (new_number p)
                 else old_number p = Some s /\ new_number p = Some s
             | _ => old_number p = None /\ is_Some (new_number p)
             end) demo_numbered.
Proof.
  split; [vm_compute; reflexivity |]. split; [vm_compute; reflexivity |].
  split; [vm_compute; reflexivity |]. split; [vm_compute; reflexivity |].
  apply Forall_forall. intros p Hp.
  apply (@legacy_preserved demo_service demo_features demo_unified
           demo_assigned.1 demo_assigned.2 demo_final "A" demo_numbered p);
    [vm_compute; reflexivity | vm_compute; reflexivity | vm_compute; reflexivity
    | exact Hp].
Defined.





(** ** The Geometry Unifier *)

(** The valid fragment that a stream feature contributes: its mark and its
    vertices, when the mark is not blank, the geometry not empty and the
    line has two vertices at least. *)
Definition fragment (stream : StreamFeature) : option (string * list QgsPointXY) :=
  match valid_mark (stream_mark_attribute stream) with
  | None => None
  | Some stream_mark =>
      let g := stream_geometry stream in
      if isEmpty g then None
      else
        match asPolyline (if isMultipart g then convertToSingleType g else g) with
        | Ok vertices => if len vertices <? 2 then None else Some (stream_mark, vertices)
        | Raise _ => None
        end
  end.

(** The valid fragments of a mark, in the order of the layer. *)
Definition fragments_of (stream_mark : string) (streams : list StreamFeature)
  : list (list QgsPointXY) :=
  omap (fun stream =>
          match fragment stream with
          | Some (m, vertices) => if decide (m = stream_mark) then Some vertices else None
          | None => None
          end) streams.

Definition start_vertices (fragments : list (list QgsPointXY)) : gset QgsPointXY :=
  list_to_set (omap head fragments).

Definition end_vertices (fragments : list (list QgsPointXY)) : gset QgsPointXY :=
  list_to_set (omap last fragments).

Definition nonempty_list {A} (l : list A) : option (list A) :=
  match l with [] => None | _ => Some l end.

Lemma getitem_first_last (vertices : list QgsPointXY) :
  (len vertices <? 2) = false ->
  exists v0 vn,
    getitem vertices 0 = Ok v0 /\ getitem vertices (-1) = Ok vn
    /\ head vertices = Some v0 /\ last vertices = Some vn.
Proof.
  intros Hlen. destruct vertices as [| v0 rest]; [done |].
  destruct (snoc_of_nonempty (v0 :: rest)) as (front & vn & Heq); [done |].
  exists v0, vn. split; [apply getitem_head |]. rewrite Heq. split; [apply getitem_last |].
  split; [by rewrite <- Heq | apply last_snoc].
Qed.

Lemma asPolyline_single (g : QgsGeometry) :
  isEmpty g = false ->
  exists vertices,
    (if isMultipart g then convertToSingleType g else g) = LineString vertices.
Proof.
  destruct g as [| vertices | parts]; simpl; [done | by eexists |].
  destruct parts as [| part parts]; [done |]. by eexists.
Qed.

(** What one iteration of the first loop adds. *)
Definition add_fragment (acc : collected) (stream_mark : string)
    (vertices : list QgsPointXY) (v0 vn : QgsPointXY) : collected :=
  mkCollected
    (<[stream_mark := (streams_geoms acc !!! stream_mark) ++ [LineString vertices]]>
       (streams_geoms acc))
    (<[stream_mark := (stream_start_points acc !!! stream_mark) ∪ {[v0]}]>
       (stream_start_points acc))
    (<[stream_mark := (stream_end_points acc !!! stream_mark) ∪ {[vn]}]>
       (stream_end_points acc)).

Lemma collect_stream_fragment (acc : collected) (stream : StreamFeature) :
  collect_stream acc stream
  = Ok (match fragment stream with
        | Some (stream_mark, vertices) =>
            match head vertices, last vertices with
            | Some v0, Some vn => add_fragment acc stream_mark vertices v0 vn
            | _, _ => acc
            end
        | None => acc
        end).
Proof.
  unfold collect_stream, fragment.
  destruct (valid_mark (stream_mark_attribute stream)) as [mark |]; [| reflexivity].
  destruct (isEmpty (stream_geometry stream)) eqn:Hempty; [reflexivity |].
  destruct (asPolyline_single _ Hempty) as [vertices ->]. simpl.
  destruct (len vertices <? 2) eqn:Hlen; [reflexivity |].
  destruct (getitem_first_last vertices Hlen) as (v0 & vn & -> & -> & -> & ->).
  reflexivity.
Qed.

Lemma fragment_vertices (stream : StreamFeature) (stream_mark : string)
    (vertices : list QgsPointXY) :
  fragment stream = Some (stream_mark, vertices) ->
  exists v0 vn, head vertices = Some v0 /\ last vertices = Some vn.
Proof.
  unfold fragment.
  destruct (valid_mark (stream_mark_attribute stream)) as [mark |]; [| done].
  destruct (isEmpty (stream_geometry stream)) eqn:Hempty; [done |].
  destruct (asPolyline_single _ Hempty) as [vs ->]. simpl.
  destruct (len vs <? 2) eqn:Hlen; [done |]. intros [= -> ->].
  destruct (getitem_first_last vertices Hlen) as (v0 & vn & _ & _ & ? & ?).
  by exists v0, vn.
Qed.

(** The dictionaries left by the first loop. *)
Definition collected_for (streams : list StreamFeature) (acc : collected) : Prop :=
  forall stream_mark,
    streams_geoms acc !! stream_mark
    = nonempty_list (LineString <$> fragments_of stream_mark streams)
    /\ stream_start_points acc !!! stream_mark
       = start_vertices (fragments_of stream_mark streams)
    /\ stream_end_points acc !!! stream_mark
       = end_vertices (fragments_of stream_mark streams).

Lemma lookup_total_nonempty {A} (m : gmap string (list A)) (k : string) (l : list A) :
  m !! k = nonempty_list l -> m !!! k = l.
Proof. intros H. rewrite lookup_total_alt, H. by destruct l. Qed.

Lemma nonempty_list_snoc {A} (l : list A) (x : A) : nonempty_list (l ++ [x]) = Some (l ++ [x]).
Proof. by destruct l. Qed.

Lemma collect_streams (streams : list StreamFeature) :
  exists acc,
    for_each collect_stream streams collected_empty = Ok acc /\ collected_for streams acc.
Proof.
  induction streams as [| stream streams IH] using rev_ind.
  { exists collected_empty. split; [reflexivity |]. intros mark. simpl.
    rewrite !lookup_total_empty, lookup_empty. done. }
  destruct IH as (acc & Hrun & Hacc).
  rewrite for_each_app, Hrun. simpl. rewrite collect_stream_fragment. simpl.
  eexists. split; [reflexivity |].
  intros mark. unfold fragments_of. rewrite omap_app. simpl.
  fold (fragments_of mark streams).
  destruct (Hacc mark) as (Hg & Hs & He).
  destruct (fragment stream) as [[m vertices] |] eqn:Hfrag.
  2:{ rewrite app_nil_r. by repeat split. }
  destruct (fragment_vertices _ _ _ Hfrag) as (v0 & vn & Hfirst & Hlast).
  rewrite Hfirst, Hlast. unfold add_fragment. simpl.
  destruct (decide (m = mark)) as [-> | Hne].
  - rewrite lookup_insert_eq, !lookup_total_insert_eq.
    rewrite (lookup_total_nonempty _ _ _ Hg), Hs, He.
    rewrite fmap_app. simpl. rewrite nonempty_list_snoc.
    unfold start_vertices, end_vertices. rewrite !omap_app. simpl.
    rewrite Hfirst, Hlast. simpl. rewrite !list_to_set_app_L. simpl.
    by rewrite !union_empty_r_L.
  - rewrite lookup_insert_ne, !lookup_total_insert_ne by done.
    rewrite app_nil_r. by repeat split.
Qed.

Lemma getitem_0 {A} (l : list A) :
  getitem l 0 = match l with [] => Raise IndexError | x :: _ => Ok x end.
Proof. destruct l; [apply getitem_nil | apply getitem_head]. Qed.

Section unifier.
Context {service : GeometryService}.

(** The step of the third loop. *)
Definition direction_step (ends : gmap string (gset QgsPointXY)) (stream_mark : string)
    (unified_geom : QgsGeometry) (o : option QgsGeometry) : result (option QgsGeometry) :=
  unified_polyline ← asPolyline unified_geom;
  unified_start_point ← getitem unified_polyline 0;
  if decide (unified_start_point ∈ ends !!! stream_mark) then
    Ok (Some (fromPolylineXY (reverse unified_polyline)))
  else Ok o.

Lemma correct_direction_step (ends : gmap string (gset QgsPointXY))
    (st : gmap string QgsGeometry) (k : string) (g : QgsGeometry) :
  correct_direction ends st (k, g)
  = o ← direction_step ends k g (st !! k); Ok (partial_alter (fun _ => o) k st).
Proof.
  unfold correct_direction, direction_step.
  destruct (asPolyline g) as [pl | e]; simpl; [| reflexivity].
  destruct (getitem pl 0) as [p0 | e]; simpl; [| reflexivity].
  destruct (decide (p0 ∈ ends !!! k)); simpl; [reflexivity |].
  by rewrite partial_alter_self.
Qed.

(** The geometry stored for a mark before the direction check. *)
Definition merged_of (fragments : list (list QgsPointXY)) : QgsGeometry :=
  merge_group (LineString <$> fragments).

Lemma union_stream_geometries_Ok (streams : list StreamFeature)
    (unified : gmap string QgsGeometry) (stream_mark : string) :
  union_stream_geometries streams = Ok unified ->
  let fragments := fragments_of stream_mark streams in
  (fragments = [] /\ unified !! stream_mark = None)
  \/ (fragments <> []
      /\ exists vertices v0,
          asPolyline (merged_of fragments) = Ok vertices
          /\ head vertices = Some v0
          /\ unified !! stream_mark
             = Some (if decide (v0 ∈ end_vertices fragments)
                     then LineString (reverse vertices)
                     else merged_of fragments)).
Proof.
  unfold union_stream_geometries. rewrite except_RuntimeError_Ok.
  destruct (collect_streams streams) as (acc & -> & Hacc). simpl. intros Hrun.
  eapply (for_each_items_Ok _ (direction_step (stream_end_points acc))) in Hrun;
    [| apply correct_direction_step | apply NoDup_fst_map_to_list].
  destruct Hrun as [Hitems Hother].
  destruct (Hacc stream_mark) as (Hg & _ & He).
  destruct (fragments_of stream_mark streams) as [| f fragments] eqn:Hfrags.
  - left. split; [done |]. rewrite Hother; [by rewrite lookup_fmap, Hg |].
    intros Hin. apply list_elem_of_fmap in Hin as ([k g] & -> & Hin).
    apply elem_of_map_to_list in Hin. simpl in Hg.
    rewrite lookup_fmap, Hg in Hin. done.
  - right. split; [done |].
    assert (Hm : (merge_group <$> streams_geoms acc) !! stream_mark
                 = Some (merged_of (f :: fragments))).
    { by rewrite lookup_fmap, Hg. }
    pose proof Hm as Hin. apply elem_of_map_to_list in Hin.
    specialize (Hitems _ _ Hin). rewrite Hm in Hitems.
    unfold direction_step in Hitems.
    apply result_bind_Ok in Hitems as (vertices & Hv & Hitems).
    apply result_bind_Ok in Hitems as (v0 & Hv0 & Hitems).
    rewrite getitem_0 in Hv0. destruct vertices as [| v0' rest]; [done |].
    injection Hv0 as ->.
    exists (v0 :: rest), v0. split; [done |]. split; [done |].
    rewrite He in Hitems.
    destruct (decide (v0 ∈ end_vertices (f :: fragments))); by injection Hitems as <-.
Qed.

Lemma union_stream_geometries_returns (streams : list StreamFeature) :
  (forall stream_mark,
      fragments_of stream_mark streams <> [] ->
      exists v0 rest,
        asPolyline (merged_of (fragments_of stream_mark streams)) = Ok (v0 :: rest)) ->
  is_Ok (union_stream_geometries streams).
Proof.
  intros Hall. unfold union_stream_geometries.
  destruct (collect_streams streams) as (acc & -> & Hacc). simpl.
  destruct (for_each_items_returns (correct_direction (stream_end_points acc))
              (direction_step (stream_end_points acc))
              (correct_direction_step (stream_end_points acc))
              (map_to_list (merge_group <$> streams_geoms acc))
              (merge_group <$> streams_geoms acc)) as [unified Hunified].
  - apply NoDup_fst_map_to_list.
  - intros k g Hin. apply elem_of_map_to_list in Hin.
    rewrite lookup_fmap in Hin. destruct (Hacc k) as (Hg & _ & _).
    rewrite Hg in Hin.
    destruct (decide (fragments_of k streams = [])) as [Hnil | Hne].
    { rewrite Hnil in Hin. done. }
    destruct (Hall k Hne) as (v0 & rest & Hv).
    assert (Hgeom : g = merged_of (fragments_of k streams)).
    { destruct (fragments_of k streams); [done |]. by injection Hin as <-. }
    subst g. unfold direction_step. rewrite Hv.
    unfold mbind, result_bind. rewrite getitem_head.
    destruct (decide (v0 ∈ stream_end_points acc !!! k)); by eexists.
  - rewrite Hunified. by eexists.
Qed.
End unifier.

(** C7, amended. For every mark with a valid fragment, when the unifier
    returns, the geometry merged for the mark is a line with a first vertex,
    and it is stored reversed exactly when that first vertex belongs to the
    set of end vertices of the fragments of the mark; otherwise it is stored
    as merged.  The set of start vertices plays no part. *)
Theorem direction_correction {service : GeometryService}
    (streams : list StreamFeature) (unified : gmap string QgsGeometry)
    (stream_mark : string)
    (Hrun : union_stream_geometries streams = Ok unified)
    (Hvalid : fragments_of stream_mark streams <> []) :
  exists vertices v0,
    asPolyline (merged_of (fragments_of stream_mark streams)) = Ok vertices
    /\ head vertices = Some v0
    /\ ((v0 ∈ end_vertices (fragments_of stream_mark streams)
         /\ unified !! stream_mark = Some (LineString (reverse vertices)))
        \/ ((v0 ∉ end_vertices (fragments_of stream_mark streams))
            /\ unified !! stream_mark = Some (merged_of (fragments_of stream_mark streams)))).
Proof.
  destruct (union_stream_geometries_Ok streams unified stream_mark Hrun)
    as [[Hnil _] | (_ & vertices & v0 & Hv & Hhead & Hu)]; [done |].
  exists vertices, v0. split; [done |]. split; [done |].
  destruct (decide (v0 ∈ end_vertices (fragments_of stream_mark streams))); auto.
Qed.

(** Two fragments of the mark ["R"] that close a ring. *)
Definition ring_streams : list StreamFeature :=
  [mkStreamFeature (Text "R") (LineString [(0, 0); (4, 0); (4, 3)]);
   mkStreamFeature (Text "R") (LineString [(4, 3); (0, 3); (0, 0)])].

Definition ring_unified : gmap string QgsGeometry :=
  Eval vm_compute in
    match @union_stream_geometries demo_service ring_streams with
    | Ok u => u
    | Raise _ => ∅
    end.

Lemma direction_correction_witness :
  @union_stream_geometries demo_service ring_streams = Ok ring_unified
  /\ fragments_of "R" ring_streams <> []
  /\ exists vertices v0,
      asPolyline (@merged_of demo_service (fragments_of "R" ring_streams)) = Ok vertices
      /\ head vertices = Some v0
      /\ ((v0 ∈ end_vertices (fragments_of "R" ring_streams)
           /\ ring_unified !! "R" = Some (LineString (reverse vertices)))
          \/ ((v0 ∉ end_vertices (fragments_of "R" ring_streams))
              /\ ring_unified !! "R"
                 = Some (@merged_of demo_service (fragments_of "R" ring_streams)))).
Proof.
  split; [vm_compute; reflexivity |]. split; [vm_compute; discriminate |].
  apply (@direction_correction demo_service ring_streams ring_unified "R");
    [vm_compute; reflexivity | vm_compute; discriminate].
Defined.

(** C7, counterexample.  The line merged for the ring starts at (0,0), which
    is an end vertex and also a start vertex of the fragments; it is stored
    reversed, although its first vertex belongs to the start set. *)
Lemma ring_reversed_from_start_vertex :
  @union_stream_geometries demo_service ring_streams = Ok ring_unified
  /\ asPolyline (@merged_of demo_service (fragments_of "R" ring_streams))
     = Ok [(0, 0); (4, 0); (4, 3); (0, 3); (0, 0)]
  /\ ring_unified !! "R" = Some (LineString [(0, 0); (0, 3); (4, 3); (4, 0); (0, 0)])
  /\ (0, 0) ∈ end_vertices (fragments_of "R" ring_streams)
  /\ (0, 0) ∈ start_vertices (fragments_of "R" ring_streams)
  /\ ~ (ring_unified !! "R"
        = Some (LineString (reverse [(0, 0); (4, 0); (4, 3); (0, 3); (0, 0)]))
        <-> (0, 0) ∈ end_vertices (fragments_of "R" ring_streams)
            /\ (0, 0) ∉ start_vertices (fragments_of "R" ring_streams)).
Proof.
  assert (Hstart : (0, 0) ∈ start_vertices (fragments_of "R" ring_streams)).
  { apply elem_of_list_to_set. vm_compute. left. }
  assert (Hend : (0, 0) ∈ end_vertices (fragments_of "R" ring_streams)).
  { apply elem_of_list_to_set. vm_compute. right. left. }
  split; [vm_compute; reflexivity |]. split; [vm_compute; reflexivity |].
  split; [vm_compute; reflexivity |]. split; [exact Hend |]. split; [exact Hstart |].
  intros [Hrev _]. destruct Hrev as [_ Hnot]; [vm_compute; reflexivity |].
  by apply Hnot.
Qed.

Lemma end_vertices_single (vertices : list QgsPointXY) (v : QgsPointXY) :
  v ∈ end_vertices [vertices] -> last vertices = Some v.
Proof.
  unfold end_vertices. simpl. destruct (last vertices) as [vn |]; simpl.
  - rewrite union_empty_r_L. intros Hv. apply elem_of_singleton in Hv. by subst.
  - intros Hv. by apply elem_of_empty in Hv.
Qed.

Lemma merged_of_single {service : GeometryService} (vertices : list QgsPointXY) :
  merged_of [vertices] = LineString vertices.
Proof. reflexivity. Qed.

(** C8, amended. For every mark with exactly one valid fragment whose first
    vertex differs from its last vertex, the unified polyline is the vertex
    sequence of that fragment, unchanged. *)
Theorem single_fragment_unchanged {service : GeometryService}
    (streams : list StreamFeature) (unified : gmap string QgsGeometry)
    (stream_mark : string) (vertices : list QgsPointXY)
    (Hrun : union_stream_geometries streams = Ok unified)
    (Hone : fragments_of stream_mark streams = [vertices])
    (Hopen : head vertices <> last vertices) :
  unified !! stream_mark = Some (LineString vertices).
Proof.
  destruct (union_stream_geometries_Ok streams unified stream_mark Hrun)
    as [[Hnil _] | (_ & vs & v0 & Hv & Hhead & Hu)].
  { rewrite Hone in Hnil. done. }
  rewrite Hone in Hv, Hu. rewrite merged_of_single in Hv, Hu.
  injection Hv as <-.
  destruct (decide (v0 ∈ end_vertices [vertices])) as [Hin | _]; [| done].
  apply end_vertices_single in Hin. congruence.
Qed.

Definition open_streams : list StreamFeature :=
  [mkStreamFeature (Text "A") (MultiLineString [[(0, 0); (4, 0); (10, 0)]]);
   mkStreamFeature NULL (LineString [(1, 1); (2, 2)]);
   mkStreamFeature (Text "B") (LineString [(7, 7)])].

Definition open_unified : gmap string QgsGeometry :=
  Eval vm_compute in
    match @union_stream_geometries demo_service open_streams with
    | Ok u => u
    | Raise _ => ∅
    end.

Lemma single_fragment_unchanged_witness :
  @union_stream_geometries demo_service open_streams = Ok open_unified
  /\ fragments_of "A" open_streams = [[(0, 0); (4, 0); (10, 0)]]
  /\ head [(0, 0); (4, 0); (10, 0)] <> last [(0, 0); (4, 0); (10, 0)]
  /\ open_unified !! "A" = Some (LineString [(0, 0); (4, 0); (10, 0)]).
Proof.
  split; [vm_compute; reflexivity |]. split; [vm_compute; reflexivity |].
  split; [vm_compute; discriminate |].
  apply (@single_fragment_unchanged demo_service open_streams open_unified "A");
    [vm_compute; reflexivity | vm_compute; reflexivity | vm_compute; discriminate].
Defined.

(** A single fragment that is a closed ring. *)
Definition closed_streams : list StreamFeature :=
  [mkStreamFeature (Text "R") (LineString [(0, 0); (4, 0); (4, 3); (0, 0)])].

Definition closed_unified : gmap string QgsGeometry :=
  Eval vm_compute in
    match @union_stream_geometries demo_service closed_streams with
    | Ok u => u
    | Raise _ => ∅
    end.

(** C8, counterexample.  The mark ["R"] has exactly one valid fragment, a
    closed ring; the unified polyline is that fragment reversed. *)
Lemma closed_fragment_reversed :
  @union_stream_geometries demo_service closed_streams = Ok closed_unified
  /\ fragments_of "R" closed_streams = [[(0, 0); (4, 0); (4, 3); (0, 0)]]
  /\ closed_unified !! "R" = Some (LineString [(0, 0); (4, 3); (4, 0); (0, 0)])
  /\ closed_unified !! "R" <> Some (LineString [(0, 0); (4, 0); (4, 3); (0, 0)]).
Proof.
  split; [vm_compute; reflexivity |]. split; [vm_compute; reflexivity |].
  split; [vm_compute; reflexivity |]. vm_compute. discriminate.
Qed.

(** C9, amended. When the merge of the fragments of a mark yields several
    parts, the unifier does not fail on that account: the first part alone is
    retained.  If the unifier returns, the polyline stored for the mark is
    that first part, or the first part reversed; and the unifier does
    return when the first part has a vertex and the geometry retained for
    every other mark is a line with a vertex. *)
Theorem multipart_merge_keeps_first_part {service : GeometryService}
    (streams : list StreamFeature) (stream_mark : string)
    (part : list QgsPointXY) (parts : list (list QgsPointXY))
    (Hmany : (1 < length (fragments_of stream_mark streams))%nat)
    (Hparts : unaryUnion_mergeLines (LineString <$> fragments_of stream_mark streams)
              = MultiLineString (part :: parts)) :
  merged_of (fragments_of stream_mark streams) = LineString part
  /\ (forall unified,
        union_stream_geometries streams = Ok unified ->
        unified !! stream_mark = Some (LineString part)
        \/ unified !! stream_mark = Some (LineString (reverse part)))
  /\ (part <> [] ->
      (forall other,
          other <> stream_mark -> fragments_of other streams <> [] ->
          exists v0 rest, asPolyline (merged_of (fragments_of other streams)) = Ok (v0 :: rest)) ->
      is_Ok (union_stream_geometries streams)).
Proof.
  assert (Hmerged : merged_of (fragments_of stream_mark streams) = LineString part).
  { unfold merged_of, merge_group.
    rewrite decide_False by (unfold len; rewrite length_fmap; lia).
    by rewrite Hparts. }
  assert (Hvalid : fragments_of stream_mark streams <> []).
  { intros Hnil. rewrite Hnil in Hmany. simpl in Hmany. lia. }
  split; [done |]. split.
  - intros unified Hrun.
    destruct (union_stream_geometries_Ok streams unified stream_mark Hrun)
      as [[Hnil _] | (_ & vs & v0 & Hv & _ & Hu)]; [done |].
    rewrite Hmerged in Hv, Hu. injection Hv as <-.
    destruct (decide (v0 ∈ end_vertices (fragments_of stream_mark streams))); auto.
  - intros Hpart Hothers. apply union_stream_geometries_returns.
    intros m Hm. destruct (decide (m = stream_mark)) as [-> | Hne].
    + rewrite Hmerged. destruct part as [| v0 rest]; [done |]. by exists v0, rest.
    + by apply Hothers.
Qed.

(** Two fragments of the mark ["D"] that do not touch. *)
Definition disjoint_streams : list StreamFeature :=
  [mkStreamFeature (Text "D") (LineString [(0, 0); (2, 0)]);
   mkStreamFeature (Text "D") (LineString [(5, 0); (7, 0)])].

Definition disjoint_unified : gmap string QgsGeometry :=
  Eval vm_compute in
    match @union_stream_geometries demo_service disjoint_streams with
    | Ok u => u
    | Raise _ => ∅
    end.

Lemma multipart_merge_keeps_first_part_witness :
  (1 < length (fragments_of "D" disjoint_streams))%nat
  /\ @unaryUnion_mergeLines demo_service (LineString <$> fragments_of "D" disjoint_streams)
     = MultiLineString ([(0, 0); (2, 0)] :: [[(5, 0); (7, 0)]])
  /\ @merged_of demo_service (fragments_of "D" disjoint_streams) = LineString [(0, 0); (2, 0)]
  /\ (forall unified,
        @union_stream_geometries demo_service disjoint_streams = Ok unified ->
        unified !! "D" = Some (LineString [(0, 0); (2, 0)])
        \/ unified !! "D" = Some (LineString (reverse [(0, 0); (2, 0)])))
  /\ ([(0, 0); (2, 0)] <> [] ->
      (forall other,
          other <> "D" -> fragments_of other disjoint_streams <> [] ->
          exists v0 rest,
            asPolyline (@merged_of demo_service (fragments_of other disjoint_streams))
            = Ok (v0 :: rest)) ->
      is_Ok (@union_stream_geometries demo_service disjoint_streams)).
Proof.
  split; [vm_compute; lia |]. split; [vm_compute; reflexivity |].
  apply (@multipart_merge_keeps_first_part demo_service disjoint_streams "D"
           [(0, 0); (2, 0)] [[(5, 0); (7, 0)]]);
    [vm_compute; lia | vm_compute; reflexivity].
Defined.

(** C9, counterexample.  The merge of the two fragments of ["D"] yields two
    disjoint parts, and the unifier returns a dictionary with the first part
    for ["D"]: it does not fail. *)
Lemma disjoint_parts_do_not_fail :
  @unaryUnion_mergeLines demo_service (LineString <$> fragments_of "D" disjoint_streams)
  = MultiLineString [[(0, 0); (2, 0)]; [(5, 0); (7, 0)]]
  /\ @union_stream_geometries demo_service disjoint_streams = Ok disjoint_unified
  /\ disjoint_unified !! "D" = Some (LineString [(0, 0); (2, 0)])
  /\ @union_stream_geometries demo_service disjoint_streams <> Raise RuntimeError.
Proof.
  split; [vm_compute; reflexivity |]. split; [vm_compute; reflexivity |].
  split; [vm_compute; reflexivity |]. vm_compute. discriminate.
Qed.

(** * Further properties of the stages *)

(** ** The order of the points of a stream *)

Definition distance_le (p q : StreamPoint) : Prop := (distance p <= distance q)%Q.

#[global] Instance distance_le_trans : Transitive distance_le.
Proof. intros p q r. unfold distance_le. apply Qle_trans. Qed.

Lemma distance_lt_true (p q : StreamPoint) :
  distance_lt p q = true -> distance_le p q.
Proof.
  unfold distance_lt, distance_le. intros H. apply negb_true_iff in H.
  apply Qlt_le_weak, Qnot_le_lt. intros Hle. apply Qle_bool_iff in Hle. congruence.
Qed.

Lemma distance_lt_false (p q : StreamPoint) :
  distance_lt p q = false -> distance_le q p.
Proof.
  unfold distance_lt, distance_le. intros H. apply negb_false_iff in H.
  by apply Qle_bool_iff.
Qed.

Lemma insert_by_distance_sorted (p : StreamPoint) (l : list StreamPoint) :
  StronglySorted distance_le l -> StronglySorted distance_le (insert_by_distance p l).
Proof.
  induction l as [| q l IH]; intros Hsorted; simpl.
  { repeat constructor. }
  apply StronglySorted_inv in Hsorted as [Hl Hq].
  destruct (distance_lt q p) eqn:Hlt.
  - constructor; [by apply IH |].
    rewrite insert_by_distance_Permutation. constructor; [| done].
    by apply distance_lt_true.
  - apply distance_lt_false in Hlt. constructor; [by constructor |].
    constructor; [done |].
    eapply Forall_impl; [exact Hq |]. intros r Hr. by transitivity q.
Qed.

Lemma sort_by_distance_sorted (l : list StreamPoint) :
  StronglySorted distance_le (sort_by_distance l).
Proof.
  induction l as [| p l IH]; [constructor |].
  by apply insert_by_distance_sorted.
Qed.

Lemma index_from_sorted (off : nat) (l : list StreamPoint) :
  StronglySorted distance_le l -> StronglySorted distance_le (index_from off l).
Proof.
  revert off. induction l as [| p l IH]; intros off Hsorted; [constructor |].
  apply StronglySorted_inv in Hsorted as [Hl Hp].
  rewrite index_from_cons. constructor; [by apply IH |].
  apply Forall_forall. intros q Hq.
  apply list_elem_of_lookup in Hq as (k & Hk).
  unfold index_from in Hk. rewrite list_lookup_imap in Hk.
  destruct (l !! k) as [q' |] eqn:Hq'; [| done]. injection Hk as <-.
  rewrite Forall_forall in Hp. apply (Hp q'). apply list_elem_of_lookup. by exists k.
Qed.

(** X1. After the assignment, the points of every stream are in the order of
    their distance along the line (a point never comes before a point at a
    smaller distance), and the point at position [k] of the list carries the
    index [k]. *)
Theorem stream_points_ordered {service : GeometryService}
    (unified : gmap string QgsGeometry) (point_features : gmap Z PointFeature)
    (streams_points stream_old_points : gmap string (list StreamPoint))
    (stream_mark : string) (pts : list StreamPoint)
    (Hassign : assign_points_to_streams unified point_features
               = Ok (streams_points, stream_old_points))
    (Hpts : streams_points !! stream_mark = Some pts) :
  StronglySorted distance_le pts
  /\ index <$> pts = (fun k => Some k) <$> seqZ 0 (len pts).
Proof.
  apply assign_points_to_streams_Ok in Hassign as (assigned & _ & -> & _).
  rewrite lookup_fmap in Hpts.
  destruct (assigned !! stream_mark) as [raw |]; [| done]. injection Hpts as <-.
  split.
  - rewrite index_points_from. apply index_from_sorted, sort_by_distance_sorted.
  - apply list_eq. intros k.
    rewrite !list_lookup_fmap, index_points_lookup.
    destruct (decide (Z.of_nat k < len (index_points (sort_by_distance raw)))) as [Hk | Hk].
    + rewrite lookup_seqZ_lt by lia. rewrite len_index_points in Hk.
      destruct (lookup_lt_is_Some_2 (sort_by_distance raw) k) as [p ->];
        [unfold len in Hk; lia |].
      simpl. repeat f_equal.
    + rewrite lookup_seqZ_ge by lia. rewrite len_index_points in Hk.
      rewrite lookup_ge_None_2; [done | unfold len in Hk; lia].
Qed.

Lemma stream_points_ordered_witness :
  @assign_points_to_streams demo_service demo_unified demo_features
  = Ok (demo_assigned.1, demo_assigned.2)
  /\ demo_assigned.1 !! "A" = Some (demo_assigned.1 !!! "A")
  /\ StronglySorted distance_le (demo_assigned.1 !!! "A")
  /\ index <$> (demo_assigned.1 !!! "A")
     = (fun k => Some k) <$> seqZ 0 (len (demo_assigned.1 !!! "A")).
Proof.
  split; [vm_compute; reflexivity |]. split; [vm_compute; reflexivity |].
  apply (@stream_points_ordered demo_service demo_unified demo_features
           demo_assigned.1 demo_assigned.2 "A");
    [vm_compute; reflexivity | vm_compute; reflexivity].
Defined.

(** The points at a given distance. *)
Definition at_distance (d : Q) (p : StreamPoint) : Prop := (distance p == d)%Q.

#[global] Instance at_distance_dec (d : Q) (p : StreamPoint) : Decision (at_distance d p).
Proof. unfold at_distance. apply Qeq_dec. Defined.

Lemma insert_by_distance_filter (d : Q) (p : StreamPoint) (l : list StreamPoint) :
  filter (at_distance d) (insert_by_distance p l) = filter (at_distance d) (p :: l).
Proof.
  induction l as [| q l IH]; [reflexivity |]. simpl.
  destruct (distance_lt q p) eqn:Hlt; [| reflexivity].
  rewrite (filter_cons _ q (insert_by_distance p l)), IH.
  rewrite (filter_cons _ p (q :: l)), (filter_cons _ p l), (filter_cons _ q l).
  destruct (decide (at_distance d q)) as [Hq | Hq]; [| reflexivity].
  destruct (decide (at_distance d p)) as [Hp | Hp]; [| reflexivity].
  exfalso. unfold distance_lt in Hlt. apply negb_true_iff in Hlt.
  assert (Hle : Qle_bool (distance p) (distance q) = true).
  { apply Qle_bool_iff. unfold at_distance in Hp, Hq. rewrite Hp, Hq. apply Qle_refl. }
  congruence.
Qed.

(** X2. The sort by distance is stable: for every distance, the points at
    that distance stand in the sorted list in the order in which they were
    appended. *)
Theorem sort_by_distance_stable (d : Q) (l : list StreamPoint) :
  filter (at_distance d) (sort_by_distance l) = filter (at_distance d) l.
Proof.
  induction l as [| p l IH]; [reflexivity |].
  change (sort_by_distance (p :: l)) with (insert_by_distance p (sort_by_distance l)).
  rewrite insert_by_distance_filter, !filter_cons, IH. reflexivity.
Qed.

(** ** What the numbering keeps and what it fills *)

Lemma length_numerate_line (l res : list StreamPoint) :
  numerate_line l = Ok res -> length res = length l.
Proof.
  intros Hres.
  destruct (decide (old_points_of (index_points l) = [])) as [Hnil | Hne].
  - unfold numerate_line in Hres. rewrite Hnil in Hres. injection Hres as <-.
    rewrite length_imap. apply length_imap.
  - destruct (numerate_line_Ok l res Hres Hne) as (old_points & last & base & _ & _ & ->).
    rewrite length_apply_writes. apply length_imap.
Qed.

Lemma numerate_line_frame (l res : list StreamPoint) (k : nat) (r : StreamPoint) :
  numerate_line l = Ok res -> res !! k = Some r ->
  exists p, l !! k = Some p /\ same_point (set_index (Z.of_nat k) p) r.
Proof.
  intros Hres Hr.
  destruct (decide (old_points_of (index_points l) = [])) as [Hnil | Hne].
  - unfold numerate_line in Hres. rewrite Hnil in Hres. injection Hres as <-.
    rewrite list_lookup_imap, index_points_lookup in Hr.
    destruct (l !! k) as [p |]; [| done]. injection Hr as <-.
    exists p. by repeat split.
  - destruct (numerate_line_Ok l res Hres Hne) as (old_points & last & base & _ & _ & ->).
    destruct (apply_writes_same_point _ _ _ _ Hr) as (q & Hq & Hsame).
    rewrite index_points_lookup in Hq.
    destruct (l !! k) as [p |]; [| done]. injection Hq as <-. by exists p.
Qed.

(** X3. The numbering changes nothing but the new numbers: when it returns,
    the list has the same points in the same order, each with its
    identifier, its distance and its old number, and with its position as
    index.  When moreover each point came with its old number as new number,
    as the assigner builds it, every point leaves with a new number. *)
Theorem numbering_keeps_points (l res : list StreamPoint)
    (Hres : numerate_line l = Ok res)
    (Hfresh : Forall (fun p => new_number p = old_number p) l) :
  point_id <$> res = point_id <$> l
  /\ distance <$> res = distance <$> l
  /\ old_number <$> res = old_number <$> l
  /\ index <$> res = (fun k => Some k) <$> seqZ 0 (len l)
  /\ Forall (fun r => is_Some (new_number r)) res.
Proof.
  pose proof (length_numerate_line l res Hres) as Hlen.
  assert (Hpoint : forall k r, res !! k = Some r ->
            exists p, l !! k = Some p /\ same_point (set_index (Z.of_nat k) p) r).
  { intros k r. by apply numerate_line_frame. }
  assert (Hfield : forall {A} (f : StreamPoint -> A),
            (forall k p r, same_point (set_index (Z.of_nat k) p) r -> f r = f p) ->
            f <$> res = f <$> l).
  { intros A f Hf. apply list_eq. intros k. rewrite !list_lookup_fmap.
    destruct (res !! k) as [r |] eqn:Hr.
    - destruct (Hpoint k r Hr) as (p & -> & Hsame). simpl. f_equal. by eapply Hf.
    - apply lookup_ge_None in Hr. rewrite lookup_ge_None_2 by lia. reflexivity. }
  split; [| split; [| split; [| split]]].
  - apply Hfield. by intros k p r (? & _).
  - apply Hfield. by intros k p r (_ & ? & _).
  - apply Hfield. by intros k p r (_ & _ & ? & _).
  - apply list_eq. intros k. rewrite !list_lookup_fmap.
    destruct (res !! k) as [r |] eqn:Hr.
    + destruct (Hpoint k r Hr) as (p & Hp & (_ & _ & _ & Hidx)).
      apply lookup_lt_Some in Hp.
      rewrite lookup_seqZ_lt by (unfold len; lia). simpl. rewrite Hidx. simpl.
      repeat f_equal; lia.
    + apply lookup_ge_None in Hr.
      rewrite lookup_seqZ_ge by (unfold len; lia). reflexivity.
  - apply Forall_forall. intros r Hr. apply list_elem_of_lookup in Hr as (k & Hk).
    destruct (numerate_line_point l res k r Hres Hk) as (p & Hp & _ & _ & Hkeep & Hfill).
    rewrite Forall_forall in Hfresh.
    assert (Hnew : new_number p = old_number p).
    { apply Hfresh. apply list_elem_of_lookup. by exists k. }
    destruct (old_number p) as [s |] eqn:Hold.
    + rewrite Hkeep by (unfold has_old_number; by rewrite Hold). by rewrite Hnew.
    + by apply Hfill.
Qed.

Lemma numbering_keeps_points_witness :
  numerate_line [unnumbered 1 0; legacy 2 1 "5P"; unnumbered 3 2] = Ok
    [mkStreamPoint 1 0 None (Some "1Pnowy") (Some 0);
     mkStreamPoint 2 1 (Some "5P") (Some "5P") (Some 1);
     mkStreamPoint 3 2 None (Some "6P") (Some 2)]
  /\ Forall (fun p => new_number p = old_number p)
            [unnumbered 1 0; legacy 2 1 "5P"; unnumbered 3 2]
  /\ Forall (fun r => is_Some (new_number r))
       [mkStreamPoint 1 0 None (Some "1Pnowy") (Some 0);
        mkStreamPoint 2 1 (Some "5P") (Some "5P") (Some 1);
        mkStreamPoint 3 2 None (Some "6P") (Some 2)].
Proof.
  split; [vm_compute; reflexivity |]. split; [repeat constructor |].
  apply (numbering_keeps_points [unnumbered 1 0; legacy 2 1 "5P"; unnumbered 3 2]);
    [vm_compute; reflexivity | repeat constructor].
Defined.

Lemma filter_all {A} (P : A -> Prop) `{forall x, Decision (P x)} (l : list A) :
  Forall P l -> filter P l = l.
Proof.
  induction 1 as [| x l Hx Hl IH]; [reflexivity |].
  by rewrite filter_cons_True, IH.
Qed.

Lemma old_points_of_all_legacy (l : list StreamPoint) :
  Forall has_old_number l -> old_points_of (index_points l) = index_points l.
Proof.
  intros Hall. unfold old_points_of. apply filter_all.
  apply Forall_forall. intros q Hq. apply list_elem_of_lookup in Hq as (k & Hk).
  rewrite index_points_lookup in Hk.
  destruct (l !! k) as [p |] eqn:Hp; [| done]. injection Hk as <-.
  rewrite Forall_forall in Hall. apply (Hall p). apply list_elem_of_lookup. by exists k.
Qed.

(** X4. A line on which every point has a legacy number is left as it is:
    the numbering returns the indexed line, writes no number and parses no
    identifier, so that even identifiers that are not of the form digits
    plus marker do not fail. *)
Theorem all_legacy_untouched (l : list StreamPoint)
    (Hall : Forall has_old_number l) :
  numerate_line l = Ok (index_points l).
Proof.
  destruct (decide (l = [])) as [-> | Hl]; [reflexivity |].
  pose proof (old_points_of_all_legacy l Hall) as Hold_all.
  assert (Hne : index_points l <> []).
  { destruct l; [done | discriminate]. }
  destruct (snoc_of_nonempty _ Hne) as (old_points & last & Hsnoc).
  assert (Hold : old_points_of (index_points l) = old_points ++ [last]) by congruence.
  assert (Hlen : length l = S (length old_points)).
  { rewrite <- (length_imap (fun i p => set_index (Z.of_nat i) p) l).
    fold (index_points l). rewrite Hsnoc, length_app. simpl. lia. }
  assert (Hlast : order_index last = len l - 1).
  { assert (Hlk : index_points l !! length old_points = Some last).
    { rewrite Hsnoc. by rewrite lookup_app_r, Nat.sub_diag by lia. }
    rewrite index_points_lookup in Hlk.
    destruct (l !! length old_points) as [p |]; [| done]. injection Hlk as <-.
    rewrite order_index_set_index. unfold len. lia. }
  rewrite (numerate_line_writes l old_points last Hold).
  unfold after_base. destruct (order_index last <? len l - 1) eqn:Hlt; [lia |].
  simpl. f_equal. apply list_eq. intros k.
  destruct (l !! k) as [p |] eqn:Hp.
  - rewrite (numerate_line_old_kept l old_points last 0 k p Hold Hp).
    + by rewrite index_points_lookup, Hp.
    + rewrite Forall_forall in Hall. apply Hall. apply list_elem_of_lookup. by exists k.
  - apply lookup_ge_None in Hp.
    rewrite !lookup_ge_None_2; [done | |].
    + unfold index_points. rewrite length_imap. lia.
    + rewrite length_apply_writes. unfold index_points. rewrite length_imap. lia.
Qed.

Lemma all_legacy_untouched_witness :
  Forall has_old_number [legacy 1 0 "north"; legacy 2 1 "x"; legacy 3 2 "7P"]
  /\ numerate_line [legacy 1 0 "north"; legacy 2 1 "x"; legacy 3 2 "7P"]
     = Ok (index_points [legacy 1 0 "north"; legacy 2 1 "x"; legacy 3 2 "7P"]).
Proof.
  split; [repeat constructor; discriminate |].
  apply (all_legacy_untouched [legacy 1 0 "north"; legacy 2 1 "x"; legacy 3 2 "7P"]).
  repeat constructor; discriminate.
Defined.

(** ** Failures of the numbering *)

(** X5. On a line whose last legacy point [last_old] is followed by the
    points [post], the numbering raises exactly when [post] is not empty and
    the legacy identifier without its last character is refused by [int],
    and it raises what [int] raises; when the last legacy point closes the
    line, nothing is parsed and the numbering returns.  The identifier and
    the last number to write keep within the digits that the interpreter
    converts, so that no conversion is refused for its length. *)
Theorem numbering_fails_on_unparsable_base (pre : list StreamPoint)
    (last_old : StreamPoint) (post : list StreamPoint) (s : string) (e : exn)
    (Hlegacy : old_number last_old = Some s)
    (Hpost : Forall no_old_number post)
    (Hdigits : Z.of_nat (String.length s) <= int_max_str_digits)
    (Hwritten : forall B, int (strip_last s) = Ok B ->
                          B + len post < 10 ^ int_max_str_digits) :
  numerate_line (pre ++ last_old :: post) = Raise e
  <-> post <> [] /\ int (strip_last s) = Raise e.
Proof.
  set (l := pre ++ last_old :: post).
  set (last := set_index (len pre) last_old).
  assert (Hold : old_points_of (index_points l) = old_points_of (index_from 0 pre) ++ [last]).
  { unfold l. rewrite old_points_of_split by (by eapply has_old_number_Some).
    by rewrite (old_points_of_no_old _ post) by done. }
  assert (Hlen : len l = len pre + 1 + len post).
  { unfold l. rewrite len_app, len_cons. lia. }
  rewrite (numerate_line_writes l _ last Hold).
  unfold after_base, last. rewrite order_index_set_index.
  unfold old_base. simpl. rewrite Hlegacy. simpl.
  destruct (len pre <? len l - 1) eqn:Hlt.
  - assert (Hne : post <> []).
    { intros ->. change (len (@nil StreamPoint)) with 0 in Hlen. lia. }
    destruct (int (strip_last s)) as [base | e']; simpl.
    + split; [discriminate | intros [_ [=]]].
    + split; [by intros [= ->] | by intros [_ [= ->]]].
  - simpl. split; [discriminate |]. intros [Hne _].
    destruct post as [| q post]; [done |]. rewrite len_cons in Hlen.
    pose proof (len_nonneg post). lia.
Qed.

Lemma numbering_fails_on_unparsable_base_witness :
  old_number (legacy 2 1 "north") = Some "north"
  /\ Forall no_old_number [unnumbered 3 2]
  /\ Z.of_nat (String.length "north") <= int_max_str_digits
  /\ (forall B, int (strip_last "north") = Ok B ->
                B + len [unnumbered 3 2] < 10 ^ int_max_str_digits)
  /\ (numerate_line ([unnumbered 1 0] ++ legacy 2 1 "north" :: [unnumbered 3 2])
      = Raise ValueError
      <-> [unnumbered 3 2] <> [] /\ int (strip_last "north") = Raise ValueError)
  /\ numerate_line ([unnumbered 1 0] ++ legacy 2 1 "north" :: [unnumbered 3 2])
     = Raise ValueError.
Proof.
  split; [reflexivity |]. split; [repeat constructor |].
  split; [by vm_compute |]. split; [intros B HB; vm_compute in HB; discriminate |].
  split.
  - apply (numbering_fails_on_unparsable_base [unnumbered 1 0] (legacy 2 1 "north")
             [unnumbered 3 2] "north" ValueError);
      [reflexivity | repeat constructor | by vm_compute
      | intros B HB; vm_compute in HB; discriminate].
  - vm_compute. reflexivity.
Defined.

Section items_loop_raises.
Context {V S : Type}.
Variable body : gmap string S -> string * V -> result (gmap string S).
Variable step : string -> V -> option S -> result (option S).
Hypothesis body_step : forall st k v,
  body st (k, v) = o ← step k v (st !! k); Ok (partial_alter (fun _ => o) k st).

(** A loop over items with distinct keys raises exactly when the step of
    one of its items raises on the value found at the start. *)
Lemma for_each_items_raises (items : list (string * V)) (st : gmap string S) :
  NoDup items.*1 ->
  (exists e, for_each body items st = Raise e)
  <-> exists k v e, (k, v) ∈ items /\ step k v (st !! k) = Raise e.
Proof.
  revert st. induction items as [| [k0 v0] items IH]; intros st Hnodup.
  { split; [intros [e [=]] |]. intros (k & v & e & Hin & _). by apply elem_of_nil in Hin. }
  rewrite fmap_cons in Hnodup. apply NoDup_cons in Hnodup as [Hfresh Hnodup].
  simpl. rewrite body_step.
  assert (Hother : forall k v o, (k, v) ∈ items ->
            partial_alter (fun _ => o) k0 st !! k = st !! k).
  { intros k v o Hin. apply lookup_partial_alter_ne. intros <-.
    apply Hfresh. apply list_elem_of_fmap. by exists (k0, v). }
  destruct (step k0 v0 (st !! k0)) as [o | e0] eqn:Hstep; simpl.
  - rewrite (IH _ Hnodup). split.
    + intros (k & v & e & Hin & He). exists k, v, e. split; [by right |].
      by rewrite <- (Hother k v o Hin).
    + intros (k & v & e & Hin & He). apply elem_of_cons in Hin as [[= -> ->] | Hin].
      * congruence.
      * exists k, v, e. split; [done |]. by rewrite (Hother k v o Hin).
  - split; [| by eexists]. intros _. exists k0, v0, e0. split; [left | done].
Qed.
End items_loop_raises.

Lemma except_RuntimeError_Raise {A} (r : result A) (e : exn) :
  except_RuntimeError r = Raise e <-> e = RuntimeError /\ exists e', r = Raise e'.
Proof.
  destruct r as [a | e']; simpl; split.
  - discriminate.
  - intros [_ [? [=]]].
  - intros [= <-]. split; [done | by eexists].
  - by intros [-> _].
Qed.

(** X6. The stage [numerate_points] fails for the whole run as soon as one
    stream fails: it raises exactly when the numbering of some stream
    raises, whatever the other streams are, and what it raises is a
    [RuntimeError]. *)
Theorem numerate_points_fails_as_a_whole
    (streams_points stream_old_points : gmap string (list StreamPoint)) (e : exn) :
  numerate_points streams_points stream_old_points = Raise e
  <-> e = RuntimeError
      /\ exists stream_mark stream_points e',
          streams_points !! stream_mark = Some stream_points
          /\ numerate_stream stream_points (stream_old_points !!! stream_mark) = Raise e'.
Proof.
  unfold numerate_points. rewrite except_RuntimeError_Raise.
  rewrite (for_each_items_raises _
             (fun k sp _ => numbered ← numerate_stream sp (stream_old_points !!! k);
                            Ok (Some numbered))).
  - split; intros [-> (k & sp & e' & H1 & H2)]; (split; [done |]); exists k, sp, e'.
    + apply elem_of_map_to_list in H1. split; [done |].
      destruct (numerate_stream sp (stream_old_points !!! k)); simpl in H2; congruence.
    + split; [by apply elem_of_map_to_list |]. by rewrite H2.
  - intros st k v. simpl.
    destruct (numerate_stream v (stream_old_points !!! k)); reflexivity.
  - apply NoDup_fst_map_to_list.
Qed.

(** ** Numbers as strings *)

(** The value of a sequence of decimal digits that continues [acc]. *)
Fixpoint uint_value (d : Decimal.uint) (acc : Z) : Z :=
  match d with
  | Decimal.Nil => acc
  | Decimal.D0 l => uint_value l (10 * acc)
  | Decimal.D1 l => uint_value l (10 * acc + 1)
  | Decimal.D2 l => uint_value l (10 * acc + 2)
  | Decimal.D3 l => uint_value l (10 * acc + 3)
  | Decimal.D4 l => uint_value l (10 * acc + 4)
  | Decimal.D5 l => uint_value l (10 * acc + 5)
  | Decimal.D6 l => uint_value l (10 * acc + 6)
  | Decimal.D7 l => uint_value l (10 * acc + 7)
  | Decimal.D8 l => uint_value l (10 * acc + 8)
  | Decimal.D9 l => uint_value l (10 * acc + 9)
  end.

Ltac eval_digit :=
  match goal with
  | |- context [digit_value ?c] =>
      let v := eval vm_compute in (digit_value c) in
      change (digit_value c) with v
  end.

Lemma read_digits_uint (d : Decimal.uint) (acc : Z) (after_digit : bool) :
  d <> Decimal.Nil \/ after_digit = true ->
  read_digits acc after_digit (NilEmpty.string_of_uint d) = Some (uint_value d acc).
Proof.
  revert acc after_digit.
  induction d as [| d IH | d IH | d IH | d IH | d IH | d IH | d IH | d IH | d IH | d IH];
    intros acc after_digit Hd;
    [ destruct Hd as [Hd | ->]; [done | reflexivity] | .. ];
    cbn [NilEmpty.string_of_uint read_digits uint_value]; eval_digit; cbv iota;
    (rewrite IH by (by right)); rewrite ?Z.add_0_r; reflexivity.
Qed.

Lemma uint_value_pos (d : Decimal.uint) (p : positive) :
  uint_value d (Z.pos p) = Z.pos (Pos.of_uint_acc d p).
Proof.
  revert p. induction d; intros p; cbn [uint_value Pos.of_uint_acc]; [reflexivity | ..];
    rewrite <- IHd; f_equal; lia.
Qed.

Lemma uint_value_0 (d : Decimal.uint) : uint_value d 0 = Z.of_uint d.
Proof.
  unfold Z.of_uint.
  induction d; cbn [uint_value Pos.of_uint]; [reflexivity | exact IHd | ..];
    (etransitivity; [apply (uint_value_pos d) | reflexivity]).
Qed.

Lemma read_digits_NilZero (d : Decimal.uint) :
  read_digits 0 false (NilZero.string_of_uint d) = Some (Z.of_uint d).
Proof.
  destruct d; [reflexivity | ..];
    (rewrite <- uint_value_0; apply read_digits_uint; left; discriminate).
Qed.

Lemma int_unsigned (c : ascii) (rest : string) (v : Z) :
  is_space c = false -> c <> "-"%char -> c <> "+"%char ->
  read_digits 0 false (String c rest) = Some v ->
  int (String c rest) = Ok v.
Proof.
  intros Hspace Hminus Hplus Hread. unfold int.
  cbn [skip_spaces]. rewrite Hspace.
  assert (Hsign : match String c rest with
                  | String "-" r => (-1, r)
                  | String "+" r => (1, r)
                  | _ => (1, String c rest)
                  end = (1, String c rest)).
  { destruct c as [[] [] [] [] [] [] [] []]; try reflexivity; congruence. }
  rewrite Hsign, Hread. f_equal; lia.
Qed.

Lemma NilZero_string_head (d : Decimal.uint) :
  exists c rest,
    NilZero.string_of_uint d = String c rest
    /\ is_space c = false /\ c <> "-"%char /\ c <> "+"%char.
Proof.
  destruct d; eexists _, _; (split; [reflexivity |]);
    (split; [reflexivity |]); split; discriminate.
Qed.

Lemma int_str (n : Z) : int (str n) = Ok n.
Proof.
  unfold str. rewrite <- (DecimalZ.of_to n) at 2.
  destruct (Z.to_int n) as [d | d]; cbn [NilZero.string_of_int Z.of_int].
  - destruct (NilZero_string_head d) as (c & rest & Heq & Hspace & Hminus & Hplus).
    pose proof (read_digits_NilZero d) as Hread. rewrite Heq in *.
    by apply int_unsigned.
  - unfold int. cbn [skip_spaces]. change (is_space "-") with false. cbv iota.
    rewrite read_digits_NilZero. f_equal; lia.
Qed.

Lemma strip_last_snoc (s : string) (c : ascii) :
  strip_last (s +:+ String c EmptyString) = s.
Proof.
  induction s as [| a s IH]; [reflexivity |].
  destruct s as [| b s]; [reflexivity |].
  change (String a (strip_last (String b s +:+ String c EmptyString))
          = String a (String b s)).
  by rewrite IH.
Qed.


Lemma str_inj (n m : Z) : str n = str m -> n = m.
Proof.
  intros Heq. pose proof (int_str n) as Hn. rewrite Heq, int_str in Hn. congruence.
Qed.

Lemma append_marker_inj (s t : string) (c : ascii) :
  s +:+ String c EmptyString = t +:+ String c EmptyString -> s = t.
Proof.
  intros Heq. rewrite <- (strip_last_snoc s c), <- (strip_last_snoc t c). by rewrite Heq.
Qed.

Lemma numerate_line_no_legacy (l : list StreamPoint) :
  Forall no_old_number l ->
  exists res,
    numerate_line l = Ok res
    /\ new_number <$> res = (fun i => Some (str (i + 1) +:+ "P")) <$> seqZ 0 (len l).
Proof.
  intros Hnone. unfold numerate_line.
  change (old_points_of (index_points l)) with (old_points_of (index_from 0 l)).
  rewrite old_points_of_no_old by done. simpl.
  eexists. split; [reflexivity |].
  apply list_eq. intros k.
  rewrite lookup_numbers_seqZ, list_lookup_fmap, list_lookup_imap, index_points_lookup.
  case_decide as Hk.
  - destruct (lookup_lt_is_Some_2 l k) as [p Hp]; [unfold len in Hk; lia |].
    rewrite Hp. simpl. do 3 f_equal.
  - rewrite lookup_ge_None_2; [reflexivity | unfold len in Hk; lia].
Qed.

(** X8. On a line without legacy points no number is given twice: the new
    numbers of the points are pairwise distinct. *)
Theorem no_legacy_numbers_distinct (l res : list StreamPoint)
    (Hnone : Forall no_old_number l)
    (Hres : numerate_line l = Ok res) :
  NoDup (new_number <$> res).
Proof.
  destruct (numerate_line_no_legacy l Hnone) as (res' & Hres' & Hnumbers).
  rewrite Hres in Hres'. injection Hres' as <-. rewrite Hnumbers.
  apply NoDup_fmap_2; [| apply NoDup_seqZ].
  intros i j [= Heq]. apply append_marker_inj, str_inj in Heq. lia.
Qed.

Lemma no_legacy_numbers_distinct_witness :
  Forall no_old_number [unnumbered 7 0; unnumbered 3 1; unnumbered 5 2]
  /\ numerate_line [unnumbered 7 0; unnumbered 3 1; unnumbered 5 2]
     = Ok [mkStreamPoint 7 0 None (Some "1P") (Some 0);
           mkStreamPoint 3 1 None (Some "2P") (Some 1);
           mkStreamPoint 5 2 None (Some "3P") (Some 2)]
  /\ NoDup (new_number <$> [mkStreamPoint 7 0 None (Some "1P") (Some 0);
                             mkStreamPoint 3 1 None (Some "2P") (Some 1);
                             mkStreamPoint 5 2 None (Some "3P") (Some 2)]).
Proof.
  split; [repeat constructor |]. split; [vm_compute; reflexivity |].
  apply (no_legacy_numbers_distinct [unnumbered 7 0; unnumbered 3 1; unnumbered 5 2]);
    [repeat constructor | vm_compute; reflexivity].
Defined.

(** ** The letter suffix is a numeral system *)

Lemma append_snoc_inj (p q : string) (c d : ascii) :
  p +:+ String c EmptyString = q +:+ String d EmptyString -> p = q /\ c = d.
Proof.
  revert q. induction p as [| a p IH]; intros q Heq.
  - destruct q as [| b q]; [by injection Heq as -> |].
    injection Heq as _ Heq. by destruct q.
  - destruct q as [| b q].
    + injection Heq as _ Heq. by destruct p.
    + injection Heq as -> Heq. destruct (IH q Heq) as [-> ->]. done.
Qed.

Lemma letter_inj (a b : Z) : 0 <= a < 26 -> 0 <= b < 26 -> letter a = letter b -> a = b.
Proof.
  intros Ha Hb. unfold letter, ord_a. intros [= Heq].
  apply (f_equal N_of_ascii) in Heq.
  rewrite !N_ascii_embedding in Heq by lia. lia.
Qed.

Lemma generate_letter_suffix_inj_aux (n : Z) :
  forall m s, 0 <= n -> 0 <= m ->
    generate_letter_suffix n = Ok s -> generate_letter_suffix m = Ok s -> n = m.
Proof.
  induction (suffix_call_Acc n) as [n _ IH]. intros m s Hn Hm Hsn Hsm.
  rewrite generate_letter_suffix_step in Hsn, Hsm.
  destruct (Z_lt_dec n 26) as [Hn26 | Hn26], (Z_lt_dec m 26) as [Hm26 | Hm26].
  - rewrite chr_letter in Hsn, Hsm by done. apply letter_inj; [lia | lia | congruence].
  - exfalso. rewrite chr_letter in Hsn by done.
    destruct (generate_letter_suffix_returns (m / 26 - 1)) as (pm & Hpm & Hne).
    { assert (suffix_call (m / 26 - 1) m) as H by (split; [lia | done]).
      apply suffix_call_smaller in H. lia. }
    rewrite Hpm in Hsm. simpl in Hsm.
    rewrite chr_letter in Hsm by (apply Z.mod_pos_bound; lia). simpl in Hsm.
    injection Hsn as <-. injection Hsm as Heq.
    change (letter n) with (EmptyString +:+ letter n) in Heq.
    apply append_snoc_inj in Heq as [-> _]. done.
  - exfalso. rewrite chr_letter in Hsm by done.
    destruct (generate_letter_suffix_returns (n / 26 - 1)) as (pn & Hpn & Hne).
    { assert (suffix_call (n / 26 - 1) n) as H by (split; [lia | done]).
      apply suffix_call_smaller in H. lia. }
    rewrite Hpn in Hsn. simpl in Hsn.
    rewrite chr_letter in Hsn by (apply Z.mod_pos_bound; lia). simpl in Hsn.
    injection Hsm as <-. injection Hsn as Heq.
    change (letter m) with (EmptyString +:+ letter m) in Heq.
    apply append_snoc_inj in Heq as [-> _]. done.
  - assert (Hcn : suffix_call (n / 26 - 1) n) by (split; [lia | done]).
    assert (Hcm : suffix_call (m / 26 - 1) m) by (split; [lia | done]).
    pose proof (suffix_call_smaller _ _ Hcn). pose proof (suffix_call_smaller _ _ Hcm).
    destruct (generate_letter_suffix (n / 26 - 1)) as [pn | e] eqn:Hpn; [| done].
    destruct (generate_letter_suffix (m / 26 - 1)) as [pm | e] eqn:Hpm; [| done].
    simpl in Hsn, Hsm.
    rewrite chr_letter in Hsn, Hsm by (apply Z.mod_pos_bound; lia). simpl in Hsn, Hsm.
    injection Hsn as <-. injection Hsm as Heq.
    apply append_snoc_inj in Heq as [Hp Hc].
    assert (Hq : n / 26 - 1 = m / 26 - 1).
    { apply (IH _ Hcn (m / 26 - 1) pn); [lia | lia | done | congruence]. }
    assert (Hr : n mod 26 = m mod 26).
    { apply letter_inj; [apply Z.mod_pos_bound; lia | apply Z.mod_pos_bound; lia |].
      unfold letter. by rewrite Hc. }
    rewrite (Z.div_mod n 26), (Z.div_mod m 26) by lia. lia.
Qed.

(** X9. The letter suffix never repeats: two different ranks that are not
    negative have different suffixes, so that the points between two legacy
    points all receive different numbers. *)
Theorem generate_letter_suffix_injective (n m : Z)
    (Hn : 0 <= n) (Hm : 0 <= m) (Hne : n <> m) :
  generate_letter_suffix n <> generate_letter_suffix m.
Proof.
  intros Heq. destruct (generate_letter_suffix_returns n Hn) as (s & Hs & _).
  apply Hne. apply (generate_letter_suffix_inj_aux n m s); congruence.
Qed.

Lemma generate_letter_suffix_injective_witness :
  0 <= 25 /\ 0 <= 26 /\ 25 <> 26
  /\ generate_letter_suffix 25 <> generate_letter_suffix 26.
Proof.
  split; [lia |]. split; [lia |]. split; [lia |].
  apply (generate_letter_suffix_injective 25 26); lia.
Defined.

(** ** Failures and keys of the assignment *)

Lemma bind_Ok_raises {A B} (r : result A) (f : A -> B) :
  (exists e, r ≫= (fun x => Ok (f x)) = Raise e) <-> exists e, r = Raise e.
Proof. destruct r as [a | e0]; simpl; split; intros [e' [=]]; by eexists. Qed.

Section assigner_failures.
Context {service : GeometryService}.
Variable point_features : gmap Z PointFeature.

Lemma accepted_raises (unified_geom : QgsGeometry) (ids : list Z) :
  (exists e, accepted point_features unified_geom ids = Raise e)
  <-> exists point_id, point_id ∈ ids /\ point_features !! point_id = None.
Proof.
  induction ids as [| point_id ids IH].
  { split; [intros [e [=]] |]. intros (id & Hid & _). by apply elem_of_nil in Hid. }
  simpl. unfold accept_candidate at 1.
  destruct (point_features !! point_id) as [feat |] eqn:Hfeat.
  - assert (Hrest : (exists e, accepted point_features unified_geom ids = Raise e)
                    <-> exists id, id ∈ point_id :: ids /\ point_features !! id = None).
    { rewrite IH. split.
      - intros (id & Hid & Hnone). exists id. split; [by right | done].
      - intros (id & Hid & Hnone). apply elem_of_cons in Hid as [-> | Hid]; [congruence |].
        by exists id. }
    rewrite <- Hrest.
    destruct (point_geometry feat) as [pg |]; simpl;
      [destruct (negb (intersects_buffered pg unified_geom)); simpl |];
      apply bind_Ok_raises.
  - simpl. split; [| by eexists]. intros _. exists point_id. split; [left | done].
Qed.

(** X10. The assignment fails exactly when the index returns, for a stream
    whose geometry is not empty, an identifier that is not among the point
    features; it then raises a [RuntimeError], whatever the other streams
    and points are. *)
Theorem assignment_fails_on_unknown_candidate (unified : gmap string QgsGeometry)
    (e : exn) :
  assign_points_to_streams unified point_features = Raise e
  <-> e = RuntimeError
      /\ exists stream_mark g point_id,
          unified !! stream_mark = Some g /\ isEmpty g = false
          /\ point_id ∈ index_intersects g /\ point_features !! point_id = None.
Proof.
  unfold assign_points_to_streams. rewrite except_RuntimeError_Raise.
  rewrite bind_Ok_raises.
  rewrite (for_each_items_raises _ (assign_step point_features)
             (assign_stream_step point_features)) by apply NoDup_fst_map_to_list.
  split.
  - intros [-> (k & g & e' & Hin & Hstep)]. split; [done |].
    apply elem_of_map_to_list in Hin. unfold assign_step in Hstep.
    destruct (isEmpty g) eqn:Hempty; [done |].
    destruct (accepted point_features g (index_intersects g)) as [pts | e0] eqn:Hacc;
      [done |].
    assert (Hex : exists e, accepted point_features g (index_intersects g) = Raise e)
      by by eexists.
    apply accepted_raises in Hex as (id & Hid & Hnone).
    by exists k, g, id.
  - intros [-> (k & g & id & Hg & Hempty & Hid & Hnone)]. split; [done |].
    assert (Hex : exists id, id ∈ index_intersects g /\ point_features !! id = None)
      by by exists id.
    apply (accepted_raises g) in Hex as (e0 & Hacc).
    exists k, g, e0. split; [by apply elem_of_map_to_list |].
    unfold assign_step. by rewrite Hempty, Hacc.
Qed.

(** X11. The assignment keeps no empty list: every stream that has an entry
    in [streams_points] has at least one point, and [stream_old_points] holds
    for it exactly its points with an old number, in the order of the
    stream.  A stream with an empty geometry, or that no point matches, has
    no entry. *)
Theorem assignment_keeps_no_empty_list (unified : gmap string QgsGeometry)
    (streams_points stream_old_points : gmap string (list StreamPoint))
    (stream_mark : string)
    (Hassign : assign_points_to_streams unified point_features
               = Ok (streams_points, stream_old_points)) :
  match streams_points !! stream_mark with
  | Some pts =>
      pts <> []
      /\ stream_old_points !! stream_mark = Some (old_points_of pts)
      /\ exists g, unified !! stream_mark = Some g /\ isEmpty g = false
  | None =>
      stream_old_points !! stream_mark = None
      /\ forall g, unified !! stream_mark = Some g -> isEmpty g = false ->
                   forall point_id, ~ matches point_features point_id g
  end.
Proof.
  apply assign_points_to_streams_Ok in Hassign as (assigned & Hloop & -> & ->).
  pose proof (assign_loop_Ok point_features unified assigned Hloop) as Hassigned.
  rewrite !lookup_fmap.
  destruct (assigned !! stream_mark) as [raw |] eqn:Hraw; simpl.
  - apply Hassigned in Hraw as (g & Hg & Hempty & _ & Hne).
    split; [| split; [done | by exists g]].
    intros Hnil. apply Hne.
    apply (f_equal length) in Hnil. unfold index_points in Hnil.
    rewrite length_imap in Hnil.
    rewrite (Permutation_length (sort_by_distance_Permutation raw)) in Hnil.
    by destruct raw.
  - split; [done |]. intros g Hg Hempty id (Hid & feat & pg & Hfeat & Hpg & Hint).
    destruct (accepted point_features g (index_intersects g)) as [pts | e] eqn:Hacc.
    + assert (Hin : mkStreamPoint id (lineLocatePoint g pg)
                      (read_old_number (point_old_number feat))
                      (read_old_number (point_old_number feat)) None ∈ pts).
      { apply (elem_of_accepted point_features g _ _ _ Hacc). exists id.
        split; [done |]. apply accept_candidate_Some. by exists feat, pg. }
      assert (Hsome : assigned !! stream_mark = Some pts).
      { apply Hassigned. exists g. repeat split; try done.
        intros ->. by apply elem_of_nil in Hin. }
      congruence.
    + apply elem_of_map_to_list in Hg.
      eapply (for_each_items_Ok _ (assign_step point_features)) in Hloop;
        [| apply assign_stream_step | apply NoDup_fst_map_to_list].
      destruct Hloop as [Hitems _]. specialize (Hitems _ _ Hg).
      unfold assign_step in Hitems. by rewrite Hempty, Hacc in Hitems.
Qed.
End assigner_failures.

Lemma assignment_keeps_no_empty_list_witness :
  @assign_points_to_streams demo_service demo_unified demo_features
  = Ok (demo_assigned.1, demo_assigned.2)
  /\ match demo_assigned.1 !! "A" with
     | Some pts =>
         pts <> []
         /\ demo_assigned.2 !! "A" = Some (old_points_of pts)
         /\ exists g, demo_unified !! "A" = Some g /\ isEmpty g = false
     | None =>
         demo_assigned.2 !! "A" = None
         /\ forall g, demo_unified !! "A" = Some g -> isEmpty g = false ->
                      forall point_id, ~ @matches demo_service demo_features point_id g
     end.
Proof.
  split; [vm_compute; reflexivity |].
  apply (@assignment_keeps_no_empty_list demo_service demo_features demo_unified
           demo_assigned.1 demo_assigned.2 "A").
  vm_compute; reflexivity.
Defined.

(** ** Keys and failures of the unifier *)

Section unifier_failures.
Context {service : GeometryService}.

(** X12. When the unifier returns, the marks of its dictionary are exactly
    the marks that have a valid fragment: features with a blank mark, an
    empty geometry or fewer than two vertices add no mark and do not make
    the stage fail. *)
Theorem unified_marks (streams : list StreamFeature)
    (unified : gmap string QgsGeometry) (stream_mark : string)
    (Hrun : union_stream_geometries streams = Ok unified) :
  is_Some (unified !! stream_mark) <-> fragments_of stream_mark streams <> [].
Proof.
  destruct (union_stream_geometries_Ok streams unified stream_mark Hrun)
    as [[Hnil Hnone] | (Hne & vs & v0 & _ & _ & Hsome)].
  - rewrite Hnil, Hnone. split; [by intros [? [=]] | done].
  - rewrite Hsome. split; [done | by eexists].
Qed.

Lemma fragments_of_vertices (stream_mark : string) (streams : list StreamFeature)
    (vertices : list QgsPointXY) :
  vertices ∈ fragments_of stream_mark streams ->
  exists v0 rest, vertices = v0 :: rest.
Proof.
  unfold fragments_of. intros Hin. apply list_elem_of_omap in Hin as (stream & _ & Hf).
  destruct (fragment stream) as [[m vs] |] eqn:Hfrag; [| done].
  destruct (decide (m = stream_mark)); [| done]. injection Hf as ->.
  destruct (fragment_vertices _ _ _ Hfrag) as (v0 & vn & Hhead & _).
  destruct vertices as [| v rest]; [done |]. by exists v, rest.
Qed.

(** X13. A layer on which no mark has more than one valid fragment always
    unifies: nothing is merged and the unifier returns. *)
Theorem single_fragments_always_unify (streams : list StreamFeature)
    (Hsingle : forall stream_mark,
        (length (fragments_of stream_mark streams) <= 1)%nat) :
  is_Ok (union_stream_geometries streams).
Proof.
  apply union_stream_geometries_returns. intros mark Hne.
  specialize (Hsingle mark).
  destruct (fragments_of mark streams) as [| vs [| ? ?]] eqn:Hfrags;
    [done | | simpl in Hsingle; lia].
  destruct (fragments_of_vertices mark streams vs) as (v0 & rest & ->).
  { rewrite Hfrags. left. }
  by exists v0, rest.
Qed.

(** X14. The unifier fails exactly when, for some mark with a valid
    fragment, the geometry retained after the merge is not a single line
    with at least one vertex (for instance when the merge gives a null
    geometry); it then raises a [RuntimeError] for the whole layer. *)
Theorem unifier_fails_on_unreadable_merge (streams : list StreamFeature) (e : exn) :
  union_stream_geometries streams = Raise e
  <-> e = RuntimeError
      /\ exists stream_mark,
          fragments_of stream_mark streams <> []
          /\ forall v0 rest,
              asPolyline (merged_of (fragments_of stream_mark streams)) <> Ok (v0 :: rest).
Proof.
  unfold union_stream_geometries. rewrite except_RuntimeError_Raise.
  destruct (collect_streams streams) as (acc & -> & Hacc). simpl.
  rewrite (for_each_items_raises _ (direction_step (stream_end_points acc))
             (correct_direction_step (stream_end_points acc)))
    by apply NoDup_fst_map_to_list.
  assert (Hgeom : forall k g,
            (merge_group <$> streams_geoms acc) !! k = Some g
            <-> fragments_of k streams <> [] /\ g = merged_of (fragments_of k streams)).
  { intros k g. rewrite lookup_fmap. destruct (Hacc k) as (-> & _ & _).
    destruct (fragments_of k streams) as [| f fs]; simpl.
    - split; [done | by intros [? _]].
    - split; [by intros [= <-] | by intros [_ ->]]. }
  assert (Hstep : forall k g o,
            (exists e', direction_step (stream_end_points acc) k g o = Raise e')
            <-> forall v0 rest, asPolyline g <> Ok (v0 :: rest)).
  { intros k g o. unfold direction_step.
    destruct (asPolyline g) as [[| v0 rest] | e0]; unfold mbind, result_bind.
    - rewrite getitem_nil. split; [done | by eexists].
    - rewrite getitem_head.
      destruct (decide (v0 ∈ stream_end_points acc !!! k)); split;
        try (by intros [? [=]]); intros H; by specialize (H v0 rest).
    - split; [done | by eexists]. }
  split.
  - intros [-> (k & g & e' & Hin & Hraise)]. split; [done |].
    apply elem_of_map_to_list, Hgeom in Hin as [Hne ->].
    exists k. split; [done |]. eapply Hstep. by eexists.
  - intros [-> (k & Hne & Hbad)]. split; [done |].
    destruct (proj2 (Hstep k (merged_of (fragments_of k streams))
                       ((merge_group <$> streams_geoms acc) !! k)) Hbad) as [e' He'].
    exists k, (merged_of (fragments_of k streams)), e'.
    split; [| done]. apply elem_of_map_to_list, Hgeom. done.
Qed.
End unifier_failures.

Lemma unified_marks_witness :
  @union_stream_geometries demo_service open_streams = Ok open_unified
  /\ (is_Some (open_unified !! "A") <-> fragments_of "A" open_streams <> [])
  /\ (is_Some (open_unified !! "B") <-> fragments_of "B" open_streams <> [])
  /\ open_unified !! "B" = None.
Proof.
  split; [vm_compute; reflexivity |]. split; [| split].
  - apply (@unified_marks demo_service open_streams open_unified "A").
    vm_compute; reflexivity.
  - apply (@unified_marks demo_service open_streams open_unified "B").
    vm_compute; reflexivity.
  - vm_compute. reflexivity.
Defined.

Lemma fragments_of_open_streams (stream_mark : string) :
  (length (fragments_of stream_mark open_streams) <= 1)%nat.
Proof.
  unfold fragments_of, open_streams. simpl.
  change (fragment (mkStreamFeature (Text "A") (MultiLineString [[(0, 0); (4, 0); (10, 0)]])))
    with (Some ("A", [(0, 0); (4, 0); (10, 0)])).
  change (fragment (mkStreamFeature NULL (LineString [(1, 1); (2, 2)])))
    with (@None (string * list QgsPointXY)).
  change (fragment (mkStreamFeature (Text "B") (LineString [(7, 7)])))
    with (@None (string * list QgsPointXY)).
  destruct (decide ("A" = stream_mark)); simpl; lia.
Qed.

Lemma single_fragments_always_unify_witness :
  (forall stream_mark, (length (fragments_of stream_mark open_streams) <= 1)%nat)
  /\ is_Ok (@union_stream_geometries demo_service open_streams).
Proof.
  split; [exact fragments_of_open_streams |].
  apply (@single_fragments_always_unify demo_service open_streams).
  exact fragments_of_open_streams.
Defined.

(** * The Commit Adapter and the run *)

(** ** The layer of the points

    The layer of the points is written through the editing interface of
    QGIS, which is left abstract: a layer is a state of some type [L] and
    each call returns its answer with the next state. *)

Class PointsLayer (L : Type) : Type := {
  (** [layer.startEditing()] *)
  startEditing : L -> bool * L;
  (** [layer.fields().indexFromName(name)] *)
  indexFromName : L -> string -> Z;
  (** [layer.changeAttributeValue(point_id, field_index, value)] *)
  changeAttributeValue : L -> Z -> Z -> attribute -> bool * L;
  (** [layer.commitChanges()] *)
  commitChanges : L -> bool * L;
  (** [layer.isEditable()] *)
  isEditable : L -> bool;
  (** [layer.rollBack()], whose answer the code does not read *)
  rollBack : L -> L }.

Definition field_new_number : string := "numer-nowy".

(** ** The order of the dictionaries

    A dictionary is visited in the order in which its keys were first
    stored.  The stages above do not depend on it, since an iteration of
    their loops only touches the entry of its own mark.  The update does: a
    point that is on several streams has an entry in several lists, and its
    number of the stream visited last is the one that stays in
    [points_to_update].

    The keys of [streams_geoms] are stored at the first valid fragment of
    each mark, in the order of the features of the layer (line 129); the
    loops over [streams_geoms] and [unified_streams_geometries] store the
    keys of [unified_streams_geometries] and of [streams_points] in that
    same order (lines 132 to 140 and 166 to 203). *)

Definition first_occurrences (keys : list string) : list string :=
  foldl (fun seen k => if decide (k ∈ seen) then seen else seen ++ [k]) [] keys.

Definition stream_order (streams : list StreamFeature) : list string :=
  first_occurrences (omap (fun stream => fst <$> fragment stream) streams).

(** [d.items()] for a dictionary [d] whose keys were stored in the order
    [order]. *)
Definition items_in_order {V} (order : list string) (d : gmap string V)
  : list (string * V) :=
  omap (fun k => (fun v => (k, v)) <$> d !! k) order.

Section numerator.
Context {service : GeometryService} {L : Type} {layer_ops : PointsLayer L}.

(** The dictionary [points_to_update]: the streams are visited one after the
    other and every point with a new number stores it under its identifier,
    a later point replacing an earlier one.  [streams_points] is given by
    its items in the order of the dictionary. *)
Definition collect_updates (points_to_update : gmap Z string) (stream_points : list StreamPoint)
  : gmap Z string :=
  foldl (fun acc point =>
           match new_number point with
           | Some n => <[point_id point := n]> acc
           | None => acc
           end) points_to_update stream_points.

Definition points_to_update (streams_points : list (string * list StreamPoint))
  : gmap Z string :=
  foldl (fun acc item => collect_updates acc item.2) ∅ streams_points.

(** The calls of the two loops of writes: a number for every entry of
    [points_to_update], then [NULL] for every known point without entry.
    Each identifier is written once, so that the order of the calls within
    a loop is immaterial. *)
Definition number_writes (updates : gmap Z string) : list (Z * attribute) :=
  (fun kv => (kv.1, Text kv.2)) <$> map_to_list updates.

Definition clearing_writes (updates : gmap Z string) (point_features : gmap Z PointFeature)
  : list (Z * attribute) :=
  (fun point_id => (point_id, NULL))
    <$> filter (fun point_id => updates !! point_id = None) (map_to_list point_features).*1.

(** The answers of [changeAttributeValue] only reach a message or nothing. *)
Definition write_attributes (field_index : Z) (layer : L) (writes : list (Z * attribute)) : L :=
  foldl (fun l w => (changeAttributeValue l w.1 field_index w.2).2) layer writes.

(** The body of the [try] of [update_points_layer], with the layer it
    leaves. *)
Definition update_attempt (streams_points : list (string * list StreamPoint))
    (point_features : gmap Z PointFeature) (layer : L) : result unit * L :=
  let updates := points_to_update streams_points in
  let '(started, layer1) := startEditing layer in
  if negb started then (Raise RuntimeError, layer1)
  else
    let field_index := indexFromName layer1 field_new_number in
    if field_index =? -1 then (Raise ValueError, rollBack layer1)
    else
      let layer2 := write_attributes field_index layer1 (number_writes updates) in
      let layer3 := write_attributes field_index layer2
                      (clearing_writes updates point_features) in
      let '(committed, layer4) := commitChanges layer3 in
      if negb committed then (Raise RuntimeError, layer4) else (Ok tt, layer4).

Definition update_points_layer (streams_points : list (string * list StreamPoint))
    (point_features : gmap Z PointFeature) (layer : L) : result unit * L :=
  match update_attempt streams_points point_features layer with
  | (Ok tt, layer') => (Ok tt, layer')
  | (Raise _, layer') =>
      (Raise RuntimeError, if isEditable layer' then rollBack layer' else layer')
  end.

(** [run] on the features [streams] of the layer of the streams: the four
    stages in turn; an exception of a stage ends the run with a
    [RuntimeError].  The update visits the numbered lists in the order of
    the dictionary [streams_points]. *)
Definition run (streams : list StreamFeature) (point_features : gmap Z PointFeature)
    (layer : L) : result unit * L :=
  match union_stream_geometries streams with
  | Raise _ => (Raise RuntimeError, layer)
  | Ok unified =>
      match assign_points_to_streams unified point_features with
      | Raise _ => (Raise RuntimeError, layer)
      | Ok (streams_points, stream_old_points) =>
          match numerate_points streams_points stream_old_points with
          | Raise _ => (Raise RuntimeError, layer)
          | Ok numbered =>
              match update_points_layer (items_in_order (stream_order streams) numbered)
                                        point_features layer with
              | (Ok tt, layer') => (Ok tt, layer')
              | (Raise _, layer') => (Raise RuntimeError, layer')
              end
          end
      end
  end.

End numerator.

(** ** The numbers to write *)

Lemma collect_updates_Some (acc : gmap Z string) (pts : list StreamPoint)
    (id : Z) (v : string) :
  collect_updates acc pts !! id = Some v ->
  acc !! id = Some v
  \/ exists p, p ∈ pts /\ point_id p = id /\ new_number p = Some v.
Proof.
  revert acc. induction pts as [| q pts IH]; intros acc Hv; [by left |].
  unfold collect_updates in Hv. simpl in Hv. fold (collect_updates) in Hv.
  apply IH in Hv as [Hv | (p & Hp & Hid & Hn)].
  - destruct (new_number q) as [n |] eqn:Hq; [| by left].
    destruct (decide (point_id q = id)) as [Heq | Hne].
    + rewrite <- Heq, lookup_insert_eq in Hv. injection Hv as ->.
      right. exists q. split; [left | done].
    + rewrite lookup_insert_ne in Hv by done. by left.
  - right. exists p. split; [by right | done].
Qed.

Lemma collect_updates_is_Some (acc : gmap Z string) (pts : list StreamPoint) (id : Z) :
  is_Some (acc !! id)
  \/ (exists p, p ∈ pts /\ point_id p = id /\ is_Some (new_number p)) ->
  is_Some (collect_updates acc pts !! id).
Proof.
  revert acc. induction pts as [| q pts IH]; intros acc H.
  { destruct H as [H | (p & Hp & _)]; [done | by apply elem_of_nil in Hp]. }
  unfold collect_updates. simpl. fold (collect_updates). apply IH.
  destruct H as [H | (p & Hp & Hid & Hn)].
  - left. destruct (new_number q) as [n |]; [| done].
    destruct (decide (point_id q = id)) as [<- | Hne].
    + rewrite lookup_insert_eq. by eexists.
    + by rewrite lookup_insert_ne.
  - apply elem_of_cons in Hp as [-> | Hp].
    + left. destruct Hn as [n Hn]. rewrite Hn, <- Hid, lookup_insert_eq. by eexists.
    + right. by exists p.
Qed.

Lemma fold_updates_Some (items : list (string * list StreamPoint)) (acc : gmap Z string)
    (id : Z) (v : string) :
  foldl (fun acc item => collect_updates acc item.2) acc items !! id = Some v ->
  acc !! id = Some v
  \/ exists item p, item ∈ items /\ p ∈ item.2 /\ point_id p = id /\ new_number p = Some v.
Proof.
  revert acc. induction items as [| item items IH]; intros acc Hv; [by left |].
  simpl in Hv. apply IH in Hv as [Hv | (item' & p & Hin & Hp & Hid & Hn)].
  - apply collect_updates_Some in Hv as [Hv | (p & Hp & Hid & Hn)]; [by left |].
    right. exists item, p. split; [left | done].
  - right. exists item', p. split; [by right | done].
Qed.

Lemma fold_updates_is_Some (items : list (string * list StreamPoint)) (acc : gmap Z string)
    (id : Z) :
  is_Some (acc !! id)
  \/ (exists item p, item ∈ items /\ p ∈ item.2 /\ point_id p = id
                     /\ is_Some (new_number p)) ->
  is_Some (foldl (fun acc item => collect_updates acc item.2) acc items !! id).
Proof.
  revert acc. induction items as [| item items IH]; intros acc H.
  { destruct H as [H | (i & p & Hi & _)]; [done | by apply elem_of_nil in Hi]. }
  simpl. apply IH. destruct H as [H | (i & p & Hi & Hp & Hid & Hn)].
  - left. apply collect_updates_is_Some. by left.
  - apply elem_of_cons in Hi as [-> | Hi].
    + left. apply collect_updates_is_Some. right. by exists p.
    + right. by exists i, p.
Qed.

(** X15. The dictionary of the numbers to write holds, under the identifier
    of a point, a new number that some stream point with this identifier
    carries; and an identifier is missing from it exactly when no stream
    point with this identifier has a new number.  This holds whatever the
    order of the streams is. *)
Theorem points_to_update_sound_and_complete
    (streams_points : list (string * list StreamPoint)) (id : Z) :
  (forall v,
      points_to_update streams_points !! id = Some v ->
      exists stream_mark pts p,
        (stream_mark, pts) ∈ streams_points /\ p ∈ pts
        /\ point_id p = id /\ new_number p = Some v)
  /\ (points_to_update streams_points !! id = None
      <-> forall stream_mark pts p,
          (stream_mark, pts) ∈ streams_points -> p ∈ pts -> point_id p = id ->
          new_number p = None).
Proof.
  unfold points_to_update. split.
  - intros v Hv. apply fold_updates_Some in Hv as [Hv | ([k pts] & p & Hin & Hp & Hid & Hn)].
    + by rewrite lookup_empty in Hv.
    + by exists k, pts, p.
  - split.
    + intros Hnone mark pts p Hpts Hp Hid.
      destruct (new_number p) as [n |] eqn:Hn; [| done]. exfalso.
      assert (Hsome : is_Some (foldl (fun acc item => collect_updates acc item.2) ∅
                                 streams_points !! id)).
      { apply fold_updates_is_Some. right. exists (mark, pts), p.
        split; [done |]. split; [done |]. split; [done |].
        rewrite Hn. by eexists. }
      rewrite Hnone in Hsome. by destruct Hsome.
    + intros Hall.
      destruct (foldl _ _ _ !! id) as [v |] eqn:Hv; [| done]. exfalso.
      apply fold_updates_Some in Hv as [Hv | ([k pts] & p & Hin & Hp & Hid & Hn)].
      * by rewrite lookup_empty in Hv.
      * specialize (Hall k pts p Hin Hp Hid). congruence.
Qed.

(** *** The stream visited last wins *)

Lemma collect_updates_lookup (acc : gmap Z string) (pts : list StreamPoint) (id : Z) :
  collect_updates acc pts !! id
  = match collect_updates ∅ pts !! id with
    | Some v => Some v
    | None => acc !! id
    end.
Proof.
  revert acc. induction pts as [| q pts IH]; intros acc.
  { simpl. by rewrite lookup_empty. }
  change (collect_updates acc (q :: pts))
    with (collect_updates (match new_number q with
                           | Some n => <[point_id q := n]> acc
                           | None => acc
                           end) pts).
  change (collect_updates ∅ (q :: pts))
    with (collect_updates (match new_number q with
                           | Some n => <[point_id q := n]> ∅
                           | None => ∅
                           end) pts).
  rewrite (IH (match new_number q with Some n => <[point_id q := n]> acc | None => acc end)).
  rewrite (IH (match new_number q with Some n => <[point_id q := n]> ∅ | None => ∅ end)).
  destruct (collect_updates ∅ pts !! id); [done |].
  destruct (new_number q) as [n |]; [| by rewrite lookup_empty].
  destruct (decide (point_id q = id)) as [<- | Hne].
  - by rewrite !lookup_insert_eq.
  - by rewrite !lookup_insert_ne, lookup_empty by done.
Qed.

Lemma fold_updates_lookup (items : list (string * list StreamPoint)) (acc : gmap Z string)
    (id : Z) :
  foldl (fun acc item => collect_updates acc item.2) acc items !! id
  = match points_to_update items !! id with
    | Some v => Some v
    | None => acc !! id
    end.
Proof.
  unfold points_to_update. revert acc. induction items as [| item items IH]; intros acc.
  { simpl. by rewrite lookup_empty. }
  simpl. rewrite (IH (collect_updates acc item.2)), (IH (collect_updates ∅ item.2)).
  destruct (foldl _ ∅ items !! id); [done |].
  apply collect_updates_lookup.
Qed.

(** X19. Of two streams that carry a number for the same point, the one that
    the dictionary holds later decides: the entry of a point after the
    streams [earlier] and then [later] is its entry after [later] alone when
    there is one, and its entry after [earlier] otherwise. *)
Theorem later_stream_wins (earlier later : list (string * list StreamPoint)) (id : Z) :
  points_to_update (earlier ++ later) !! id
  = match points_to_update later !! id with
    | Some v => Some v
    | None => points_to_update earlier !! id
    end.
Proof.
  unfold points_to_update at 1. rewrite foldl_app.
  apply (fold_updates_lookup later (points_to_update earlier) id).
Qed.

Lemma planned_writes_NoDup (updates : gmap Z string)
    (point_features : gmap Z PointFeature) :
  NoDup (number_writes updates ++ clearing_writes updates point_features).*1.
Proof.
  assert (Hn : (number_writes updates).*1 = (map_to_list updates).*1).
  { unfold number_writes. rewrite <- list_fmap_compose. reflexivity. }
  assert (Hc : (clearing_writes updates point_features).*1
               = filter (fun id => updates !! id = None) (map_to_list point_features).*1).
  { unfold clearing_writes. rewrite <- list_fmap_compose. apply list_fmap_id. }
  rewrite fmap_app, Hn, Hc. apply NoDup_app. split; [apply NoDup_fst_map_to_list |].
  split; [| apply NoDup_filter, NoDup_fst_map_to_list].
  intros id Hid Hid'. apply list_elem_of_filter in Hid' as [Hnone _].
  apply list_elem_of_fmap in Hid as ([k v] & -> & Hkv).
  apply elem_of_map_to_list in Hkv. simpl in Hnone. congruence.
Qed.

Lemma planned_writes_known (updates : gmap Z string)
    (point_features : gmap Z PointFeature) (point_id : Z) :
  is_Some (point_features !! point_id) ->
  (point_id, match updates !! point_id with Some n => Text n | None => NULL end)
    ∈ number_writes updates ++ clearing_writes updates point_features.
Proof.
  intros [feat Hfeat]. apply elem_of_app.
  destruct (updates !! point_id) as [n |] eqn:Hu.
  - left. unfold number_writes. apply list_elem_of_fmap. exists (point_id, n).
    split; [done |]. by apply elem_of_map_to_list.
  - right. unfold clearing_writes. apply list_elem_of_fmap. exists point_id.
    split; [done |]. apply list_elem_of_filter. split; [done |].
    apply list_elem_of_fmap. exists (point_id, feat). split; [done |].
    by apply elem_of_map_to_list.
Qed.

(** X16. The two loops of writes address every known point exactly once: no
    identifier is written twice, a point with an entry in [points_to_update]
    is written with its number, and a known point without entry (a point on
    no stream) is written with [NULL]. *)
Theorem writes_cover_every_point (updates : gmap Z string)
    (point_features : gmap Z PointFeature) :
  NoDup (number_writes updates ++ clearing_writes updates point_features).*1
  /\ forall point_id,
      is_Some (point_features !! point_id) ->
      (point_id, match updates !! point_id with Some n => Text n | None => NULL end)
        ∈ number_writes updates ++ clearing_writes updates point_features.
Proof.
  split.
  - apply planned_writes_NoDup.
  - intros point_id Hknown. by apply planned_writes_known.
Qed.

(** ** The lists that the update visits *)

Lemma elem_of_first_occurrences_from (seen keys : list string) (k : string) :
  k ∈ foldl (fun seen k => if decide (k ∈ seen) then seen else seen ++ [k]) seen keys
  <-> k ∈ seen \/ k ∈ keys.
Proof.
  revert seen. induction keys as [| k0 keys IH]; intros seen; simpl.
  { rewrite elem_of_nil. tauto. }
  rewrite IH, elem_of_cons. destruct (decide (k0 ∈ seen)) as [Hin | Hnotin].
  - split; [tauto |]. intros [H | [-> | H]]; auto.
  - rewrite elem_of_app, list_elem_of_singleton. tauto.
Qed.

Lemma elem_of_first_occurrences (keys : list string) (k : string) :
  k ∈ first_occurrences keys <-> k ∈ keys.
Proof.
  unfold first_occurrences. rewrite elem_of_first_occurrences_from, elem_of_nil. tauto.
Qed.

Lemma elem_of_stream_order (streams : list StreamFeature) (stream_mark : string) :
  stream_mark ∈ stream_order streams <-> fragments_of stream_mark streams <> [].
Proof.
  unfold stream_order. rewrite elem_of_first_occurrences.
  induction streams as [| stream streams IH].
  { simpl. split; [intros H; by apply elem_of_nil in H | done]. }
  unfold fragments_of. simpl. fold (fragments_of stream_mark streams).
  destruct (fragment stream) as [[m vertices] |]; simpl; [| exact IH].
  rewrite elem_of_cons, IH. destruct (decide (m = stream_mark)) as [-> | Hne].
  - split; [done | by left].
  - split; [intros [-> | H]; done | by right].
Qed.

Lemma elem_of_items_in_order {V} (order : list string) (d : gmap string V)
    (k : string) (v : V) :
  (k, v) ∈ items_in_order order d <-> k ∈ order /\ d !! k = Some v.
Proof.
  unfold items_in_order. rewrite list_elem_of_omap. split.
  - intros (k' & Hk' & Hv). destruct (d !! k') as [v' |] eqn:Hd; [| done].
    injection Hv as <- <-. done.
  - intros [Hk Hv]. exists k. by rewrite Hv.
Qed.

(** The numbered lists come from the points that match: every point of a
    numbered list is a known point that matches the stream of the list, it
    has a number, and this number is its legacy number when it has one; and
    every point that matches a stream is in the numbered list of the
    stream. *)

Section numbered_lists.
Context {service : GeometryService}.
Variable point_features : gmap Z PointFeature.

Lemma numbered_points (unified : gmap string QgsGeometry)
    (streams_points stream_old_points numbered : gmap string (list StreamPoint)) :
  assign_points_to_streams unified point_features = Ok (streams_points, stream_old_points) ->
  numerate_points streams_points stream_old_points = Ok numbered ->
  (forall stream_mark pts p,
      numbered !! stream_mark = Some pts -> p ∈ pts ->
      exists g point_feat,
        unified !! stream_mark = Some g /\ isEmpty g = false
        /\ matches point_features (point_id p) g
        /\ point_features !! point_id p = Some point_feat
        /\ is_Some (new_number p)
        /\ forall s, read_old_number (point_old_number point_feat) = Some s ->
                     new_number p = Some s)
  /\ (forall stream_mark g id,
        unified !! stream_mark = Some g -> isEmpty g = false ->
        matches point_features id g ->
        exists pts p, numbered !! stream_mark = Some pts /\ p ∈ pts /\ point_id p = id).
Proof.
  intros Hassign Hnumerate.
  apply assign_points_to_streams_Ok in Hassign as (assigned & Hloop & -> & ->).
  pose proof (assign_loop_Ok point_features unified assigned Hloop) as Hassigned.
  assert (Hline : forall mark raw,
            assigned !! mark = Some raw ->
            exists pts, numerate_line (sort_by_distance raw) = Ok pts
                        /\ numbered !! mark = Some pts).
  { intros mark raw Hraw.
    pose proof (numerate_points_Ok _ _ _ Hnumerate mark) as Hmark.
    rewrite lookup_fmap, Hraw in Hmark. simpl in Hmark.
    destruct Hmark as (pts & Hnum & Hfinal).
    rewrite lookup_total_alt, !lookup_fmap, Hraw in Hnum. simpl in Hnum.
    by exists pts. }
  split.
  - intros mark pts p Hpts Hp.
    pose proof (numerate_points_Ok _ _ _ Hnumerate mark) as Hmark.
    rewrite lookup_fmap in Hmark.
    destruct (assigned !! mark) as [raw |] eqn:Hraw; simpl in Hmark; [| congruence].
    destruct (Hline mark raw Hraw) as (pts' & Hnum & Hfinal).
    rewrite Hpts in Hfinal. injection Hfinal as <-.
    apply list_elem_of_lookup in Hp as (k & Hk).
    destruct (numerate_line_point (sort_by_distance raw) pts k p Hnum Hk)
      as (q & Hq & Hid & Hold & Hkeep & Hfresh).
    assert (Hin : q ∈ raw).
    { rewrite <- sort_by_distance_Permutation. apply list_elem_of_lookup. by exists k. }
    apply Hassigned in Hraw as (g & Hg & Hne & Hacc & _).
    apply (elem_of_accepted point_features g _ _ q Hacc) in Hin as (id & Hcand & Hq').
    apply accept_candidate_Some in Hq' as (feat & pg & Hfeat & Hpg & Hint & ->).
    simpl in *. exists g, feat. rewrite Hid.
    split; [done |]. split; [done |]. split; [split; [done | by exists feat, pg] |].
    split; [done |].
    unfold has_old_number, no_old_number in *. simpl in *.
    destruct (read_old_number (point_old_number feat)) as [s |] eqn:Hs.
    + rewrite Hkeep by done. split; [by eexists | by intros s' [= <-]].
    + split; [by apply Hfresh | done].
  - intros mark g id Hg Hne (Hcand & feat & pg & Hfeat & Hpg & Hint).
    set (q := mkStreamPoint id (lineLocatePoint g pg)
                (read_old_number (point_old_number feat))
                (read_old_number (point_old_number feat)) None).
    destruct (accepted point_features g (index_intersects g)) as [raw | e] eqn:Hraw.
    2:{ apply elem_of_map_to_list in Hg.
        eapply (for_each_items_Ok _ (assign_step point_features)) in Hloop;
          [| apply assign_stream_step | apply NoDup_fst_map_to_list].
        destruct Hloop as [Hitems _]. specialize (Hitems _ _ Hg).
        unfold assign_step in Hitems. by rewrite Hne, Hraw in Hitems. }
    assert (Hq : q ∈ raw).
    { apply (elem_of_accepted point_features g _ _ q Hraw). exists id.
      split; [done |]. apply accept_candidate_Some. by exists feat, pg. }
    assert (Hsome : assigned !! mark = Some raw).
    { apply Hassigned. exists g. repeat split; try done.
      intros ->. by apply elem_of_nil in Hq. }
    destruct (Hline mark raw Hsome) as (pts & Hnum & Hfinal).
    rewrite <- sort_by_distance_Permutation in Hq.
    apply list_elem_of_lookup in Hq as (k & Hk).
    destruct (lookup_lt_is_Some_2 pts k) as [r Hr].
    { rewrite (length_numerate_line _ _ Hnum). by eapply lookup_lt_Some. }
    destruct (numerate_line_point _ pts k r Hnum Hr) as (q' & Hq' & Hid & _).
    rewrite Hk in Hq'. injection Hq' as <-.
    exists pts, r. split; [done |]. split; [| done].
    apply list_elem_of_lookup. by exists k.
Qed.
End numbered_lists.

(** ** What a successful update leaves in the layer *)

Section layer_contract.
Context {L : Type} {layer_ops : PointsLayer L}.
Variable point_features : gmap Z PointFeature.

(** [attribute_of l id]: the value that the layer [l] shows for the point
    [id] in the field of index [field_index]; [editing l]: the layer is in
    an editing session. *)
Variable field_index : Z.
Variable attribute_of : L -> Z -> attribute.
Variable editing : L -> Prop.

(** The contract of the layer: a session that [startEditing] opens lasts
    through the writes; in a session a write to a known point takes effect;
    a write leaves the other points as they are; a commit that succeeds
    keeps the values. *)
Hypothesis start_opens : forall l,
  (startEditing l).1 = true -> editing (startEditing l).2.
Hypothesis change_stays : forall l id v,
  editing l -> editing (changeAttributeValue l id field_index v).2.
Hypothesis change_known : forall l id v,
  editing l -> is_Some (point_features !! id) ->
  attribute_of (changeAttributeValue l id field_index v).2 id = v.
Hypothesis change_other : forall l id v other,
  other <> id ->
  attribute_of (changeAttributeValue l id field_index v).2 other = attribute_of l other.
Hypothesis commit_keeps : forall l id,
  (commitChanges l).1 = true ->
  attribute_of (commitChanges l).2 id = attribute_of l id.

Lemma write_attributes_cons (l : L) (w : Z * attribute) (writes : list (Z * attribute)) :
  write_attributes field_index l (w :: writes)
  = write_attributes field_index (changeAttributeValue l w.1 field_index w.2).2 writes.
Proof. reflexivity. Qed.

Lemma write_attributes_app (l : L) (writes1 writes2 : list (Z * attribute)) :
  write_attributes field_index l (writes1 ++ writes2)
  = write_attributes field_index (write_attributes field_index l writes1) writes2.
Proof. apply foldl_app. Qed.

Lemma write_attributes_other (l : L) (writes : list (Z * attribute)) (id : Z) :
  id ∉ writes.*1 ->
  attribute_of (write_attributes field_index l writes) id = attribute_of l id.
Proof.
  revert l. induction writes as [| w writes IH]; intros l Hnotin; [reflexivity |].
  rewrite fmap_cons, not_elem_of_cons in Hnotin. destruct Hnotin as [Hne Hnotin].
  rewrite write_attributes_cons, IH by done. by apply change_other.
Qed.

Lemma write_attributes_written (l : L) (writes : list (Z * attribute)) (id : Z)
    (v : attribute) :
  editing l ->
  NoDup writes.*1 -> (id, v) ∈ writes -> is_Some (point_features !! id) ->
  attribute_of (write_attributes field_index l writes) id = v.
Proof.
  revert l. induction writes as [| w writes IH]; intros l Hedit Hnodup Hin Hknown.
  { by apply elem_of_nil in Hin. }
  rewrite fmap_cons in Hnodup. apply NoDup_cons in Hnodup as [Hfresh Hnodup].
  rewrite write_attributes_cons.
  apply elem_of_cons in Hin as [<- | Hin].
  - rewrite write_attributes_other by done. by apply change_known.
  - apply IH; try done. by apply change_stays.
Qed.

Lemma update_attempt_attribute
    (streams_points : list (string * list StreamPoint)) (layer layer' : L) (id : Z) :
  indexFromName (startEditing layer).2 field_new_number = field_index ->
  update_attempt streams_points point_features layer = (Ok tt, layer') ->
  is_Some (point_features !! id) ->
  attribute_of layer' id
  = match points_to_update streams_points !! id with
    | Some n => Text n
    | None => NULL
    end.
Proof.
  intros Hindex Hupdate Hknown.
  unfold update_attempt in Hupdate.
  pose proof (start_opens layer) as Hopen.
  destruct (startEditing layer) as [started layer1] eqn:Hstart. simpl in Hindex, Hopen.
  destruct started; simpl in Hupdate; [| done].
  rewrite Hindex in Hupdate.
  destruct (field_index =? -1); [done |].
  rewrite <- write_attributes_app in Hupdate.
  destruct (commitChanges _) as [committed layer4] eqn:Hcommit.
  destruct committed; simpl in Hupdate; [| done].
  injection Hupdate as <-.
  replace layer4 with (commitChanges
    (write_attributes field_index layer1
       (number_writes (points_to_update streams_points)
        ++ clearing_writes (points_to_update streams_points) point_features))).2
    by (by rewrite Hcommit).
  rewrite commit_keeps by (by rewrite Hcommit).
  apply write_attributes_written;
    [by apply Hopen | apply planned_writes_NoDup | by apply planned_writes_known | done].
Qed.

Lemma update_points_layer_Ok
    (streams_points : list (string * list StreamPoint)) (layer layer' : L) :
  update_points_layer streams_points point_features layer = (Ok tt, layer') ->
  update_attempt streams_points point_features layer = (Ok tt, layer').
Proof.
  unfold update_points_layer.
  destruct (update_attempt streams_points point_features layer) as [[[] | e] l]; [| done].
  by intros [= ->].
Qed.

(** X17. On a layer that honours the contract of attribute writes, an
    update that returns leaves, for every known point, its number from
    [points_to_update] in the result field, and [NULL] when it has none: the
    numbers of the points that are on no stream any more are cleared.  For a
    point on several streams the number is the one of the stream that the
    dictionary [streams_points] holds last. *)
Theorem update_writes_every_known_point
    (streams_points : list (string * list StreamPoint)) (layer layer' : L) (id : Z)
    (Hindex : indexFromName (startEditing layer).2 field_new_number = field_index)
    (Hupdate : update_points_layer streams_points point_features layer = (Ok tt, layer'))
    (Hknown : is_Some (point_features !! id)) :
  attribute_of layer' id
  = match points_to_update streams_points !! id with
    | Some n => Text n
    | None => NULL
    end.
Proof.
  apply update_points_layer_Ok in Hupdate.
  by apply (update_attempt_attribute streams_points layer layer' id).
Qed.
End layer_contract.

(** ** A layer held in memory

    A small transactional store that honours the contract: the committed
    values, and the buffer of the editing session when there is one. *)

Record MemoryLayer : Type := mkMemoryLayer {
  memory_fields : list string;
  memory_committed : gmap Z attribute;
  memory_buffer : option (gmap Z attribute) }.

Definition memory_visible (l : MemoryLayer) : gmap Z attribute :=
  default (memory_committed l) (memory_buffer l).

Fixpoint index_of_name (names : list string) (name : string) (i : Z) : Z :=
  match names with
  | [] => -1
  | n :: names' => if decide (n = name) then i else index_of_name names' name (i + 1)
  end.

#[global] Instance memory_layer : PointsLayer MemoryLayer := {|
  startEditing l :=
    match memory_buffer l with
    | Some _ => (false, l)
    | None => (true, mkMemoryLayer (memory_fields l) (memory_committed l)
                       (Some (memory_committed l)))
    end;
  indexFromName l name := index_of_name (memory_fields l) name 0;
  changeAttributeValue l id _ v :=
    match memory_buffer l with
    | Some buffer =>
        (true, mkMemoryLayer (memory_fields l) (memory_committed l) (Some (<[id := v]> buffer)))
    | None => (false, l)
    end;
  commitChanges l :=
    match memory_buffer l with
    | Some buffer => (true, mkMemoryLayer (memory_fields l) buffer None)
    | None => (false, l)
    end;
  isEditable l := bool_decide (is_Some (memory_buffer l));
  rollBack l := mkMemoryLayer (memory_fields l) (memory_committed l) None |}.

Definition memory_attribute (l : MemoryLayer) (id : Z) : attribute :=
  default NULL (memory_visible l !! id).

Definition memory_editing (l : MemoryLayer) : Prop := is_Some (memory_buffer l).

Lemma memory_start_opens (l : MemoryLayer) :
  (startEditing l).1 = true -> memory_editing (startEditing l).2.
Proof.
  unfold memory_editing. simpl. destruct (memory_buffer l); simpl; [done | by eexists].
Qed.

Lemma memory_change_stays (field_index : Z) (l : MemoryLayer) (id : Z) (v : attribute) :
  memory_editing l -> memory_editing (changeAttributeValue l id field_index v).2.
Proof. intros [buffer Hb]. unfold memory_editing. simpl. rewrite Hb. simpl. by eexists. Qed.

Lemma memory_change_known (field_index : Z) (l : MemoryLayer) (id : Z) (v : attribute) :
  memory_editing l ->
  memory_attribute (changeAttributeValue l id field_index v).2 id = v.
Proof.
  intros [buffer Hb]. unfold memory_attribute, memory_visible. simpl.
  rewrite Hb. simpl. by rewrite lookup_insert_eq.
Qed.

Lemma memory_change_other (field_index : Z) (l : MemoryLayer) (id : Z) (v : attribute)
    (other : Z) :
  other <> id ->
  memory_attribute (changeAttributeValue l id field_index v).2 other
  = memory_attribute l other.
Proof.
  intros Hne. unfold memory_attribute, memory_visible. simpl.
  destruct (memory_buffer l) as [buffer |] eqn:Hb; simpl; [| by rewrite Hb].
  by rewrite lookup_insert_ne.
Qed.

Lemma memory_commit_keeps (l : MemoryLayer) (id : Z) :
  (commitChanges l).1 = true ->
  memory_attribute (commitChanges l).2 id = memory_attribute l id.
Proof.
  unfold memory_attribute, memory_visible. simpl.
  destruct (memory_buffer l) as [buffer |] eqn:Hb; simpl; done.
Qed.

(** The points layer of the run on the grid, where the point 6, which lies
    off the stream, still holds a number of an earlier run. *)
Definition demo_layer : MemoryLayer :=
  mkMemoryLayer ["id"; "numer-stary"; "numer-nowy"]
                (list_to_map [(1, NULL); (2, NULL); (3, NULL); (4, NULL); (5, NULL);
                              (6, Text "3P")])
                None.

Definition demo_updated : result unit * MemoryLayer :=
  Eval vm_compute in update_points_layer (map_to_list demo_final) demo_features demo_layer.

Lemma update_writes_every_known_point_witness :
  indexFromName (startEditing demo_layer).2 field_new_number = 2
  /\ update_points_layer (map_to_list demo_final) demo_features demo_layer
     = (Ok tt, demo_updated.2)
  /\ is_Some (demo_features !! 6)
  /\ memory_attribute demo_updated.2 6
     = match points_to_update (map_to_list demo_final) !! 6 with
       | Some n => Text n
       | None => NULL
       end
  /\ memory_attribute demo_updated.2 6 = NULL.
Proof.
  split; [vm_compute; reflexivity |]. split; [vm_compute; reflexivity |].
  split; [vm_compute; by eexists |]. split; [| vm_compute; reflexivity].
  apply (update_writes_every_known_point demo_features 2 memory_attribute memory_editing
           memory_start_opens (memory_change_stays 2)
           (fun l id v Hl _ => memory_change_known 2 l id v Hl)
           (memory_change_other 2) memory_commit_keeps
           (map_to_list demo_final) demo_layer demo_updated.2 6);
    [vm_compute; reflexivity | vm_compute; reflexivity | vm_compute; by eexists].
Defined.
